(** * Fizz: schema, row-level security, issue keys, invites and dialogs

    A shallow embedding of the parts of the Fizz repository that its
    specification talks about:

    - the relational schema of the two SQL migrations (tables, enums,
      UNIQUE constraints), the row-level-security policies as a session
      meets them, and the stored functions [has_role], [get_user_role] and
      [generate_issue_key];
    - the client code that talks to that schema: [generateIssueKey] of
      CreateIssueDialog, [generateSlug] of CreateOrgDialog, [handleSubmit]
      of CreateInviteDialog, [acceptInvite] of the AcceptInvite page, and
      the error handling of every backend call site.

    Conventions.  UUIDs are opaque identifiers ([N]).  Text (SQL [TEXT] and
    JavaScript strings) is [string]: a sequence of the code units
    U+0000..U+00FF, so that every character class and case mapping used by
    the sources is written out exactly on that range.  Timestamps are
    milliseconds since the epoch ([Z]).  SQL [NULL] is [None]. *)

From Stdlib Require Import ZArith NArith List String Ascii Bool Lia.
From Stdlib Require Import DecimalString DecimalZ.
Import ListNotations.

Local Open Scope string_scope.
Local Open Scope list_scope.
Local Open Scope Z_scope.

(* ===================================================================== *)
(** * Part I: definitions                                                 *)
(* ===================================================================== *)

(** ** Text primitives of the two runtimes (PostgreSQL and JavaScript) *)

Module Text.

Definition code (c : ascii) : N := N_of_ascii c.

Definition between (lo hi : N) (c : ascii) : bool :=
  ((lo <=? code c) && (code c <=? hi))%N.

(** The regular-expression classes [0-9], [a-z] and [A-Z]. *)
Definition is_digit (c : ascii) : bool := between 48 57 c.
Definition is_lower (c : ascii) : bool := between 97 122 c.
Definition is_upper (c : ascii) : bool := between 65 90 c.

Definition is_hyphen (c : ascii) : bool := Ascii.eqb c "-".

(** [String.prototype.toLowerCase] on one code unit of U+0000..U+00FF:
    A-Z, and the Latin-1 capitals U+00C0..U+00DE except the
    multiplication sign U+00D7, move up by 32; everything else stays. *)
Definition lower_char (c : ascii) : ascii :=
  if is_upper c || (between 192 222 c && negb (code c =? 215)%N)
  then ascii_of_N (code c + 32)
  else c.

Fixpoint toLowerCase (s : string) : string :=
  match s with
  | EmptyString => EmptyString
  | String c r => String (lower_char c) (toLowerCase r)
  end.

(** ECMAScript WhiteSpace and LineTerminator code units below U+0100:
    TAB, LF, VT, FF, CR, SPACE and NO-BREAK SPACE. *)
Definition js_space (c : ascii) : bool :=
  between 9 13 c || (code c =? 32)%N || (code c =? 160)%N.

Fixpoint trimStart (s : string) : string :=
  match s with
  | EmptyString => EmptyString
  | String c r => if js_space c then trimStart r else s
  end.

(** Drops the white space at the end: a character is kept when it is not
    white space or when something is kept after it. *)
Fixpoint trimEnd (s : string) : string :=
  match s with
  | EmptyString => EmptyString
  | String c r =>
      match trimEnd r with
      | EmptyString => if js_space c then EmptyString else String c EmptyString
      | r' => String c r'
      end
  end.

(** [String.prototype.trim]. *)
Definition trim (s : string) : string := trimEnd (trimStart s).

(** The empty string is the one falsy string of JavaScript. *)
Definition is_empty (s : string) : bool :=
  match s with
  | EmptyString => true
  | String _ _ => false
  end.

(** [String.prototype.includes] for a one-character needle. *)
Fixpoint includes_char (c : ascii) (s : string) : bool :=
  match s with
  | EmptyString => false
  | String d r => Ascii.eqb d c || includes_char c r
  end.

(** Decimal rendering of an integer: what PostgreSQL's [integer -> text]
    conversion (in [text || integer]) and JavaScript's template literal
    produce for an integral number. *)
Definition decimal (z : Z) : string := NilZero.string_of_int (Z.to_int z).

(** SQL [SUBSTRING(s FROM n)] for [n >= 1]: the text from the [n]-th
    character (counted from 1) to the end. *)
Fixpoint drop (n : nat) (s : string) : string :=
  match n, s with
  | O, _ => s
  | S _, EmptyString => EmptyString
  | S m, String _ r => drop m r
  end.

Definition substring_from (n : nat) (s : string) : string := drop (n - 1) s.

End Text.

(** ** Outcomes of backend calls and what the components do with them *)

(** The errors a statement or a REST call can come back with. *)
Inductive pg_error :=
| unique_violation (constraint : string)   (* SQLSTATE 23505 *)
| rls_violation (table : string)           (* SQLSTATE 42501 *)
| invalid_text_representation              (* SQLSTATE 22P02 *)
| numeric_value_out_of_range               (* SQLSTATE 22003 *)
| raise_exception (message : string)       (* SQLSTATE P0001 *)
| invalid_object_definition                (* SQLSTATE 42P17: infinite recursion
                                              detected in policy for relation *)
| not_a_single_row                         (* PostgREST PGRST116 *)
| network_failure.                         (* the request got no answer *)

Inductive result (A : Type) :=
| OK (a : A)
| Err (e : pg_error).
Arguments OK {A} a.
Arguments Err {A} e.

Notation "x <- e ;; k" :=
  (match e with
   | OK x => k
   | Err err => Err err
   end)
  (at level 61, e at next level, right associativity, only parsing).

(** A text shown to the user: a literal of the component,
    [error.message || fallback] for a backend error, or the message of the
    [TypeError] raised by reading a property of [null]. *)
Inductive message :=
| text (s : string)
| message_or (e : pg_error) (fallback : string)
| type_error_message.

(** The observable steps of an event handler. *)
Inductive ui_effect :=
| toast (title : string) (description : message) (destructive : bool)
| console_error (label : string) (e : pg_error)
| show_in_page (m : message)      (* setStatus('error'); setMessage(m) *)
| set_loading (b : bool)
| set_state (name : string)       (* a state setter fed with the data of a response *)
| reset_form
| close_dialog                    (* onOpenChange(false) *)
| callback (prop : string)        (* onSuccess?.(), onUpdate?.() *)
| navigate (path : string).

(** The [error] field of a response: [None] when the call succeeded. *)
Definition response := option pg_error.

(** ** CreateOrgDialog: the slug generator *)

Module CreateOrgDialog.
Import Text.

(** The class [a-z0-9] that the first regular expression negates. *)
Definition is_lower_alnum (c : ascii) : bool := is_lower c || is_digit c.

(** [.replace(/[^a-z0-9]+/g, '-')]: every maximal run of characters
    outside [a-z0-9] becomes one hyphen.  [in_run] tells whether the
    previous character already belonged to the run being replaced. *)
Fixpoint replace_runs (in_run : bool) (s : string) : string :=
  match s with
  | EmptyString => EmptyString
  | String c r =>
      if is_lower_alnum c then String c (replace_runs false r)
      else if in_run then replace_runs true r
      else String "-" (replace_runs true r)
  end.

(** The [-$] alternative: a hyphen that is the last character goes. *)
Fixpoint drop_last_hyphen (s : string) : string :=
  match s with
  | EmptyString => EmptyString
  | String c EmptyString => if is_hyphen c then EmptyString else s
  | String c r => String c (drop_last_hyphen r)
  end.

(** [.replace(/^-|-$/g, '')]: the scan removes a hyphen at index 0, goes
    on behind it, and removes a hyphen that ends the string. *)
Definition strip_edge_hyphens (s : string) : string :=
  match s with
  | String c r => if is_hyphen c then drop_last_hyphen r else drop_last_hyphen s
  | EmptyString => EmptyString
  end.

Definition generateSlug (name : string) : string :=
  strip_edge_hyphens (replace_runs false (toLowerCase name)).

(** A well-formed slug: lowercase letters, digits and hyphens, with no
    hyphen at either end. *)
Definition is_slug_char (c : ascii) : bool := is_lower_alnum c || is_hyphen c.

Fixpoint all_chars (p : ascii -> bool) (s : string) : bool :=
  match s with
  | EmptyString => true
  | String c r => p c && all_chars p r
  end.

Definition starts_with_hyphen (s : string) : bool :=
  match s with
  | String c _ => is_hyphen c
  | EmptyString => false
  end.

Fixpoint ends_with_hyphen (s : string) : bool :=
  match s with
  | EmptyString => false
  | String c EmptyString => is_hyphen c
  | String _ r => ends_with_hyphen r
  end.

Definition well_formed_slug (s : string) : bool :=
  all_chars is_slug_char s && negb (starts_with_hyphen s) && negb (ends_with_hyphen s).

(** No two hyphens in a row. *)
Fixpoint separated (s : string) : bool :=
  match s with
  | EmptyString => true
  | String c r => negb (is_hyphen c && starts_with_hyphen r) && separated r
  end.

(** The shape of a string after the first replacement. *)
Definition collapsed (s : string) : Prop :=
  all_chars is_slug_char s = true /\ separated s = true.

(** [handleSubmit], as a function of what the two calls answer: the
    insert into [organizations] and the update of the user's profile. *)
Definition handleSubmit (user : bool) (orgError profileError : response)
  : list ui_effect :=
  if negb user then []
  else
    [set_loading true]
    ++ match orgError, profileError with
       | Some e, _ => [toast "Error" (message_or e "Failed to create organization") true]
       | None, Some e => [toast "Error" (message_or e "Failed to create organization") true]
       | None, None =>
           [toast "Success" (text "Organization created successfully!") false;
            reset_form; close_dialog; callback "onSuccess"; navigate "/"]
       end
    ++ [set_loading false].

End CreateOrgDialog.

(** ** The relational schema

    One module per table, with the columns the policies, constraints,
    stored functions and client calls read or write.  Columns that only
    carry payload (names, descriptions, timestamps of creation) are left
    out, and so are [issues.sprint_id] and [issues.parent_issue_id], which
    no statement of the client sets: they stay null.  A column declared
    [NOT NULL] has its plain type, a nullable one an [option]. *)

Definition uuid := N.
Bind Scope N_scope with uuid.
Definition timestamptz := Z.
Bind Scope Z_scope with timestamptz.

(** [CREATE TYPE app_role AS ENUM (...)]. *)
Inductive app_role := owner | admin | manager | contributor | viewer.

Definition app_role_eqb (a b : app_role) : bool :=
  match a, b with
  | owner, owner | admin, admin | manager, manager
  | contributor, contributor | viewer, viewer => true
  | _, _ => false
  end.

Module UserRole.
Record row := mk
  { id : uuid; user_id : uuid; org_id : uuid; role : app_role }.
End UserRole.

Module Organization.
Record row := mk
  { id : uuid; name : string; slug : string; owner_user_id : uuid }.
End Organization.

Module Profile.
Record row := mk
  { id : uuid; org_id : option uuid; email : string; role : app_role }.
End Profile.

Module Project.
Record row := mk
  { id : uuid; org_id : uuid; name : string; key : string }.
End Project.

Module Sprint.
Record row := mk
  { id : uuid; project_id : uuid; name : string; created_by : uuid }.
End Sprint.

Module Issue.
Record row := mk
  { id : uuid; project_id : uuid; issue_key : string; title : string;
    reporter_id : uuid; assignee_ids : list uuid }.
End Issue.

Module Board.
Record row := mk
  { id : uuid; project_id : uuid; name : string }.
End Board.

Module Invite.
Record row := mk
  { id : uuid; org_id : uuid; email : string; role : app_role;
    token : string; expires_at : timestamptz; created_by : uuid;
    accepted_at : option timestamptz; accepted_by : option uuid }.
End Invite.

Module Deployment.
Record row := mk
  { id : uuid; issue_id : option uuid; project_id : uuid;
    branch_name : string }.
End Deployment.

(** The database: the rows of every table, in storage order. *)
Record db := mkdb
  { organizations : list Organization.row;
    profiles : list Profile.row;
    user_roles : list UserRole.row;
    projects : list Project.row;
    sprints : list Sprint.row;
    issues : list Issue.row;
    boards : list Board.row;
    invites : list Invite.row;
    deployments : list Deployment.row }.

Definition empty_db : db := mkdb [] [] [] [] [] [] [] [] [].

(** [DEFAULT gen_random_uuid()]: an identifier not in use, here the first
    number above the ids of the table. *)
Definition fresh_id (ids : list uuid) : uuid := (1 + fold_right N.max 0 ids)%N.

(** [x IN (subquery)] over non-null identifiers. *)
Definition uuid_in (x : uuid) (l : list uuid) : bool := existsb (N.eqb x) l.

(** ** Security-definer functions and the policies without sub-selects

    [uid] is [auth.uid()], the user of the session.  The two functions are
    [SECURITY DEFINER]: they run as their owner and read [user_roles]
    whole, whoever calls them.  The policies of this module call those
    functions or compare columns with [auth.uid()]; they read no table
    themselves.  Where the later migration drops and recreates a policy
    (projects and issues), the recreated one is the policy in force. *)

Module Policies.

(** [has_role]: [SELECT EXISTS (SELECT 1 FROM user_roles WHERE ...)]. *)
Definition has_role (d : db) (_user_id _org_id : uuid) (_role : app_role) : bool :=
  existsb (fun ur =>
             (UserRole.user_id ur =? _user_id)%N
             && (UserRole.org_id ur =? _org_id)%N
             && app_role_eqb (UserRole.role ur) _role)
          (user_roles d).

(** [get_user_role]: [SELECT role FROM user_roles WHERE ... LIMIT 1];
    no row gives SQL [NULL]. *)
Definition get_user_role (d : db) (_user_id _org_id : uuid) : option app_role :=
  match filter (fun ur => (UserRole.user_id ur =? _user_id)%N
                          && (UserRole.org_id ur =? _org_id)%N)
               (user_roles d) with
  | ur :: _ => Some (UserRole.role ur)
  | [] => None
  end.

(** [pr.org_id = p.org_id] with a nullable left side: unknown is not true. *)
Definition null_eq (a : option uuid) (b : uuid) : bool :=
  match a with
  | Some x => (x =? b)%N
  | None => false
  end.

(** "Users can update their own profile". *)
Definition profiles_update (uid : uuid) (r : Profile.row) : bool :=
  (Profile.id r =? uid)%N.

(** "Owners and admins can insert roles". *)
Definition user_roles_insert (d : db) (uid : uuid) (r : UserRole.row) : bool :=
  has_role d uid (UserRole.org_id r) owner || has_role d uid (UserRole.org_id r) admin.

(** "Owners and admins can create invites". *)
Definition invites_insert (d : db) (uid : uuid) (r : Invite.row) : bool :=
  has_role d uid (Invite.org_id r) owner
  || has_role d uid (Invite.org_id r) admin
  || has_role d uid (Invite.org_id r) manager.

(** "Managers and above can create projects" (recreated in step 8). *)
Definition projects_insert (d : db) (uid : uuid) (r : Project.row) : bool :=
  has_role d uid (Project.org_id r) owner
  || has_role d uid (Project.org_id r) admin
  || has_role d uid (Project.org_id r) manager.

(** "Contributors can update issues". *)
Definition issues_update (uid : uuid) (r : Issue.row) : bool :=
  (Issue.reporter_id r =? uid)%N || uuid_in uid (Issue.assignee_ids r).

(** A membership of the user in the organization, as [user_roles] records
    it. *)
Definition member (d : db) (uid org : uuid) : Prop :=
  exists ur, In ur (user_roles d)
             /\ UserRole.user_id ur = uid /\ UserRole.org_id ur = org.

End Policies.

(** ** Statements of a session under row-level security

    A statement of the client runs as the signed-in user, who neither owns
    the tables nor bypasses row-level security.  Before PostgreSQL reads a
    row it adds the policies of every relation the statement names to the
    statement, and does the same, for the same user, in the sub-selects of
    those policies.  It keeps the relations whose policies it is expanding
    ([active] below); when a relation whose policies hold a sub-select
    comes up while it is in that list, the statement ends with SQLSTATE
    42P17, "infinite recursion detected in policy for relation".  That is
    decided from the policies alone, before any row is looked at.

    [from_t active] is [FROM t] for the session: the rows of [t] that pass
    the SELECT policy of [t], each sub-select of the policy being such a
    [FROM] itself.  Every SELECT policy of the two migrations holds a
    sub-select. *)

Module Rel.

Inductive relation :=
| organizations | profiles | user_roles | projects | sprints | issues | boards
| invites | deployments.

End Rel.

Module Session.
Import Policies.

Definition relation_eqb (a b : Rel.relation) : bool :=
  match a, b with
  | Rel.organizations, Rel.organizations | Rel.profiles, Rel.profiles
  | Rel.user_roles, Rel.user_roles | Rel.projects, Rel.projects
  | Rel.sprints, Rel.sprints | Rel.issues, Rel.issues | Rel.boards, Rel.boards
  | Rel.invites, Rel.invites | Rel.deployments, Rel.deployments => true
  | _, _ => false
  end.

(** The relation is one of those whose policies are being expanded. *)
Definition expanding (r : Rel.relation) (active : list Rel.relation) : bool :=
  existsb (relation_eqb r) active.

(** The nine relations: an expansion that meets no relation twice is not
    deeper. *)
Definition depth : nat := 9.

Section Session.
Variable d : db.
Variable uid : uuid.

(** [SELECT org_id FROM user_roles WHERE user_id = auth.uid()], over the
    rows that [FROM user_roles] gives. *)
Definition role_orgs (roles : list UserRole.row) : list uuid :=
  map UserRole.org_id (filter (fun ur => (UserRole.user_id ur =? uid)%N) roles).

(** [SELECT p.id FROM projects p JOIN user_roles ur ON ur.org_id = p.org_id
    WHERE ur.user_id = auth.uid()]. *)
Definition role_projects (ps : list Project.row) (roles : list UserRole.row)
  : list uuid :=
  flat_map (fun p =>
              map (fun _ => Project.id p)
                  (filter (fun ur => (UserRole.org_id ur =? Project.org_id p)%N
                                     && (UserRole.user_id ur =? uid)%N)
                          roles))
           ps.

(** [SELECT p.id FROM projects p INNER JOIN profiles pr
    ON pr.org_id = p.org_id WHERE pr.id = auth.uid()]. *)
Definition profile_projects (ps : list Project.row) (prs : list Profile.row)
  : list uuid :=
  flat_map (fun p =>
              map (fun _ => Project.id p)
                  (filter (fun pr => null_eq (Profile.org_id pr) (Project.org_id p)
                                     && (Profile.id pr =? uid)%N)
                          prs))
           ps.

(** "Users can view roles in their orgs": [org_id IN (SELECT org_id FROM
    public.user_roles WHERE user_id = auth.uid())].  The sub-select names
    the relation of the policy itself.  [fuel] bounds the nesting; with
    one unit or more the last case is not reached. *)
Fixpoint from_user_roles (fuel : nat) (active : list Rel.relation)
  : result (list UserRole.row) :=
  if expanding Rel.user_roles active then Err invalid_object_definition
  else
    match fuel with
    | S fuel' =>
        inner <- from_user_roles fuel' (Rel.user_roles :: active) ;;
        OK (filter (fun r => uuid_in (UserRole.org_id r) (role_orgs inner))
                   (user_roles d))
    | O => OK []
    end.

(** "Users can view profiles in their organization": [org_id IN (SELECT
    org_id FROM profiles WHERE id = auth.uid())], never true for a row
    whose [org_id] is null.  The sub-select names [profiles] again. *)
Fixpoint from_profiles (fuel : nat) (active : list Rel.relation)
  : result (list Profile.row) :=
  if expanding Rel.profiles active then Err invalid_object_definition
  else
    match fuel with
    | S fuel' =>
        inner <- from_profiles fuel' (Rel.profiles :: active) ;;
        OK (filter (fun r =>
                      match Profile.org_id r with
                      | None => false
                      | Some o =>
                          existsb (fun pr => (Profile.id pr =? uid)%N
                                             && null_eq (Profile.org_id pr) o)
                                  inner
                      end)
                   (profiles d))
    | O => OK []
    end.

(** "Users can view their own organization": [auth.uid() = owner_user_id
    OR auth.uid() IN (SELECT id FROM profiles WHERE org_id =
    organizations.id)]. *)
Definition from_organizations (active : list Rel.relation)
  : result (list Organization.row) :=
  if expanding Rel.organizations active then Err invalid_object_definition
  else
    prs <- from_profiles depth (Rel.organizations :: active) ;;
    OK (filter (fun r =>
                  (uid =? Organization.owner_user_id r)%N
                  || uuid_in uid
                       (map Profile.id
                            (filter (fun pr => null_eq (Profile.org_id pr)
                                                       (Organization.id r))
                                    prs)))
               (organizations d)).

(** "Users can view projects in their organization" (recreated in step
    8): [org_id IN (SELECT org_id FROM public.user_roles WHERE user_id =
    auth.uid())]. *)
Definition from_projects (active : list Rel.relation) : result (list Project.row) :=
  if expanding Rel.projects active then Err invalid_object_definition
  else
    roles <- from_user_roles depth (Rel.projects :: active) ;;
    OK (filter (fun r => uuid_in (Project.org_id r) (role_orgs roles)) (projects d)).

(** "Users can view invites in their orgs". *)
Definition from_invites (active : list Rel.relation) : result (list Invite.row) :=
  if expanding Rel.invites active then Err invalid_object_definition
  else
    roles <- from_user_roles depth (Rel.invites :: active) ;;
    OK (filter (fun r => uuid_in (Invite.org_id r) (role_orgs roles)) (invites d)).

(** "Users can view issues in their organization" (recreated in step 9):
    [project_id IN (SELECT p.id FROM projects p JOIN user_roles ur ...)]. *)
Definition from_issues (active : list Rel.relation) : result (list Issue.row) :=
  if expanding Rel.issues active then Err invalid_object_definition
  else
    ps <- from_projects (Rel.issues :: active) ;;
    roles <- from_user_roles depth (Rel.issues :: active) ;;
    OK (filter (fun r => uuid_in (Issue.project_id r) (role_projects ps roles))
               (issues d)).

(** "Users can view deployments in their org projects". *)
Definition from_deployments (active : list Rel.relation)
  : result (list Deployment.row) :=
  if expanding Rel.deployments active then Err invalid_object_definition
  else
    ps <- from_projects (Rel.deployments :: active) ;;
    roles <- from_user_roles depth (Rel.deployments :: active) ;;
    OK (filter (fun r => uuid_in (Deployment.project_id r) (role_projects ps roles))
               (deployments d)).

(** "Users can view sprints in their organization": the policy of the
    first migration, which joins [profiles]; the later migration did not
    recreate it. *)
Definition from_sprints (active : list Rel.relation) : result (list Sprint.row) :=
  if expanding Rel.sprints active then Err invalid_object_definition
  else
    ps <- from_projects (Rel.sprints :: active) ;;
    prs <- from_profiles depth (Rel.sprints :: active) ;;
    OK (filter (fun r => uuid_in (Sprint.project_id r) (profile_projects ps prs))
               (sprints d)).

(** "Users can view boards in their organization": as for sprints. *)
Definition from_boards (active : list Rel.relation) : result (list Board.row) :=
  if expanding Rel.boards active then Err invalid_object_definition
  else
    ps <- from_projects (Rel.boards :: active) ;;
    prs <- from_profiles depth (Rel.boards :: active) ;;
    OK (filter (fun r => uuid_in (Board.project_id r) (profile_projects ps prs))
               (boards d)).

(** "Contributors can create issues" (recreated in step 9), the WITH
    CHECK of an INSERT into [issues]: [reporter_id = auth.uid() AND
    project_id IN (SELECT p.id FROM projects p JOIN user_roles ur ...)]. *)
Definition issues_insert_check (r : Issue.row) : result bool :=
  ps <- from_projects [Rel.issues] ;;
  roles <- from_user_roles depth [Rel.issues] ;;
  OK ((Issue.reporter_id r =? uid)%N
      && uuid_in (Issue.project_id r) (role_projects ps roles)).

End Session.

End Session.

(** ** The engine: statements under PRIMARY KEY and UNIQUE constraints

    A statement either succeeds with a new database or fails with an error
    and no effect.  Foreign keys, [NOT NULL] (carried by the row types) and
    [CHECK] constraints are not part of this model. *)

Definition pair_eqb {A B} (fa : A -> A -> bool) (fb : B -> B -> bool)
  (x y : A * B) : bool :=
  fa (fst x) (fst y) && fb (snd x) (snd y).

Module Engine.

Section Table.
Context {row K : Type}.
(** The primary key column, the columns of the table's [UNIQUE]
    constraint, and equality on those. *)
Variable pk : row -> uuid.
Variable ukey : row -> K.
Variable K_eqb : K -> K -> bool.
(** The names under which PostgreSQL reports the two constraints. *)
Variable pk_name ukey_name : string.

Definition pk_taken (rows : list row) (r : row) : bool :=
  existsb (fun x => (pk x =? pk r)%N) rows.

Definition ukey_taken (rows : list row) (r : row) : bool :=
  existsb (fun x => K_eqb (ukey x) (ukey r)) rows.

(** [INSERT INTO t VALUES (r)]. *)
Definition insert_row (rows : list row) (r : row) : result (list row) :=
  if pk_taken rows r then Err (unique_violation pk_name)
  else if ukey_taken rows r then Err (unique_violation ukey_name)
  else OK (rows ++ [r]).

(** The table with [r'] in the place of the row whose primary key is [x]. *)
Definition rewrite_row (x : uuid) (r' : row) (rows : list row) : list row :=
  map (fun y => if (pk y =? x)%N then r' else y) rows.

(** [UPDATE t SET ... WHERE id = x]: the new version [f r] of the row
    is checked against every other row. *)
Definition update_row (rows : list row) (x : uuid) (f : row -> row)
  : result (list row) :=
  match find (fun r => (pk r =? x)%N) rows with
  | None => OK rows
  | Some r =>
      let others := filter (fun y => negb (pk y =? x)%N) rows in
      if pk_taken others (f r) then Err (unique_violation pk_name)
      else if ukey_taken others (f r) then Err (unique_violation ukey_name)
      else OK (rewrite_row x (f r) rows)
  end.

(** [DELETE FROM t WHERE id = x]. *)
Definition delete_row (rows : list row) (x : uuid) : list row :=
  filter (fun y => negb (pk y =? x)%N) rows.

End Table.

(** The three tables of the uniqueness invariants, with their keys:
    [UNIQUE(user_id, org_id)], [UNIQUE(org_id, key)] and
    [UNIQUE(project_id, issue_key)]. *)
Definition user_roles_key (r : UserRole.row) : uuid * uuid :=
  (UserRole.user_id r, UserRole.org_id r).
Definition projects_key (r : Project.row) : uuid * string :=
  (Project.org_id r, Project.key r).
Definition issues_key (r : Issue.row) : uuid * string :=
  (Issue.project_id r, Issue.issue_key r).

Definition set_user_roles (d : db) (l : list UserRole.row) : db :=
  mkdb (organizations d) (profiles d) l (projects d) (sprints d) (issues d)
       (boards d) (invites d) (deployments d).
Definition set_projects (d : db) (l : list Project.row) : db :=
  mkdb (organizations d) (profiles d) (user_roles d) l (sprints d) (issues d)
       (boards d) (invites d) (deployments d).
Definition set_issues (d : db) (l : list Issue.row) : db :=
  mkdb (organizations d) (profiles d) (user_roles d) (projects d) (sprints d) l
       (boards d) (invites d) (deployments d).
Definition set_profiles (d : db) (l : list Profile.row) : db :=
  mkdb (organizations d) l (user_roles d) (projects d) (sprints d) (issues d)
       (boards d) (invites d) (deployments d).
Definition set_invites (d : db) (l : list Invite.row) : db :=
  mkdb (organizations d) (profiles d) (user_roles d) (projects d) (sprints d)
       (issues d) (boards d) l (deployments d).

Definition on_table {A} (r : result (list A)) (set : list A -> db) : result db :=
  match r with
  | OK l => OK (set l)
  | Err e => Err e
  end.

Definition insert_user_role (d : db) (r : UserRole.row) : result db :=
  on_table (insert_row UserRole.id user_roles_key (pair_eqb N.eqb N.eqb)
              "user_roles_pkey" "user_roles_user_id_org_id_key" (user_roles d) r)
           (set_user_roles d).

Definition update_user_role (d : db) (x : uuid) (f : UserRole.row -> UserRole.row)
  : result db :=
  on_table (update_row UserRole.id user_roles_key (pair_eqb N.eqb N.eqb)
              "user_roles_pkey" "user_roles_user_id_org_id_key" (user_roles d) x f)
           (set_user_roles d).

Definition insert_project (d : db) (r : Project.row) : result db :=
  on_table (insert_row Project.id projects_key (pair_eqb N.eqb String.eqb)
              "projects_pkey" "projects_org_id_key_key" (projects d) r)
           (set_projects d).

Definition update_project (d : db) (x : uuid) (f : Project.row -> Project.row)
  : result db :=
  on_table (update_row Project.id projects_key (pair_eqb N.eqb String.eqb)
              "projects_pkey" "projects_org_id_key_key" (projects d) x f)
           (set_projects d).

Definition insert_issue (d : db) (r : Issue.row) : result db :=
  on_table (insert_row Issue.id issues_key (pair_eqb N.eqb String.eqb)
              "issues_pkey" "issues_project_id_issue_key_key" (issues d) r)
           (set_issues d).

Definition update_issue (d : db) (x : uuid) (f : Issue.row -> Issue.row)
  : result db :=
  on_table (update_row Issue.id issues_key (pair_eqb N.eqb String.eqb)
              "issues_pkey" "issues_project_id_issue_key_key" (issues d) x f)
           (set_issues d).

(** The issues for which [gone] holds are deleted; [deployments.issue_id
    REFERENCES issues(id) ON DELETE SET NULL]. *)
Definition delete_issues (d : db) (gone : Issue.row -> bool) : db :=
  mkdb (organizations d) (profiles d) (user_roles d) (projects d) (sprints d)
       (filter (fun i => negb (gone i)) (issues d))
       (boards d) (invites d)
       (map (fun r =>
               match Deployment.issue_id r with
               | Some i =>
                   if existsb (fun j => gone j && (Issue.id j =? i)%N) (issues d)
                   then Deployment.mk (Deployment.id r) None
                                      (Deployment.project_id r)
                                      (Deployment.branch_name r)
                   else r
               | None => r
               end)
            (deployments d)).

(** [DELETE FROM projects WHERE id = x]: [project_id ... REFERENCES
    projects(id) ON DELETE CASCADE] on [sprints], [issues], [boards] and
    [deployments]. *)
Definition delete_project (d : db) (x : uuid) : db :=
  let d1 := delete_issues d (fun i => (Issue.project_id i =? x)%N) in
  mkdb (organizations d1) (profiles d1) (user_roles d1)
       (delete_row Project.id (projects d1) x)
       (filter (fun s => negb (Sprint.project_id s =? x)%N) (sprints d1))
       (issues d1)
       (filter (fun b => negb (Board.project_id b =? x)%N) (boards d1))
       (invites d1)
       (filter (fun r => negb (Deployment.project_id r =? x)%N) (deployments d1)).

(** Step 7 of the later migration: [INSERT INTO user_roles (user_id,
    org_id, role, created_at) SELECT p.id, p.org_id, p.role, p.created_at
    FROM profiles p WHERE p.org_id IS NOT NULL ON CONFLICT (user_id, org_id)
    DO NOTHING].  A profile whose pair is already there is passed over. *)
Fixpoint migrate_profile_roles (rows : list UserRole.row) (ps : list Profile.row)
  : list UserRole.row :=
  match ps with
  | [] => rows
  | p :: rest =>
      match Profile.org_id p with
      | None => migrate_profile_roles rows rest
      | Some o =>
          let r := UserRole.mk (fresh_id (map UserRole.id rows))
                               (Profile.id p) o (Profile.role p) in
          if ukey_taken user_roles_key (pair_eqb N.eqb N.eqb) rows r
          then migrate_profile_roles rows rest
          else migrate_profile_roles (rows ++ [r]) rest
      end
  end.

(** Any change to the six tables that carry none of the three
    constraints: they become those of [d']. *)
Definition write_elsewhere (d d' : db) : db :=
  mkdb (organizations d') (profiles d') (user_roles d) (projects d) (sprints d')
       (issues d) (boards d') (invites d') (deployments d').

Inductive statement :=
| InsertUserRole (r : UserRole.row)
| UpdateUserRole (x : uuid) (f : UserRole.row -> UserRole.row)
| DeleteUserRole (x : uuid)
| InsertProject (r : Project.row)
| UpdateProject (x : uuid) (f : Project.row -> Project.row)
| DeleteProject (x : uuid)
| InsertIssue (r : Issue.row)
| UpdateIssue (x : uuid) (f : Issue.row -> Issue.row)
| DeleteIssue (x : uuid)
| MigrateProfileRoles
| WriteElsewhere (d' : db).

Definition exec (s : statement) (d : db) : result db :=
  match s with
  | InsertUserRole r => insert_user_role d r
  | UpdateUserRole x f => update_user_role d x f
  | DeleteUserRole x => OK (set_user_roles d (delete_row UserRole.id (user_roles d) x))
  | InsertProject r => insert_project d r
  | UpdateProject x f => update_project d x f
  | DeleteProject x => OK (delete_project d x)
  | InsertIssue r => insert_issue d r
  | UpdateIssue x f => update_issue d x f
  | DeleteIssue x => OK (delete_issues d (fun i => (Issue.id i =? x)%N))
  | MigrateProfileRoles =>
      OK (set_user_roles d (migrate_profile_roles (user_roles d) (profiles d)))
  | WriteElsewhere d' => OK (write_elsewhere d d')
  end.

(** An insert proposes a row whose UNIQUE columns are those of a stored
    row; an update gives the row it rewrites the UNIQUE columns of
    another stored row. *)
Definition insert_conflict {row K} (key : row -> K) (rows : list row) (r : row) : Prop :=
  exists y, In y rows /\ key y = key r.

Definition update_conflict {row K} (pk : row -> uuid) (key : row -> K)
  (rows : list row) (x : uuid) (f : row -> row) : Prop :=
  exists r y, find (fun r => (pk r =? x)%N) rows = Some r
              /\ In y rows /\ pk y <> x /\ key y = key (f r).

Definition would_violate (s : statement) (d : db) : Prop :=
  match s with
  | InsertUserRole r => insert_conflict user_roles_key (user_roles d) r
  | UpdateUserRole x f => update_conflict UserRole.id user_roles_key (user_roles d) x f
  | InsertProject r => insert_conflict projects_key (projects d) r
  | UpdateProject x f => update_conflict Project.id projects_key (projects d) x f
  | InsertIssue r => insert_conflict issues_key (issues d) r
  | UpdateIssue x f => update_conflict Issue.id issues_key (issues d) x f
  | DeleteUserRole _ | DeleteProject _ | DeleteIssue _
  | MigrateProfileRoles | WriteElsewhere _ => False
  end.

(** The database after a statement: a failed statement has no effect. *)
Definition after (s : statement) (d : db) : db :=
  match exec s d with
  | OK d' => d'
  | Err _ => d
  end.

(** The states the schema can be in: the empty tables that the
    migrations create, then any sequence of statements. *)
Inductive reachable : db -> Prop :=
| reachable_empty : reachable empty_db
| reachable_step d s : reachable d -> reachable (after s d).

(** The invariants of the data model. *)
Definition unique_on {row K} (key : row -> K) (rows : list row) : Prop :=
  NoDup (map key rows).

Record unique_keys (d : db) : Prop := mk_unique_keys
  { user_roles_pkey : unique_on UserRole.id (user_roles d);
    user_roles_unique : unique_on user_roles_key (user_roles d);
    projects_pkey : unique_on Project.id (projects d);
    projects_unique : unique_on projects_key (projects d);
    issues_pkey : unique_on Issue.id (issues d);
    issues_unique : unique_on issues_key (issues d) }.

End Engine.

(** ** PostgreSQL [integer]: text input, addition, the MAX aggregate *)

Module Pg.
Import Text.

Definition int4_max : Z := 2147483647.
Definition int4_min : Z := -2147483648.

(** C [isspace] in the "C" locale. *)
Definition isspace (c : ascii) : bool := between 9 13 c || (code c =? 32)%N.

Definition digit_value (c : ascii) : Z := Z.of_N (code c) - 48.

Fixpoint skip_spaces (s : string) : string :=
  match s with
  | EmptyString => EmptyString
  | String c r => if isspace c then skip_spaces r else s
  end.

(** The digits at the front of [s], read into [acc], and what follows
    them. *)
Fixpoint read_digits (acc : Z) (s : string) : Z * string :=
  match s with
  | EmptyString => (acc, EmptyString)
  | String c r =>
      if is_digit c then read_digits (10 * acc + digit_value c) r else (acc, s)
  end.

(** The part of the input routine behind the sign: at least one decimal
    digit, then optional white space up to the end.  A magnitude beyond
    2^31 is out of range as soon as it is read; 2^31 itself is in range
    with a minus sign only. *)
Definition digits_to_end (neg : bool) (s : string) : result Z :=
  match s with
  | EmptyString => Err invalid_text_representation
  | String c _ =>
      if is_digit c then
        let '(n, rest) := read_digits 0 s in
        if - int4_min <? n then Err numeric_value_out_of_range
        else match skip_spaces rest with
             | String _ _ => Err invalid_text_representation
             | EmptyString =>
                 if neg then OK (- n)
                 else if n =? - int4_min then Err numeric_value_out_of_range
                 else OK n
             end
      else Err invalid_text_representation
  end.

(** [CAST(text AS INTEGER)], the input routine of [integer] as PostgreSQL
    13 to 15 have it: optional white space, an optional sign, then decimal
    digits.  From version 16 on the routine reads further spellings ([0x],
    [0o] and [0b] prefixes, underscores between digits); a text that this
    function reads is read to the same number by every version, and a text
    without any digit is refused by every version. *)
Definition int4in (s : string) : result Z :=
  match skip_spaces s with
  | String "-" r => digits_to_end true r
  | String "+" r => digits_to_end false r
  | s1 => digits_to_end false s1
  end.

(** [integer + integer]. *)
Definition int4pl (a b : Z) : result Z :=
  if (int4_min <=? a + b) && (a + b <=? int4_max) then OK (a + b)
  else Err numeric_value_out_of_range.

(** The [MAX] aggregate: its state starts as [NULL] and takes the larger
    value at every row. *)
Definition max_step (state : option Z) (n : Z) : option Z :=
  match state with
  | None => Some n
  | Some m => Some (Z.max m n)
  end.

Definition sql_max (ns : list Z) : option Z := fold_left max_step ns None.

Definition coalesce (a : option Z) (b : Z) : Z :=
  match a with
  | Some x => x
  | None => b
  end.

End Pg.

(** ** The stored function [generate_issue_key] *)

Module Functions.
Import Text Pg.

(** [CAST(SUBSTRING(issue_key FROM LENGTH(v_project_key) + 2) AS INTEGER)]. *)
Definition numeric_suffix (v_project_key issue_key : string) : result Z :=
  int4in (substring_from (String.length v_project_key + 2) issue_key).

(** The expression under [MAX], evaluated at every row of the scan; the
    first failing cast aborts the statement. *)
Fixpoint suffixes (v_project_key : string) (rows : list Issue.row) : result (list Z) :=
  match rows with
  | [] => OK []
  | i :: rest =>
      n <- numeric_suffix v_project_key (Issue.issue_key i) ;;
      ns <- suffixes v_project_key rest ;;
      OK (n :: ns)
  end.

(** [... FROM issues WHERE project_id = p_project_id]. *)
Definition issues_of (d : db) (p_project_id : uuid) : list Issue.row :=
  filter (fun i => (Issue.project_id i =? p_project_id)%N) (issues d).

Definition generate_issue_key (d : db) (p_project_id : uuid) : result string :=
  match find (fun p => (Project.id p =? p_project_id)%N) (projects d) with
  | None => Err (raise_exception "Project not found")
  | Some p =>
      let v_project_key := Project.key p in
      ns <- suffixes v_project_key (issues_of d p_project_id) ;;
      v_next_number <- int4pl (coalesce (sql_max ns) 0) 1 ;;
      OK (v_project_key ++ "-" ++ decimal v_next_number)%string
  end.

(** The maximum numeric suffix of the specification: the greatest
    element of [ns], and 0 when there is none. *)
Definition greatest_or_zero (ns : list Z) (m : Z) : Prop :=
  (ns = [] /\ m = 0) \/ (In m ns /\ Forall (fun n => n <= m) ns).

(** The same, for the numbers [num i] of the issues of one project: [m]
    is the greatest of them, and 0 when the project has no issue. *)
Definition max_suffix (d : db) (p_project_id : uuid) (num : Issue.row -> Z) (m : Z)
  : Prop :=
  ((forall i, In i (issues d) -> Issue.project_id i <> p_project_id) /\ m = 0)
  \/ ((exists i, In i (issues d) /\ Issue.project_id i = p_project_id /\ num i = m)
      /\ forall i, In i (issues d) -> Issue.project_id i = p_project_id -> num i <= m).

(** The keys KEY-1 to KEY-n, as either generator writes them. *)
Definition sequential_keys (key : string) (n : nat) : list string :=
  map (fun i => (key ++ "-" ++ decimal (Z.of_nat i))%string) (seq 1 n).

End Functions.

(** ** What the client reads and writes through the REST interface

    Every call of the client is one statement in the session of the
    signed-in user [uid]. *)

Module Api.
Import Policies.

(** [from('projects').select('id, name, key')]; the [order('name')] of
    the callers is left out, the rows are only ever looked up by id. *)
Definition select_projects (d : db) (uid : uuid) : result (list Project.row) :=
  Session.from_projects d uid [].

(** [from('issues').select('*', {count: 'exact', head: true})
    .eq('project_id', projectId)]: the [count] of the response, which is
    [null] when the statement failed. *)
Definition count_issues (d : db) (uid : uuid) (projectId : uuid) : option Z :=
  match Session.from_issues d uid [] with
  | OK rows =>
      Some (Z.of_nat (List.length
              (filter (fun i => (Issue.project_id i =? projectId)%N) rows)))
  | Err _ => None
  end.

(** [.is(column, null)]. *)
Definition is_null {A} (a : option A) : bool :=
  match a with
  | None => true
  | Some _ => false
  end.

(** [from('invites').select('*, organizations(name)').eq('token', token)
    .is('accepted_at', null).single()]: one statement over [invites] and
    [organizations]; the one matching row with the name of its
    organization ([null] when that row is not shown), or an error when the
    rows are none or several. *)
Definition select_pending_invite (d : db) (uid : uuid) (token : string)
  : result (Invite.row * option string) :=
  rows <- Session.from_invites d uid [] ;;
  orgs <- Session.from_organizations d uid [] ;;
  match filter (fun iv => String.eqb (Invite.token iv) token
                          && is_null (Invite.accepted_at iv))
               rows with
  | [iv] =>
      OK (iv, option_map Organization.name
                (find (fun o => (Organization.id o =? Invite.org_id iv)%N) orgs))
  | _ => Err not_a_single_row
  end.

(** The three writes of the invitation flow, as the backend offers them
    to a session. *)
Record mutations := mk_mutations
  { (** [from('profiles').update({org_id}).eq('id', user_id)] *)
    update_profile_org : uuid -> uuid -> db -> result db;
    (** [from('user_roles').insert({user_id, org_id, role})] *)
    insert_user_role : uuid -> uuid -> app_role -> db -> result db;
    (** [from('invites').update({accepted_at, accepted_by}).eq('id', id)] *)
    mark_invite_accepted : uuid -> timestamptz -> uuid -> db -> result db }.

(** The writes under the policies of the migrations, for the session of
    [uid].  An UPDATE whose WHERE clause reads a column is held to the
    SELECT policies of the table as well as to its UPDATE policies: it
    reaches the rows that pass both, and no row of a table without UPDATE
    policy ([invites]).  An INSERT that returns nothing needs its new row
    to pass the INSERT policy and the table's constraints.  The theorems
    about [acceptInvite] hold for every [mutations]; this one serves to run
    it. *)
Definition policy_mutations (uid : uuid) : mutations :=
  {| update_profile_org := fun user_id org d =>
       shown <- Session.from_profiles d uid Session.depth [] ;;
       OK (Engine.set_profiles d
             (map (fun pr => if existsb (fun v => (Profile.id v =? Profile.id pr)%N) shown
                                && profiles_update uid pr
                                && (Profile.id pr =? user_id)%N
                             then Profile.mk (Profile.id pr) (Some org)
                                             (Profile.email pr) (Profile.role pr)
                             else pr)
                  (profiles d)));
     insert_user_role := fun user_id org role d =>
       let r := UserRole.mk (fresh_id (map UserRole.id (user_roles d))) user_id org role in
       if user_roles_insert d uid r then Engine.insert_user_role d r
       else Err (rls_violation "user_roles");
     mark_invite_accepted := fun _ _ _ d =>
       _ <- Session.from_invites d uid [] ;; OK d |}.

(** A row object as the invite dialog sends it: the columns it sets. *)
Record new_invite := mk_new_invite
  { org_id : uuid; email : string; role : app_role; token : string;
    expires_at : timestamptz; created_by : uuid }.

(** The row as stored: [id] by default, [accepted_at] and [accepted_by]
    null. *)
Definition stored (id : uuid) (n : new_invite) : Invite.row :=
  Invite.mk id (org_id n) (email n) (role n) (token n) (expires_at n) (created_by n)
            None None.

(** [from('invites').insert(rows)]: every row has to pass the INSERT
    policy and [token TEXT NOT NULL UNIQUE]; all rows are stored or none. *)
Fixpoint insert_invites (d : db) (uid : uuid) (rows : list new_invite) : result db :=
  match rows with
  | [] => OK d
  | n :: rest =>
      let r := stored (fresh_id (map Invite.id (invites d))) n in
      if negb (invites_insert d uid r) then Err (rls_violation "invites")
      else if existsb (fun iv => String.eqb (Invite.token iv) (token n)) (invites d)
      then Err (unique_violation "invites_token_key")
      else insert_invites (Engine.set_invites d (invites d ++ [r])) uid rest
  end.

End Api.

(** ** The AcceptInvite page *)

Module AcceptInvite.
Import Text.

Inductive status := loading | success | error | expired.

(** The signed-in user of [useAuth()]; [email] is optional in its type. *)
Record auth_user := mk_user { id : uuid; email : option string }.

(** The component state that [acceptInvite] sets. *)
Record view := mk_view { shown : status; shown_message : message; orgName : string }.

Definition initial_view : view := mk_view loading (text "") "".

(** [invite.email.toLowerCase() !== user.email?.toLowerCase()]. *)
Definition email_differs (invite_email : string) (user_email : option string) : bool :=
  match user_email with
  | None => true
  | Some e => negb (String.eqb (toLowerCase invite_email) (toLowerCase e))
  end.

Section AcceptInvite.
Variable backend : Api.mutations.

(** [acceptInvite]: [token] is [searchParams.get('token')], [now] the clock
    at the expiry check and [later] the clock when the invite is marked.
    The result is the database and the component state when the function
    returns; the redirect after two seconds is not part of it. *)
Definition acceptInvite (d : db) (user : option auth_user) (token : option string)
  (now later : timestamptz) : db * view :=
  match token, user with
  | Some tok, Some u =>
      if is_empty tok then (d, mk_view error (text "Invalid invitation link") "")
      else
        match Api.select_pending_invite d (id u) tok with
        | Err _ =>
            (d, mk_view error (text "Invitation not found or already accepted") "")
        | OK (invite, organization) =>
            if Invite.expires_at invite <? now
            then (d, mk_view expired (text "This invitation has expired") "")
            else if email_differs (Invite.email invite) (email u)
            then (d, mk_view error
                       (text "This invitation was sent to a different email address") "")
            else
              match Api.update_profile_org backend (id u) (Invite.org_id invite) d with
              | Err profileError => (d, mk_view error (message_or profileError "Failed to accept invitation") "")
              | OK d1 =>
                  match Api.insert_user_role backend (id u) (Invite.org_id invite)
                          (Invite.role invite) d1 with
                  | Err roleError => (d1, mk_view error (message_or roleError "Failed to accept invitation") "")
                  | OK d2 =>
                      match Api.mark_invite_accepted backend (Invite.id invite)
                              later (id u) d2 with
                      | Err updateError => (d2, mk_view error (message_or updateError "Failed to accept invitation") "")
                      | OK d3 =>
                          match organization with
                          | None => (d3, mk_view error type_error_message "")
                          | Some name =>
                              (d3, mk_view success
                                     (text ("You've successfully joined " ++ name ++ "!"))
                                     name)
                          end
                      end
                  end
              end
        end
  | _, _ => (d, mk_view error (text "Invalid invitation link") "")
  end.

End AcceptInvite.

End AcceptInvite.

(** ** CreateIssueDialog: the client-side key generator *)

Module CreateIssueDialog.
Import Text.

(** [count || 0]: [null] and [0] both give [0]. *)
Definition or_zero (count : option Z) : Z :=
  match count with
  | Some n => n
  | None => 0
  end.

(** [generateIssueKey]: [projects] is the component state filled by
    [loadProjects], [count] the [count] of the answer to the query over
    [issues], which is only sent when the project is in the list; the
    result [None] is the JavaScript [null]. *)
Definition generateIssueKey (projects : list Project.row) (count : option Z)
  (projectId : uuid) : option string :=
  match find (fun p => (Project.id p =? projectId)%N) projects with
  | None => None
  | Some project =>
      Some (Project.key project ++ "-" ++ decimal (or_zero count + 1))%string
  end.

(** The agreement that the specification expects between the two
    generators: both produce a key, and the same one. *)
Definition keys_agree (projects : list Project.row) (count : option Z) (d : db)
  (projectId : uuid) : Prop :=
  exists k, generateIssueKey projects count projectId = Some k
            /\ Functions.generate_issue_key d projectId = OK k.

(** [loadProjects]: the rows are kept when the query succeeds, and the
    first of them becomes the selection when there is none; [rows] tells
    whether the answer holds a row, [projectId] whether a project is
    selected. *)
Definition loadProjects (user : bool) (error : response) (rows projectId : bool)
  : list ui_effect :=
  if negb user then []
  else match error with
       | None =>
           [set_state "projects"]
           ++ (if rows && negb projectId then [set_state "projectId"] else [])
       | Some _ => []
       end.

(** The [projects] state once [loadProjects] has run in the session of
    [uid]: the rows of the answer, and the initial empty list when the
    query failed. *)
Definition loaded_projects (d : db) (uid : uuid) : list Project.row :=
  match Api.select_projects d uid with
  | OK rows => rows
  | Err _ => []
  end.

(** [handleSubmit], given the key that [generateIssueKey] came back with
    and the answer of the insert into [issues]. *)
Definition handleSubmit (user projectId : bool) (issueKey : option string)
  (error : response) : list ui_effect :=
  if negb user || negb projectId then []
  else
    [set_loading true]
    ++ match issueKey, error with
       | None, _ => [toast "Error" (text "Failed to generate issue key") true]
       | Some _, Some e => [toast "Error" (message_or e "Failed to create issue") true]
       | Some k, None =>
           [toast "Success" (text ("Issue " ++ k ++ " created successfully!")) false;
            reset_form; close_dialog; callback "onSuccess"]
       end
    ++ [set_loading false].

End CreateIssueDialog.

(** ** CreateInviteDialog *)

Module CreateInviteDialog.
Import Text.

(** The type of the [role] state and the four items of the select box. *)
Inductive role_choice := choose_admin | choose_manager | choose_contributor | choose_viewer.

Definition to_app_role (r : role_choice) : app_role :=
  match r with
  | choose_admin => admin
  | choose_manager => manager
  | choose_contributor => contributor
  | choose_viewer => viewer
  end.

(** [7 * 24 * 60 * 60 * 1000] milliseconds. *)
Definition seven_days : Z := 7 * 24 * 60 * 60 * 1000.

(** [e.trim() && e.includes('@')]. *)
Definition is_valid (e : string) : bool :=
  negb (is_empty (trim e)) && includes_char "@" e.

(** What the callback of [validEmails.map] reads while it builds one row:
    [Date.now()] and [crypto.randomUUID()]. *)
Record reading := mk_reading { now : timestamptz; randomUUID : string }.

(** The rows of [const invites = validEmails.map(...)]; the [i]-th call of
    the callback takes the reading [readings i]. *)
Fixpoint rows_from (i : nat) (readings : nat -> reading) (orgId : uuid)
  (role : role_choice) (user_id : uuid) (validEmails : list string)
  : list Api.new_invite :=
  match validEmails with
  | [] => []
  | email :: rest =>
      Api.mk_new_invite orgId (toLowerCase (trim email)) (to_app_role role)
        (randomUUID (readings i)) (now (readings i) + seven_days) user_id
      :: rows_from (S i) readings orgId role user_id rest
  end.

(** The toasts and state changes of [handleSubmit], given the number of
    valid addresses, whether [getUser] found a user, and the answer of the
    insert. *)
Definition report (valid : nat) (user : bool) (error : response) : list ui_effect :=
  match valid with
  | O => [toast "Error" (text "Please enter at least one valid email") true]
  | S _ =>
      [set_loading true]
      ++ (if negb user then [toast "Error" (text "Not authenticated") true]
          else match error with
               | Some e => [toast "Error" (message_or e "Failed to send invitations") true]
               | None =>
                   [toast "Success"
                      (text ("Sent " ++ decimal (Z.of_nat valid) ++ " invitation"
                             ++ (if (1 <? valid)%nat then "s" else "")))
                      false;
                    reset_form; close_dialog; callback "onSuccess"]
               end)
      ++ [set_loading false]
  end.

Definition to_response {A} (r : result A) : response :=
  match r with
  | OK _ => None
  | Err e => Some e
  end.

(** [handleSubmit]: [emails] and [role] are the form state, [session] the
    user of [supabase.auth.getUser()], [orgId] the prop. *)
Definition handleSubmit (d : db) (session : option uuid) (orgId : uuid)
  (emails : list string) (role : role_choice) (readings : nat -> reading)
  : db * list ui_effect :=
  let validEmails := filter is_valid emails in
  match validEmails, session with
  | [], _ => (d, report 0 false None)
  | _ :: _, None => (d, report (List.length validEmails) false None)
  | _ :: _, Some user_id =>
      let invites := rows_from 0 readings orgId role user_id validEmails in
      let answer := Api.insert_invites d user_id invites in
      (match answer with
       | OK d' => d'
       | Err _ => d
       end,
       report (List.length validEmails) true (to_response answer))
  end.

End CreateInviteDialog.

(** ** The other call sites of the client *)

Module BoardPage.

(** [loadIssues] of the Board page. *)
Definition loadIssues (user : bool) (error : response) : list ui_effect :=
  if negb user then []
  else match error with
       | Some e => [console_error "Error loading issues:" e; set_loading false]
       | None => [set_state "issues"; set_loading false]
       end.

End BoardPage.

Module Dashboard.

(** [checkUserOrg]: only [data] is read off the response. *)
Definition checkUserOrg (user : bool) (error : response) : list ui_effect :=
  if negb user then [] else [set_state "hasOrg"].

(** [loadStats]: only the three [count]s are read off the responses, a
    missing one counting as 0. *)
Definition loadStats (user : bool) (projectsError activeError doneError : response)
  : list ui_effect :=
  if negb user then [] else [set_state "stats"].

End Dashboard.

Module SmartDashboard.

(** [loadDashboard]: the profile, the project count, the first project and
    its issue count, and the invite count; only [data] and [count] are
    read. *)
Definition loadDashboard (user : bool)
  (profileError projectsError projectError issuesError invitesError : response)
  : list ui_effect :=
  if negb user then []
  else [set_state "orgId"; set_state "checklist"; set_state "progress"].

End SmartDashboard.

Module CreateProjectDialog.

(** [loadUserOrg]. *)
Definition loadUserOrg (user : bool) (error : response) : list ui_effect :=
  if negb user then []
  else match error with
       | None => [set_state "orgId"]
       | Some _ => []
       end.

(** [handleSubmit], given whether [orgId] is set and the answer of the
    insert into [projects]. *)
Definition handleSubmit (user orgId : bool) (error : response) : list ui_effect :=
  if negb user || negb orgId
  then [toast "Error"
          (text "You must be part of an organization to create a project") true]
  else
    [set_loading true]
    ++ match error with
       | Some e => [toast "Error" (message_or e "Failed to create project") true]
       | None =>
           [toast "Success" (text "Project created successfully!") false;
            reset_form; close_dialog; callback "onSuccess"]
       end
    ++ [set_loading false].

End CreateProjectDialog.

Module CreateSprintDialog.

Inductive sprint_type := sprint | spike.

(** [loadProjects]: the profile query, whose [data] alone is read, then
    the project query; [org] tells whether the profile has an [org_id],
    [rows] whether the answer holds a project, [projectId] whether one is
    selected. *)
Definition loadProjects (user org : bool) (profileError projectsError : response)
  (rows projectId : bool) : list ui_effect :=
  if negb user then []
  else match profileError with
       | Some _ => []
       | None =>
           if negb org then []
           else match projectsError with
                | None =>
                    [set_state "projects"]
                    ++ (if rows && negb projectId then [set_state "projectId"] else [])
                | Some _ => []
                end
       end.

(** [handleSubmit], given the answer of the insert into [sprints]. *)
Definition handleSubmit (user projectId : bool) (type : sprint_type) (error : response)
  : list ui_effect :=
  if negb user || negb projectId then []
  else
    [set_loading true]
    ++ match error with
       | Some e => [toast "Error" (message_or e "Failed to create sprint") true]
       | None =>
           [toast "Success"
              (text ((match type with sprint => "Sprint" | spike => "Spike" end)
                     ++ " created successfully!")) false;
            reset_form; close_dialog; callback "onSuccess"]
       end
    ++ [set_loading false].

End CreateSprintDialog.

Module IssueDetailSheet.

(** [loadIssue]. *)
Definition loadIssue (issueId : bool) (error : response) : list ui_effect :=
  if negb issueId then []
  else
    [set_loading true]
    ++ match error with
       | Some _ => [toast "Error" (text "Failed to load issue details") true]
       | None => [set_state "issue"]
       end
    ++ [set_loading false].

(** [updateIssueField]. *)
Definition updateIssueField (issueId : bool) (field : string) (error : response)
  : list ui_effect :=
  if negb issueId then []
  else match error with
       | Some e => [toast "Error" (message_or e "Failed to update issue") true]
       | None =>
           [set_state "issue"; callback "onUpdate";
            toast "Updated" (text ("Issue " ++ field ++ " updated successfully")) false]
       end.

End IssueDetailSheet.

Module Backlog.

(** [loadProjects]: the profile query, whose [data] alone is read, then
    the project query. *)
Definition loadProjects (user org : bool) (profileError projectsError : response)
  (rows selectedProject : bool) : list ui_effect :=
  if negb user then []
  else match profileError with
       | Some _ => []
       | None =>
           if negb org then []
           else match projectsError with
                | None =>
                    [set_state "projects"]
                    ++ (if rows && negb selectedProject
                        then [set_state "selectedProject"] else [])
                | Some _ => []
                end
       end.

(** [loadProfiles]: only [data] is read off either response. *)
Definition loadProfiles (user org : bool) (profileError profilesError : response)
  : list ui_effect :=
  if negb user then []
  else match profileError with
       | Some _ => []
       | None =>
           if negb org then []
           else match profilesError with
                | None => [set_state "profiles"]
                | Some _ => []
                end
       end.

(** [loadIssues], run when a project is selected. *)
Definition loadIssues (error : response) : list ui_effect :=
  match error with
  | None => [set_state "issues"]
  | Some _ => []
  end.

End Backlog.

(** ** Every backend call of the client, and what its failure leads to *)

Module CallSites.

Inductive call_site :=
| Board_loadIssues
| Dashboard_checkUserOrg
| Dashboard_loadStats_projects
| Dashboard_loadStats_active
| Dashboard_loadStats_done
| SmartDashboard_profile
| SmartDashboard_projects
| SmartDashboard_first_project
| SmartDashboard_issues
| SmartDashboard_invites
| CreateOrg_insert
| CreateOrg_update_profile
| CreateProject_loadUserOrg
| CreateProject_insert
| CreateSprint_load_profile
| CreateSprint_load_projects
| CreateSprint_insert
| CreateIssue_loadProjects
| CreateIssue_count
| CreateIssue_insert
| CreateInvite_getUser
| CreateInvite_insert
| IssueDetail_load
| IssueDetail_update
| AcceptInvite_select
| AcceptInvite_update_profile
| AcceptInvite_insert_role
| AcceptInvite_mark_accepted
| Backlog_loadProjects_profile
| Backlog_loadProjects_projects
| Backlog_loadProfiles_profile
| Backlog_loadProfiles_profiles
| Backlog_loadIssues.

(** What [acceptInvite] leaves on the page when one of its calls fails. *)
Definition acceptInvite_failure (c : call_site) (e : pg_error) : message :=
  match c with
  | AcceptInvite_select => text "Invitation not found or already accepted"
  | _ => message_or e "Failed to accept invitation"
  end.

(** The handler of the call site, run with a signed-in user and a filled
    form, the call in question answering the error [e] and every other
    call of the handler succeeding. *)
Definition effects_on_error (c : call_site) (e : pg_error) : list ui_effect :=
  match c with
  | Board_loadIssues => BoardPage.loadIssues true (Some e)
  | Dashboard_checkUserOrg => Dashboard.checkUserOrg true (Some e)
  | Dashboard_loadStats_projects => Dashboard.loadStats true (Some e) None None
  | Dashboard_loadStats_active => Dashboard.loadStats true None (Some e) None
  | Dashboard_loadStats_done => Dashboard.loadStats true None None (Some e)
  | SmartDashboard_profile => SmartDashboard.loadDashboard true (Some e) None None None None
  | SmartDashboard_projects => SmartDashboard.loadDashboard true None (Some e) None None None
  | SmartDashboard_first_project =>
      SmartDashboard.loadDashboard true None None (Some e) None None
  | SmartDashboard_issues => SmartDashboard.loadDashboard true None None None (Some e) None
  | SmartDashboard_invites => SmartDashboard.loadDashboard true None None None None (Some e)
  | CreateOrg_insert => CreateOrgDialog.handleSubmit true (Some e) None
  | CreateOrg_update_profile => CreateOrgDialog.handleSubmit true None (Some e)
  | CreateProject_loadUserOrg => CreateProjectDialog.loadUserOrg true (Some e)
  | CreateProject_insert => CreateProjectDialog.handleSubmit true true (Some e)
  | CreateSprint_load_profile =>
      CreateSprintDialog.loadProjects true true (Some e) None true false
  | CreateSprint_load_projects =>
      CreateSprintDialog.loadProjects true true None (Some e) true false
  | CreateSprint_insert =>
      CreateSprintDialog.handleSubmit true true CreateSprintDialog.sprint (Some e)
  | CreateIssue_loadProjects => CreateIssueDialog.loadProjects true (Some e) true false
  | CreateIssue_count =>
      (* [count] is null, the key is KEY-1, the insert goes ahead *)
      CreateIssueDialog.handleSubmit true true (Some "KEY-1"%string) None
  | CreateIssue_insert =>
      CreateIssueDialog.handleSubmit true true (Some "KEY-1"%string) (Some e)
  | CreateInvite_getUser => CreateInviteDialog.report 1 false None
  | CreateInvite_insert => CreateInviteDialog.report 1 true (Some e)
  | IssueDetail_load => IssueDetailSheet.loadIssue true (Some e)
  | IssueDetail_update => IssueDetailSheet.updateIssueField true "status" (Some e)
  | AcceptInvite_select | AcceptInvite_update_profile
  | AcceptInvite_insert_role | AcceptInvite_mark_accepted =>
      [show_in_page (acceptInvite_failure c e)]
  | Backlog_loadProjects_profile => Backlog.loadProjects true true (Some e) None true false
  | Backlog_loadProjects_projects => Backlog.loadProjects true true None (Some e) true false
  | Backlog_loadProfiles_profile => Backlog.loadProfiles true true (Some e) None
  | Backlog_loadProfiles_profiles => Backlog.loadProfiles true true None (Some e)
  | Backlog_loadIssues => Backlog.loadIssues (Some e)
  end.

Definition is_error_toast (fx : ui_effect) : bool :=
  match fx with
  | toast _ _ true => true
  | _ => false
  end.

(** The error reaches the user as a transient notification. *)
Definition surfaced_as_toast (c : call_site) (e : pg_error) : bool :=
  existsb is_error_toast (effects_on_error c e).

(** The call sites whose handler answers a failed call with a toast: the
    writes of the five dialogs, [getUser] of the invite dialog, and the two
    calls of the issue sheet. *)
Definition toasts_errors (c : call_site) : bool :=
  match c with
  | CreateOrg_insert | CreateOrg_update_profile | CreateProject_insert
  | CreateSprint_insert | CreateIssue_insert | CreateInvite_getUser
  | CreateInvite_insert | IssueDetail_load | IssueDetail_update => true
  | _ => false
  end.

(** What the user gets to see of a failed call. *)
Inductive reaction := toasted | logged | shown_in_page | unnoticed.

Definition is_console_error (fx : ui_effect) : bool :=
  match fx with
  | console_error _ _ => true
  | _ => false
  end.

Definition is_page_message (fx : ui_effect) : bool :=
  match fx with
  | show_in_page _ => true
  | _ => false
  end.

Definition reaction_to (c : call_site) (e : pg_error) : reaction :=
  let fx := effects_on_error c e in
  if existsb is_error_toast fx then toasted
  else if existsb is_console_error fx then logged
  else if existsb is_page_message fx then shown_in_page
  else unnoticed.

(** The answer of each call site: a toast at the nine sites above, the
    console for [loadIssues] of the Board page, a message in the page for
    the four calls of [acceptInvite], and nothing at the other nineteen. *)
Definition answers (c : call_site) : reaction :=
  match c with
  | CreateOrg_insert | CreateOrg_update_profile | CreateProject_insert
  | CreateSprint_insert | CreateIssue_insert | CreateInvite_getUser
  | CreateInvite_insert | IssueDetail_load | IssueDetail_update => toasted
  | Board_loadIssues => logged
  | AcceptInvite_select | AcceptInvite_update_profile
  | AcceptInvite_insert_role | AcceptInvite_mark_accepted => shown_in_page
  | _ => unnoticed
  end.

End CallSites.


(** ** Sample databases *)

Module Samples.

(** A database with two organizations, one project (100) of organization
    10 holding a sprint, a board and an issue, and two users: user 1 has a
    [user_roles] row for either organization and a profile that names
    organization 20; user 2 has a profile that names organization 10 and
    no [user_roles] row. *)
Definition two_orgs_db : db :=
  mkdb [Organization.mk 10 "Acme" "acme" 2; Organization.mk 20 "Other" "other" 1]
       [Profile.mk 1 (Some 20%N) "ann@acme.io" contributor;
        Profile.mk 2 (Some 10%N) "bob@acme.io" owner]
       [UserRole.mk 500 1 10 contributor; UserRole.mk 501 1 20 contributor]
       [Project.mk 100 10 "Fizz" "FIZ"]
       [Sprint.mk 1000 100 "Sprint 1" 2]
       [Issue.mk 2000 100 "FIZ-1" "First" 2 []]
       [Board.mk 3000 100 "Main"]
       []
       [].

(** Project 100 ("FIZ") with the issues FIZ-1 and FIZ-3, FIZ-2 having
    been deleted; user 1 is a member of the organization. *)
Definition gap_db : db :=
  mkdb [Organization.mk 10 "Acme" "acme" 1]
       [Profile.mk 1 (Some 10%N) "ann@acme.io" owner]
       [UserRole.mk 500 1 10 owner]
       [Project.mk 100 10 "Fizz" "FIZ"]
       []
       [Issue.mk 2000 100 "FIZ-1" "First" 1 []; Issue.mk 2002 100 "FIZ-3" "Third" 1 []]
       []
       []
       [].

(** Two issues under the key FIZ-1 in project 100: the second insert is
    turned down. *)
Definition first_issue : Issue.row := Issue.mk 2000 100 "FIZ-1" "First" 2 [].
Definition clashing_issue : Issue.row := Issue.mk 2001 100 "FIZ-1" "Again" 3 [].

(** Organization 10 with its owner (user 1) and two invitations for
    carl@acme.io: one accepted, one pending that expired at time 1000. *)
Definition accepted_invite : Invite.row :=
  Invite.mk 700 10 "carl@acme.io" contributor "tok-a" 5000 1 (Some 900) (Some 3%N).
Definition expired_invite : Invite.row :=
  Invite.mk 701 10 "carl@acme.io" viewer "tok-b" 1000 1 None None.

Definition invites_db : db :=
  mkdb [Organization.mk 10 "Acme" "acme" 1]
       [Profile.mk 1 (Some 10%N) "ann@acme.io" owner;
        Profile.mk 3 None "carl@acme.io" contributor]
       [UserRole.mk 500 1 10 owner]
       [] [] [] []
       [accepted_invite; expired_invite]
       [].

(** The owner of organization 10 invites two people; the third field has
    no [@] and is dropped. *)
Definition two_readings (i : nat) : CreateInviteDialog.reading :=
  match i with
  | O => CreateInviteDialog.mk_reading 1000000 "0b5c1b0e"
  | _ => CreateInviteDialog.mk_reading 1000002 "7d2f9a44"
  end.

End Samples.

(** ** CreateIssueDialog: the whole submission *)

Module CreateIssueSubmit.

(** [from('issues').insert({...})] in the session of [uid]: the new row
    has to pass the INSERT policy of [issues], then the constraints. *)
Definition insert_issue (d : db) (uid : uuid) (r : Issue.row) : result db :=
  allowed <- Session.issues_insert_check d uid r ;;
  if (allowed : bool) then Engine.insert_issue d r
  else Err (rls_violation "issues").

(** [handleSubmit] with its two backend calls: the count inside
    [generateIssueKey] and the insert.  [projects] is the state that
    [loadProjects] left, [user] the signed-in user, [projectId] the
    selected project ([None] for the empty selection). *)
Definition handleSubmit (projects : list Project.row) (d : db)
  (user projectId : option uuid) (title : string) : db * list ui_effect :=
  match user, projectId with
  | Some uid, Some pid =>
      match CreateIssueDialog.generateIssueKey projects
              (Api.count_issues d uid pid) pid with
      | None => (d, CreateIssueDialog.handleSubmit true true None None)
      | Some issueKey =>
          let row := Issue.mk (fresh_id (map Issue.id (issues d))) pid issueKey
                              title uid [] in
          let answer := insert_issue d uid row in
          (match answer with
           | OK d' => d'
           | Err _ => d
           end,
           CreateIssueDialog.handleSubmit true true (Some issueKey)
             (CreateInviteDialog.to_response answer))
      end
  | _, _ => (d, [])
  end.

End CreateIssueSubmit.

(** ** CreateProjectDialog: the key generator and the name field *)

Module CreateProjectKey.
Import Text.

(** [String.prototype.toUpperCase] on one code unit of U+0000..U+00FF, as
    code units: a-z and the Latin-1 small letters U+00E0..U+00FE except the
    division sign U+00F7 move down by 32; the sharp s becomes SS; the micro
    sign becomes U+039C and y with diaeresis U+0178; everything else
    stays. *)
Definition upper_units (c : ascii) : list N :=
  if is_lower c then [code c - 32]%N
  else if (code c =? 223)%N then [83; 83]%N
  else if (code c =? 181)%N then [924]%N
  else if (code c =? 255)%N then [376]%N
  else if between 224 254 c && negb (code c =? 247)%N then [code c - 32]%N
  else [code c].

Fixpoint toUpperCase (s : string) : list N :=
  match s with
  | EmptyString => []
  | String c r => upper_units c ++ toUpperCase r
  end.

(** The class [A-Z0-9]. *)
Definition is_upper_alnum (u : N) : bool :=
  ((48 <=? u) && (u <=? 57) || (65 <=? u) && (u <=? 90))%N.

Fixpoint text_of (units : list N) : string :=
  match units with
  | [] => EmptyString
  | u :: rest => String (ascii_of_N u) (text_of rest)
  end.

(** [name.toUpperCase().replace(/[^A-Z0-9]+/g, '').substring(0, 5)]. *)
Definition generateKey (name : string) : string :=
  text_of (firstn 5 (filter is_upper_alnum (toUpperCase name))).

(** The [name] and [key] fields of the form. *)
Record form := mk_form { name : string; key : string }.

(** [handleNameChange]: the key follows the name as long as it is empty. *)
Definition handleNameChange (f : form) (value : string) : form :=
  mk_form value (if is_empty (key f) then generateKey value else key f).

(** The values that the name field reports while a name is typed one
    character after the other. *)
Fixpoint prefixes (s : string) : list string :=
  match s with
  | EmptyString => []
  | String c r => String c EmptyString :: map (String c) (prefixes r)
  end.

(** What the form holds once the characters of [pre] were typed one after
    the other: no key while no prefix gave one, then the key of the first
    prefix that did. *)
Definition typed_so_far (f : form) (pre : string) : Prop :=
  (key f = ""%string /\ generateKey pre = ""%string)
  \/ (key f <> ""%string
      /\ exists p c rest, pre = (p ++ String c rest)%string
                          /\ generateKey p = ""%string
                          /\ key f = generateKey (p ++ String c "")).

End CreateProjectKey.

(** ** CreateOrgDialog: the name field *)

Module CreateOrgName.
Import Text.

Record form := mk_form { name : string; slug : string }.

(** [handleNameChange]: the slug follows the name as long as it is
    empty. *)
Definition handleNameChange (f : form) (value : string) : form :=
  mk_form value
    (if is_empty (slug f) then CreateOrgDialog.generateSlug value else slug f).

(** [slug: slug || generateSlug(name)] of [handleSubmit]. *)
Definition submitted_slug (f : form) : string :=
  if is_empty (slug f) then CreateOrgDialog.generateSlug (name f) else slug f.

End CreateOrgName.

(** ** The Board page: columns *)

Module BoardColumns.

(** [CREATE TYPE issue_status AS ENUM (...)]. *)
Inductive issue_status := backlog | todo | in_progress | in_review | blocked | done.

Definition status_eqb (a b : issue_status) : bool :=
  match a, b with
  | backlog, backlog | todo, todo | in_progress, in_progress
  | in_review, in_review | blocked, blocked | done, done => true
  | _, _ => false
  end.

(** [interface Issue] of the page. *)
Record Issue := mk_issue
  { id : uuid; issue_key : string; title : string; type : string;
    priority : string; status : issue_status; assignee_ids : list uuid }.

(** The [id]s of [statusColumns]. *)
Definition statusColumns : list issue_status :=
  [backlog; todo; in_progress; in_review; done].

Definition getIssuesByStatus (issues : list Issue) (column : issue_status) : list Issue :=
  filter (fun issue => status_eqb (status issue) column) issues.

(** The cards of the board: one list per column. *)
Definition cards (issues : list Issue) : list (list Issue) :=
  map (getIssuesByStatus issues) statusColumns.

(** [issue.assignee_ids.slice(0, 3).map((_, idx) => String.fromCharCode(65
    + idx))]: the letters on the avatars of a card. *)
Definition avatars (issue : Issue) : list N :=
  map (fun idx => (65 + N.of_nat idx)%N)
      (seq 0 (List.length (firstn 3 (assignee_ids issue)))).

End BoardColumns.

(** ** The Dashboard page: numbers *)

Module DashboardStats.
Import BoardColumns.

Record stats := mk_stats { projects : Z; activeIssues : Z; completedIssues : Z }.

Definition or_zero (count : option Z) : Z :=
  match count with
  | Some n => n
  | None => 0
  end.

(** [setStats] of [loadStats], from the three [count]s. *)
Definition setStats (projectCount activeCount doneCount : option Z) : stats :=
  mk_stats (or_zero projectCount) (or_zero activeCount) (or_zero doneCount).

(** [.select('*', {count: 'exact', head: true}).neq('status', 'done')]
    and [.eq('status', 'done')] over the issues the session can read. *)
Definition count_active (readable : list Issue) : option Z :=
  Some (Z.of_nat (List.length (filter (fun i => negb (status_eqb (status i) done)) readable))).

Definition count_done (readable : list Issue) : option Z :=
  Some (Z.of_nat (List.length (filter (fun i => status_eqb (status i) done) readable))).

(** [loadStats] when its three queries answer. *)
Definition loadStats (readable_projects : nat) (readable : list Issue) : stats :=
  setStats (Some (Z.of_nat readable_projects)) (count_active readable) (count_done readable).

End DashboardStats.

(** ** SmartDashboard: the checklist *)

Module SmartChecklist.

Inductive item_id := create_org | create_project | create_issue | invite_team.

(** [interface ChecklistItem]: [action] tells whether the item has one. *)
Record ChecklistItem := mk_item { id : item_id; done : bool; action : bool }.

(** [(count || 0) > 0]. *)
Definition some_rows (count : option Z) : bool := 0 <? DashboardStats.or_zero count.

(** The [items] of [loadDashboard], from [profile?.org_id] and the three
    counts; the counts are only asked for (and only looked at) where the
    code nests the queries. *)
Definition items (org_id : option uuid) (projectCount issueCount inviteCount : option Z)
  : list ChecklistItem :=
  let hasOrg := negb (Api.is_null org_id) in
  let hasProject := hasOrg && some_rows projectCount in
  let hasIssue := hasProject && some_rows issueCount in
  let hasInvited := hasOrg && some_rows inviteCount in
  [mk_item create_org hasOrg true;
   mk_item create_project hasProject hasOrg;
   mk_item create_issue hasIssue hasProject;
   mk_item invite_team hasInvited hasOrg].

(** [(completedCount / items.length) * 100]; the quotient is exact for the
    four items. *)
Definition progress (l : list ChecklistItem) : Z :=
  Z.of_nat (List.length (filter done l)) * 100 / Z.of_nat (List.length l).

(** [checklist.find((item) => !item.done && item.action)]. *)
Definition nextAction (l : list ChecklistItem) : option ChecklistItem :=
  find (fun item => negb (done item) && action item) l.

End SmartChecklist.

(** ** Membership by pair

    The pair that [UNIQUE (user_id, org_id)] and the migration's
    [ON CONFLICT (user_id, org_id)] look at. *)

Module Membership.

Definition has_pair (rows : list UserRole.row) (u o : uuid) : Prop :=
  exists ur, In ur rows /\ UserRole.user_id ur = u /\ UserRole.org_id ur = o.

End Membership.

(** ** More sample data *)

Module MoreSamples.

(** Organization 10 with a pending invite for its owner's own address,
    valid until time 9000. *)
Definition open_invites_db : db :=
  Engine.set_invites Samples.invites_db
    [Invite.mk 702 10 "ann@acme.io" viewer "tok-c" 9000 1 None None].

(** Two profiles with an organization and one without; one membership is
    there already, with another role than the profile's. *)
Definition legacy_profiles : list Profile.row :=
  [Profile.mk 1 (Some 10%N) "ann@acme.io" owner;
   Profile.mk 2 (Some 10%N) "bob@acme.io" contributor;
   Profile.mk 3 None "carl@acme.io" contributor].

Definition legacy_roles : list UserRole.row := [UserRole.mk 500 2 10 admin].

(** The number behind the prefix FIZ- of the keys of the samples. *)
Definition sample_number (i : Issue.row) : Z :=
  match Functions.numeric_suffix "FIZ" (Issue.issue_key i) with
  | OK n => n
  | Err _ => 0
  end.

(** An issue whose key was not written by a generator. *)
Definition bad_key_db : db :=
  Engine.set_issues Samples.two_orgs_db [Issue.mk 2000 100 "FIZ-one" "First" 2 []].

(** An issue that carries the last number of an [integer]. *)
Definition last_key_db : db :=
  Engine.set_issues Samples.two_orgs_db
    [Issue.mk 2000 100 "FIZ-2147483647" "Last" 2 []].

End MoreSamples.

(* ===================================================================== *)
(** * Part II: theorems                                                   *)
(* ===================================================================== *)

Module SlugFacts.
Import Text CreateOrgDialog.

Example generateSlug_acme : generateSlug "  Acme, Inc. (EU) " = "acme-inc-eu".
Proof. reflexivity. Qed.

Example generateSlug_punct : generateSlug "!!!" = "".
Proof. reflexivity. Qed.

Example generateSlug_edges : generateSlug "--Q3 Road_Map--" = "q3-road-map".
Proof. reflexivity. Qed.

(** Facts about single characters are settled by running through the
    256 code units. *)
Ltac by_cases_on_char c :=
  destruct c as [[] [] [] [] [] [] [] []]; cbv; congruence.

Lemma lower_char_slug c : is_slug_char c = true -> lower_char c = c.
Proof. by_cases_on_char c. Qed.

Lemma slug_not_alnum_is_hyphen c :
  is_slug_char c = true -> is_lower_alnum c = false -> is_hyphen c = true.
Proof. unfold is_slug_char. intros H Hn. rewrite Hn in H. exact H. Qed.

Lemma hyphen_not_alnum c : is_hyphen c = true -> is_lower_alnum c = false.
Proof. by_cases_on_char c. Qed.

Lemma is_hyphen_eq c : is_hyphen c = true -> c = "-"%char.
Proof. unfold is_hyphen. apply Ascii.eqb_eq. Qed.

Lemma toLowerCase_slug s : all_chars is_slug_char s = true -> toLowerCase s = s.
Proof.
  induction s as [|c r IH]; simpl; [reflexivity|].
  intros H. apply andb_prop in H as [Hc Hr].
  now rewrite (lower_char_slug c Hc), (IH Hr).
Qed.

Lemma replace_runs_shape s : forall b,
  collapsed (replace_runs b s) /\
  (b = true -> starts_with_hyphen (replace_runs b s) = false).
Proof.
  induction s as [|c r IH]; intros b; simpl.
  - now repeat split.
  - destruct (is_lower_alnum c) eqn:Ec.
    + destruct (IH false) as [[Ha Hs] _]. unfold collapsed. simpl.
      assert (Hh : is_hyphen c = false).
      { destruct (is_hyphen c) eqn:E; [|reflexivity].
        apply hyphen_not_alnum in E. congruence. }
      unfold is_slug_char at 1. rewrite Ec, Hh, Ha, Hs. now repeat split.
    + destruct b.
      * apply (IH true).
      * destruct (IH true) as [[Ha Hs] Hst]. specialize (Hst eq_refl).
        unfold collapsed. simpl. rewrite Ha, Hs, Hst. repeat split. discriminate.
Qed.

Lemma drop_last_hyphen_chars p s :
  all_chars p s = true -> all_chars p (drop_last_hyphen s) = true.
Proof.
  induction s as [|c r IH]; [trivial|].
  intros H. simpl in H. apply andb_prop in H as [Hc Hr].
  destruct r as [|d r'].
  - simpl. destruct (is_hyphen c); simpl; [reflexivity | now rewrite Hc].
  - change (all_chars p (String c (drop_last_hyphen (String d r'))) = true).
    cbn [all_chars]. now rewrite Hc, (IH Hr).
Qed.

Lemma drop_last_hyphen_start s :
  starts_with_hyphen s = false -> starts_with_hyphen (drop_last_hyphen s) = false.
Proof.
  destruct s as [|c [|d r]]; simpl; trivial.
  intros H. now rewrite H.
Qed.

Lemma drop_last_hyphen_separated s :
  separated s = true -> separated (drop_last_hyphen s) = true.
Proof.
  induction s as [|c r IH]; [trivial|].
  destruct r as [|d r'].
  - intros _. simpl. destruct (is_hyphen c); simpl; [reflexivity|].
    now rewrite andb_false_r.
  - intros H. change (separated (String c (drop_last_hyphen (String d r'))) = true).
    cbn [separated]. cbn [separated] in IH.
    change (negb (is_hyphen c && starts_with_hyphen (String d r'))
            && separated (String d r') = true) in H.
    apply andb_prop in H as [Hcd Hr]. rewrite (IH Hr), andb_true_r.
    destruct (is_hyphen c); [|reflexivity].
    rewrite andb_true_l in Hcd |- *. apply negb_true_iff in Hcd.
    now rewrite (drop_last_hyphen_start (String d r') Hcd).
Qed.

Lemma drop_last_hyphen_end s :
  separated s = true -> ends_with_hyphen (drop_last_hyphen s) = false.
Proof.
  induction s as [|c r IH]; [trivial|].
  destruct r as [|d r'].
  - intros _. simpl. destruct (is_hyphen c) eqn:E; simpl; [reflexivity | exact E].
  - intros H.
    change (negb (is_hyphen c && starts_with_hyphen (String d r'))
            && separated (String d r') = true) in H.
    apply andb_prop in H as [Hcd Hr]. specialize (IH Hr).
    change (ends_with_hyphen (String c (drop_last_hyphen (String d r'))) = false).
    destruct (drop_last_hyphen (String d r')) as [|e u] eqn:Ed.
    + (* the rest was a lone hyphen, so [c] is not one *)
      destruct r' as [|e r'']; [|discriminate Ed].
      simpl in Ed. destruct (is_hyphen d) eqn:Hd; [|discriminate Ed].
      cbn [starts_with_hyphen] in Hcd. rewrite Hd, andb_true_r in Hcd.
      apply negb_true_iff in Hcd. exact Hcd.
    + exact IH.
Qed.

Lemma strip_edge_hyphens_shape s :
  collapsed s ->
  collapsed (strip_edge_hyphens s) /\ well_formed_slug (strip_edge_hyphens s) = true.
Proof.
  intros [Ha Hs]. unfold well_formed_slug, collapsed.
  destruct s as [|c r]; [now repeat split|].
  simpl in Ha, Hs. apply andb_prop in Ha as [Hc Hr]. apply andb_prop in Hs as [Hcr Hsr].
  unfold strip_edge_hyphens. destruct (is_hyphen c) eqn:Hh.
  - simpl in Hcr. apply negb_true_iff in Hcr.
    rewrite (drop_last_hyphen_chars _ r Hr), (drop_last_hyphen_separated r Hsr),
      (drop_last_hyphen_start r Hcr), (drop_last_hyphen_end r Hsr).
    now repeat split.
  - assert (Ha : all_chars is_slug_char (String c r) = true) by (simpl; now rewrite Hc, Hr).
    assert (Hs : separated (String c r) = true) by (simpl; now rewrite Hh, Hsr).
    assert (Hst : starts_with_hyphen (String c r) = false) by exact Hh.
    rewrite (drop_last_hyphen_chars _ _ Ha), (drop_last_hyphen_separated _ Hs),
      (drop_last_hyphen_start _ Hst), (drop_last_hyphen_end _ Hs).
    now repeat split.
Qed.

(** On its own output every step of the generator is the identity. *)
Lemma replace_runs_fixed s : forall b,
  collapsed s -> (b = true -> starts_with_hyphen s = false) ->
  replace_runs b s = s.
Proof.
  induction s as [|c r IH]; intros b [Ha Hs] Hb; simpl; [reflexivity|].
  simpl in Ha, Hs. apply andb_prop in Ha as [Hc Hr]. apply andb_prop in Hs as [Hcr Hsr].
  destruct (is_lower_alnum c) eqn:Ec.
  - f_equal. apply IH; [now split | discriminate].
  - pose proof (slug_not_alnum_is_hyphen c Hc Ec) as Hh.
    destruct b.
    + specialize (Hb eq_refl). simpl in Hb. congruence.
    + rewrite (is_hyphen_eq c Hh). f_equal.
      apply IH; [now split|]. intros _.
      rewrite Hh in Hcr. simpl in Hcr. now apply negb_true_iff in Hcr.
Qed.

Lemma drop_last_hyphen_fixed s :
  ends_with_hyphen s = false -> drop_last_hyphen s = s.
Proof.
  induction s as [|c r IH]; [trivial|].
  destruct r as [|d r'].
  - simpl. now intros ->.
  - intros H. change (String c (drop_last_hyphen (String d r')) = String c (String d r')).
    f_equal. apply IH. exact H.
Qed.

Lemma strip_edge_hyphens_fixed s :
  well_formed_slug s = true -> strip_edge_hyphens s = s.
Proof.
  unfold well_formed_slug. intros H.
  apply andb_prop in H as [H He]. apply andb_prop in H as [_ Hs].
  apply negb_true_iff in He, Hs.
  destruct s as [|c r]; [reflexivity|].
  unfold strip_edge_hyphens. simpl in Hs. rewrite Hs.
  now apply drop_last_hyphen_fixed.
Qed.

Lemma generateSlug_shape name :
  collapsed (generateSlug name) /\ well_formed_slug (generateSlug name) = true.
Proof.
  unfold generateSlug. apply strip_edge_hyphens_shape.
  apply (replace_runs_shape (toLowerCase name) false).
Qed.

(** C10. For every input string, [generateSlug] returns a string made
    only of lowercase letters, digits and hyphens that neither starts nor
    ends with a hyphen, and [generateSlug] applied to its own output
    returns that output unchanged. *)
Theorem generateSlug_well_formed_idempotent (name : string) :
  all_chars is_slug_char (generateSlug name) = true /\
  starts_with_hyphen (generateSlug name) = false /\
  ends_with_hyphen (generateSlug name) = false /\
  generateSlug (generateSlug name) = generateSlug name.
Proof.
  destruct (generateSlug_shape name) as [Hc Hw].
  pose proof Hw as Hw'. unfold well_formed_slug in Hw'.
  apply andb_prop in Hw' as [Hw' He]. apply andb_prop in Hw' as [Ha Hs].
  apply negb_true_iff in He, Hs.
  repeat split; trivial.
  unfold generateSlug at 1.
  rewrite (toLowerCase_slug _ Ha).
  rewrite (replace_runs_fixed _ false Hc) by discriminate.
  now apply strip_edge_hyphens_fixed.
Qed.

End SlugFacts.

(** ** Role lookups and row-level security *)

Module PolicyFacts.
Import Policies Samples.

Lemma app_role_eqb_eq a b : app_role_eqb a b = true <-> a = b.
Proof. destruct a, b; simpl; split; congruence. Qed.

Lemma uuid_in_In x l : uuid_in x l = true <-> In x l.
Proof.
  unfold uuid_in. rewrite existsb_exists. split.
  - intros [y [Hy E]]. apply N.eqb_eq in E. now subst.
  - intros H. exists x. split; [exact H | apply N.eqb_refl].
Qed.

(** A key that occurs once identifies its row. *)
Lemma unique_on_inj {row K} (key : row -> K) (rows : list row) (a b : row) :
  Engine.unique_on key rows -> In a rows -> In b rows -> key a = key b -> a = b.
Proof.
  unfold Engine.unique_on. induction rows as [|x l IH]; simpl; [contradiction|].
  intros Hnd Ha Hb E. apply NoDup_cons_iff in Hnd as [Hx Hl].
  destruct Ha as [-> | Ha], Hb as [-> | Hb]; trivial.
  - exfalso. apply Hx. rewrite E. now apply in_map.
  - exfalso. apply Hx. rewrite <- E. now apply in_map.
  - now apply IH.
Qed.

(** *** Reading as a session *)

(** The expansion of the SELECT policy of [user_roles] comes back to
    [user_roles]. *)
Lemma from_user_roles_recursion d uid fuel active :
  Session.from_user_roles d uid (S fuel) active = Err invalid_object_definition.
Proof.
  cbn [Session.from_user_roles].
  destruct (Session.expanding Rel.user_roles active); [reflexivity|].
  destruct fuel; reflexivity.
Qed.

Lemma from_profiles_recursion d uid fuel active :
  Session.from_profiles d uid (S fuel) active = Err invalid_object_definition.
Proof.
  cbn [Session.from_profiles].
  destruct (Session.expanding Rel.profiles active); [reflexivity|].
  destruct fuel; reflexivity.
Qed.

Lemma from_projects_recursion d uid active :
  Session.from_projects d uid active = Err invalid_object_definition.
Proof.
  unfold Session.from_projects, Session.depth.
  rewrite from_user_roles_recursion. now destruct (Session.expanding _ _).
Qed.

Lemma from_invites_recursion d uid active :
  Session.from_invites d uid active = Err invalid_object_definition.
Proof.
  unfold Session.from_invites, Session.depth.
  rewrite from_user_roles_recursion. now destruct (Session.expanding _ _).
Qed.

Lemma from_issues_recursion d uid active :
  Session.from_issues d uid active = Err invalid_object_definition.
Proof.
  unfold Session.from_issues.
  rewrite from_projects_recursion. now destruct (Session.expanding _ _).
Qed.

Lemma from_organizations_recursion d uid active :
  Session.from_organizations d uid active = Err invalid_object_definition.
Proof.
  unfold Session.from_organizations, Session.depth.
  rewrite from_profiles_recursion. now destruct (Session.expanding _ _).
Qed.

Example member_is_refused_the_project :
  member two_orgs_db 1 10
  /\ has_role two_orgs_db 1 10 contributor = true
  /\ In (Project.mk 100 10 "Fizz" "FIZ") (projects two_orgs_db)
  /\ Api.select_projects two_orgs_db 1 = Err invalid_object_definition.
Proof.
  split; [|repeat split; simpl; auto].
  exists (UserRole.mk 500 1 10 contributor). simpl. auto.
Qed.

(** C4. Whatever the tables hold and whoever asks, a SELECT of a session
    on [projects], [issues], [sprints], [boards], [invites], [user_roles]
    or [deployments] shows no row: it ends with SQLSTATE 42P17, because
    the SELECT policy of [user_roles] (and that of [profiles], which the
    policies of [sprints] and [boards] still read) selects from its own
    table.  A member of the organization is not let to view the rows of
    the organization. *)
Theorem session_select_raises_recursion (d : db) (uid : uuid) :
  Session.from_projects d uid [] = Err invalid_object_definition
  /\ Session.from_issues d uid [] = Err invalid_object_definition
  /\ Session.from_sprints d uid [] = Err invalid_object_definition
  /\ Session.from_boards d uid [] = Err invalid_object_definition
  /\ Session.from_invites d uid [] = Err invalid_object_definition
  /\ Session.from_user_roles d uid Session.depth [] = Err invalid_object_definition
  /\ Session.from_deployments d uid [] = Err invalid_object_definition.
Proof.
  split; [apply from_projects_recursion|].
  split; [apply from_issues_recursion|].
  split; [unfold Session.from_sprints; now rewrite from_projects_recursion|].
  split; [unfold Session.from_boards; now rewrite from_projects_recursion|].
  split; [apply from_invites_recursion|].
  split; [apply from_user_roles_recursion|].
  unfold Session.from_deployments. now rewrite from_projects_recursion.
Qed.

Example has_role_two_orgs :
  has_role two_orgs_db 1 10 contributor = true
  /\ has_role two_orgs_db 1 10 admin = false
  /\ get_user_role two_orgs_db 1 20 = Some contributor
  /\ get_user_role two_orgs_db 2 10 = None.
Proof. repeat split. Qed.

(** C7. [has_role] is true exactly when [user_roles] holds a row with
    that user, organization and role.  Under the table's
    [UNIQUE(user_id, org_id)] constraint, [get_user_role] returns the
    role of the row for that user and organization when there is one, and
    no role when there is none. *)
Theorem has_role_get_user_role_spec (d : db) (u o : uuid)
  (Huniq : Engine.unique_on Engine.user_roles_key (user_roles d)) :
  (forall r, has_role d u o r = true <->
             exists ur, In ur (user_roles d) /\ UserRole.user_id ur = u
                        /\ UserRole.org_id ur = o /\ UserRole.role ur = r) /\
  (forall ur, In ur (user_roles d) -> UserRole.user_id ur = u ->
              UserRole.org_id ur = o ->
              get_user_role d u o = Some (UserRole.role ur)) /\
  (~ member d u o -> get_user_role d u o = None).
Proof.
  split; [|split].
  - intros r. unfold has_role. rewrite existsb_exists. split.
    + intros [ur [H E]]. apply andb_prop in E as [E Er]. apply andb_prop in E as [Eu Eo].
      apply N.eqb_eq in Eu, Eo. apply app_role_eqb_eq in Er. now exists ur.
    + intros [ur [H [Eu [Eo Er]]]]. exists ur. split; [exact H|].
      rewrite (proj2 (N.eqb_eq _ _) Eu), (proj2 (N.eqb_eq _ _) Eo).
      now rewrite (proj2 (app_role_eqb_eq _ _) Er).
  - intros ur H Eu Eo. unfold get_user_role.
    destruct (filter _ (user_roles d)) as [|x l] eqn:Ef.
    + exfalso. assert (Hin : In ur []); [|exact Hin].
      rewrite <- Ef. apply filter_In. split; [exact H|].
      now rewrite (proj2 (N.eqb_eq _ _) Eu), (proj2 (N.eqb_eq _ _) Eo).
    + assert (Hx : In x (x :: l)) by now left.
      rewrite <- Ef in Hx. apply filter_In in Hx as [Hx E].
      apply andb_prop in E as [Exu Exo]. apply N.eqb_eq in Exu, Exo.
      f_equal. f_equal. apply (unique_on_inj _ _ x ur Huniq Hx H).
      unfold Engine.user_roles_key. congruence.
  - intros Hn. unfold get_user_role.
    destruct (filter _ (user_roles d)) as [|x l] eqn:Ef; [reflexivity|].
    exfalso. apply Hn.
    assert (Hx : In x (x :: l)) by now left.
    rewrite <- Ef in Hx. apply filter_In in Hx as [Hx E].
    apply andb_prop in E as [Exu Exo]. apply N.eqb_eq in Exu, Exo.
    now exists x.
Qed.

Lemma has_role_get_user_role_spec_witness :
  (has_role two_orgs_db 1 10 contributor = true <->
   exists ur, In ur (user_roles two_orgs_db) /\ UserRole.user_id ur = 1%N
              /\ UserRole.org_id ur = 10%N /\ UserRole.role ur = contributor) /\
  get_user_role two_orgs_db 1 10 = Some contributor.
Proof.
  assert (Huniq : Engine.unique_on Engine.user_roles_key (user_roles two_orgs_db)).
  { unfold Engine.unique_on. simpl.
    repeat constructor; simpl; intuition discriminate. }
  destruct (has_role_get_user_role_spec two_orgs_db 1 10 Huniq) as [Hh [Hg _]].
  split; [apply Hh|].
  apply (Hg (UserRole.mk 500 1 10 contributor)); simpl; auto.
Defined.

End PolicyFacts.

(** ** Uniqueness invariants of the schema *)

Module EngineFacts.
Import Engine Samples.

Lemma pair_eqb_eq {A B} (fa : A -> A -> bool) (fb : B -> B -> bool) :
  (forall a a', fa a a' = true <-> a = a') ->
  (forall b b', fb b b' = true <-> b = b') ->
  forall x y, pair_eqb fa fb x y = true <-> x = y.
Proof.
  intros Ha Hb [a b] [a' b']. unfold pair_eqb. simpl.
  rewrite andb_true_iff, Ha, Hb. split; [intros [-> ->] | intros [= -> ->]]; auto.
Qed.

Lemma uuid_pair_eqb_eq (x y : uuid * uuid) : pair_eqb N.eqb N.eqb x y = true <-> x = y.
Proof. apply pair_eqb_eq; [apply N.eqb_eq | apply N.eqb_eq]. Qed.

Lemma uuid_text_eqb_eq (x y : uuid * string) :
  pair_eqb N.eqb String.eqb x y = true <-> x = y.
Proof. apply pair_eqb_eq; [apply N.eqb_eq | apply String.eqb_eq]. Qed.

Lemma unique_on_filter {row K} (key : row -> K) (p : row -> bool) rows :
  unique_on key rows -> unique_on key (filter p rows).
Proof.
  unfold unique_on. induction rows as [|a l IH]; simpl; [trivial|].
  intros H. apply NoDup_cons_iff in H as [Ha Hl].
  destruct (p a); simpl; [|now apply IH].
  constructor; [|now apply IH].
  intros Hin. apply Ha. apply in_map_iff in Hin as [y [E Hy]].
  apply filter_In in Hy as [Hy _]. rewrite <- E. now apply in_map.
Qed.

Section TableFacts.
Context {row K : Type}.
Variable pk : row -> uuid.
Variable ukey : row -> K.
Variable K_eqb : K -> K -> bool.
Hypothesis K_eqb_eq : forall a b, K_eqb a b = true <-> a = b.
Variable pk_name ukey_name : string.

Lemma pk_taken_In rows r : pk_taken pk rows r = true <-> In (pk r) (map pk rows).
Proof.
  unfold pk_taken. rewrite existsb_exists, in_map_iff.
  split; intros [y [H1 H2]]; exists y.
  - apply N.eqb_eq in H2. auto.
  - split; [exact H2 | now apply N.eqb_eq].
Qed.

Lemma ukey_taken_In rows r :
  ukey_taken ukey K_eqb rows r = true <-> In (ukey r) (map ukey rows).
Proof.
  unfold ukey_taken. rewrite existsb_exists, in_map_iff.
  split; intros [y [H1 H2]]; exists y.
  - apply K_eqb_eq in H2. auto.
  - split; [exact H2 | now apply K_eqb_eq].
Qed.

Lemma unique_on_snoc {L} (key : row -> L) rows r :
  unique_on key rows -> ~ In (key r) (map key rows) -> unique_on key (rows ++ [r]).
Proof.
  unfold unique_on. intros Hn Hr. rewrite map_app. apply NoDup_app; trivial.
  - simpl. constructor; [intros [] | constructor].
  - intros a Ha [<- | []]. now apply Hr.
Qed.

Lemma insert_row_unique rows r rows' :
  insert_row pk ukey K_eqb pk_name ukey_name rows r = OK rows' ->
  unique_on pk rows -> unique_on ukey rows ->
  unique_on pk rows' /\ unique_on ukey rows'.
Proof.
  unfold insert_row. intros H Hp Hu.
  destruct (pk_taken pk rows r) eqn:Ep; [discriminate|].
  destruct (ukey_taken ukey K_eqb rows r) eqn:Eu; [discriminate|].
  injection H as <-. split; apply unique_on_snoc; trivial.
  - intros Hin. apply pk_taken_In in Hin. congruence.
  - intros Hin. apply ukey_taken_In in Hin. congruence.
Qed.

Lemma insert_row_conflict rows r :
  insert_conflict ukey rows r ->
  exists c, insert_row pk ukey K_eqb pk_name ukey_name rows r = Err (unique_violation c).
Proof.
  intros [y [Hy E]]. unfold insert_row.
  destruct (pk_taken pk rows r); [now eexists|].
  assert (Ht : ukey_taken ukey K_eqb rows r = true).
  { apply ukey_taken_In. rewrite <- E. now apply in_map. }
  rewrite Ht. now eexists.
Qed.

Lemma rewrite_row_absent x r' rows :
  ~ In x (map pk rows) -> rewrite_row pk x r' rows = rows.
Proof.
  unfold rewrite_row. induction rows as [|a l IH]; simpl; [trivial|].
  intros H. destruct (pk a =? x)%N eqn:E.
  - exfalso. apply H. left. now apply N.eqb_eq.
  - f_equal. apply IH. intros Hin. apply H. now right.
Qed.

Lemma rewrite_row_In x r' rows y :
  In y (rewrite_row pk x r' rows) -> y = r' \/ (In y rows /\ pk y <> x).
Proof.
  unfold rewrite_row. intros H. apply in_map_iff in H as [a [E Ha]].
  destruct (pk a =? x)%N eqn:Ex; [now left|].
  right. subst y. split; [exact Ha | now apply N.eqb_neq].
Qed.

Lemma rewrite_row_unique {L} (key : row -> L) x r' rows :
  unique_on pk rows -> unique_on key rows ->
  (forall y, In y rows -> pk y <> x -> key y <> key r') ->
  unique_on key (rewrite_row pk x r' rows).
Proof.
  unfold unique_on. induction rows as [|a l IH]; [constructor|].
  intros Hp Hk Hfree. simpl in Hp, Hk.
  apply NoDup_cons_iff in Hp as [Hpa Hpl]. apply NoDup_cons_iff in Hk as [Hka Hkl].
  change (NoDup (map key ((if (pk a =? x)%N then r' else a) :: rewrite_row pk x r' l))).
  destruct (pk a =? x)%N eqn:Ex.
  - apply N.eqb_eq in Ex. subst x.
    rewrite (rewrite_row_absent _ _ _ Hpa). simpl. constructor; [|exact Hkl].
    intros Hin. apply in_map_iff in Hin as [y [E Hy]].
    apply (Hfree y); [now right | | exact E].
    intros Ey. apply Hpa. rewrite <- Ey. now apply in_map.
  - apply N.eqb_neq in Ex. simpl. constructor.
    + intros Hin. apply in_map_iff in Hin as [y [E Hy]].
      apply rewrite_row_In in Hy as [-> | [Hy _]].
      * apply (Hfree a); [now left | exact Ex | now symmetry].
      * apply Hka. rewrite <- E. now apply in_map.
    + apply IH; trivial. intros y Hy. apply Hfree. now right.
Qed.

Lemma taken_others_free {L} (key : row -> L) (taken : list row -> row -> bool)
  rows x r' :
  (forall l r, taken l r = true <-> In (key r) (map key l)) ->
  taken (filter (fun y => negb (pk y =? x)%N) rows) r' = false ->
  forall y, In y rows -> pk y <> x -> key y <> key r'.
Proof.
  intros Hspec Ht y Hy Hne E.
  assert (Hin : taken (filter (fun y => negb (pk y =? x)%N) rows) r' = true);
    [|congruence].
  apply Hspec. rewrite <- E. apply in_map. apply filter_In. split; [exact Hy|].
  apply negb_true_iff. now apply N.eqb_neq.
Qed.

Lemma update_row_unique rows x f rows' :
  update_row pk ukey K_eqb pk_name ukey_name rows x f = OK rows' ->
  unique_on pk rows -> unique_on ukey rows ->
  unique_on pk rows' /\ unique_on ukey rows'.
Proof.
  unfold update_row. intros H Hp Hu.
  destruct (find _ rows) as [r|]; [|injection H as <-; now split].
  destruct (pk_taken pk _ (f r)) eqn:Ep; [discriminate|].
  destruct (ukey_taken ukey K_eqb _ (f r)) eqn:Eu; [discriminate|].
  injection H as <-. split; apply rewrite_row_unique; trivial.
  - exact (taken_others_free pk (pk_taken pk) rows x (f r) pk_taken_In Ep).
  - exact (taken_others_free ukey (ukey_taken ukey K_eqb) rows x (f r) ukey_taken_In Eu).
Qed.

Lemma update_row_conflict rows x f :
  update_conflict pk ukey rows x f ->
  exists c, update_row pk ukey K_eqb pk_name ukey_name rows x f = Err (unique_violation c).
Proof.
  intros [r [y [Hf [Hy [Hne E]]]]]. unfold update_row. rewrite Hf.
  destruct (pk_taken pk _ (f r)); [now eexists|].
  assert (Ht : ukey_taken ukey K_eqb (filter (fun y => negb (pk y =? x)%N) rows) (f r) = true).
  { apply ukey_taken_In. rewrite <- E. apply in_map. apply filter_In.
    split; [exact Hy|]. apply negb_true_iff. now apply N.eqb_neq. }
  rewrite Ht. now eexists.
Qed.

End TableFacts.

Lemma fresh_id_above (l : list uuid) x : In x l -> (x < fresh_id l)%N.
Proof.
  unfold fresh_id. induction l as [|a l IH]; cbn [fold_right In]; [contradiction|].
  intros [-> | H]; [lia|]. specialize (IH H). lia.
Qed.

Lemma fresh_id_not_in (l : list uuid) : ~ In (fresh_id l) l.
Proof. intros H. apply fresh_id_above in H. lia. Qed.

Lemma migrate_profile_roles_unique ps : forall rows,
  unique_on UserRole.id rows -> unique_on user_roles_key rows ->
  unique_on UserRole.id (migrate_profile_roles rows ps)
  /\ unique_on user_roles_key (migrate_profile_roles rows ps).
Proof.
  induction ps as [|p rest IH]; intros rows Hp Hu; simpl; [now split|].
  destruct (Profile.org_id p) as [o|]; [|now apply IH].
  destruct (ukey_taken _ _ rows _) eqn:Et; [now apply IH|].
  apply IH; apply unique_on_snoc; trivial.
  - simpl. apply fresh_id_not_in.
  - intros Hin. apply (ukey_taken_In user_roles_key _ uuid_pair_eqb_eq) in Hin. congruence.
Qed.

Lemma unique_keys_empty : unique_keys empty_db.
Proof. split; constructor. Qed.

(** A statement that succeeds keeps the invariants. *)
Lemma exec_unique_keys s d d' : exec s d = OK d' -> unique_keys d -> unique_keys d'.
Proof.
  intros H [H1 H2 H3 H4 H5 H6].
  destruct s; simpl in H; unfold insert_user_role, update_user_role, insert_project,
    update_project, insert_issue, update_issue, on_table in H.
  - destruct (insert_row _ _ _ _ _ _ _) as [l|] eqn:E; [|discriminate]. injection H as <-.
    destruct (insert_row_unique _ _ _ uuid_pair_eqb_eq _ _ _ _ _ E H1 H2). now split.
  - destruct (update_row _ _ _ _ _ _ _ _) as [l|] eqn:E; [|discriminate]. injection H as <-.
    destruct (update_row_unique _ _ _ uuid_pair_eqb_eq _ _ _ _ _ _ E H1 H2). now split.
  - injection H as <-. split; trivial; simpl; now apply unique_on_filter.
  - destruct (insert_row _ _ _ _ _ _ _) as [l|] eqn:E; [|discriminate]. injection H as <-.
    destruct (insert_row_unique _ _ _ uuid_text_eqb_eq _ _ _ _ _ E H3 H4). now split.
  - destruct (update_row _ _ _ _ _ _ _ _) as [l|] eqn:E; [|discriminate]. injection H as <-.
    destruct (update_row_unique _ _ _ uuid_text_eqb_eq _ _ _ _ _ _ E H3 H4). now split.
  - injection H as <-. split; trivial; simpl; now apply unique_on_filter.
  - destruct (insert_row _ _ _ _ _ _ _) as [l|] eqn:E; [|discriminate]. injection H as <-.
    destruct (insert_row_unique _ _ _ uuid_text_eqb_eq _ _ _ _ _ E H5 H6). now split.
  - destruct (update_row _ _ _ _ _ _ _ _) as [l|] eqn:E; [|discriminate]. injection H as <-.
    destruct (update_row_unique _ _ _ uuid_text_eqb_eq _ _ _ _ _ _ E H5 H6). now split.
  - injection H as <-. split; trivial; simpl; now apply unique_on_filter.
  - injection H as <-.
    destruct (migrate_profile_roles_unique (profiles d) _ H1 H2). now split.
  - injection H as <-. now split.
Qed.

Lemma after_unique_keys s d : unique_keys d -> unique_keys (after s d).
Proof.
  intros H. unfold after. destruct (exec s d) as [d'|e] eqn:E; [|exact H].
  exact (exec_unique_keys s d d' E H).
Qed.

Lemma reachable_unique_keys d : reachable d -> unique_keys d.
Proof.
  induction 1 as [|d s _ IH]; [exact unique_keys_empty | now apply after_unique_keys].
Qed.

Lemma would_violate_fails s d :
  would_violate s d -> exists c, exec s d = Err (unique_violation c).
Proof.
  destruct s; simpl; try contradiction; intros H;
    unfold insert_user_role, update_user_role, insert_project,
      update_project, insert_issue, update_issue.
  - destruct (insert_row_conflict UserRole.id user_roles_key _ uuid_pair_eqb_eq
                "user_roles_pkey" "user_roles_user_id_org_id_key" _ _ H) as [c ->].
    now exists c.
  - destruct (update_row_conflict UserRole.id user_roles_key _ uuid_pair_eqb_eq
                "user_roles_pkey" "user_roles_user_id_org_id_key" _ _ _ H) as [c ->].
    now exists c.
  - destruct (insert_row_conflict Project.id projects_key _ uuid_text_eqb_eq
                "projects_pkey" "projects_org_id_key_key" _ _ H) as [c ->].
    now exists c.
  - destruct (update_row_conflict Project.id projects_key _ uuid_text_eqb_eq
                "projects_pkey" "projects_org_id_key_key" _ _ _ H) as [c ->].
    now exists c.
  - destruct (insert_row_conflict Issue.id issues_key _ uuid_text_eqb_eq
                "issues_pkey" "issues_project_id_issue_key_key" _ _ H) as [c ->].
    now exists c.
  - destruct (update_row_conflict Issue.id issues_key _ uuid_text_eqb_eq
                "issues_pkey" "issues_project_id_issue_key_key" _ _ _ H) as [c ->].
    now exists c.
Qed.

(** Read row by row: two stored rows that agree on the UNIQUE columns are
    one row. *)
Lemma unique_keys_no_two_rows d :
  unique_keys d ->
  (forall a b, In a (issues d) -> In b (issues d) ->
               Issue.project_id a = Issue.project_id b ->
               Issue.issue_key a = Issue.issue_key b -> a = b) /\
  (forall a b, In a (projects d) -> In b (projects d) ->
               Project.org_id a = Project.org_id b ->
               Project.key a = Project.key b -> a = b) /\
  (forall a b, In a (user_roles d) -> In b (user_roles d) ->
               UserRole.user_id a = UserRole.user_id b ->
               UserRole.org_id a = UserRole.org_id b -> a = b).
Proof.
  intros [H1 H2 H3 H4 H5 H6]. repeat split; intros a b Ha Hb E1 E2.
  - apply (PolicyFacts.unique_on_inj issues_key _ a b H6 Ha Hb).
    unfold issues_key. now rewrite E1, E2.
  - apply (PolicyFacts.unique_on_inj projects_key _ a b H4 Ha Hb).
    unfold projects_key. now rewrite E1, E2.
  - apply (PolicyFacts.unique_on_inj user_roles_key _ a b H2 Ha Hb).
    unfold user_roles_key. now rewrite E1, E2.
Qed.

(** C3. In every reachable database state the (project_id, issue_key)
    pairs of [issues], the (org_id, key) pairs of [projects] and the
    (user_id, org_id) pairs of [user_roles] are free of repetitions; and
    an insert or update that would repeat one of them fails with a
    unique violation and leaves the state as it was. *)
Theorem reachable_unique_and_violations_rejected (d : db) (s : statement) :
  reachable d ->
  (unique_on issues_key (issues d) /\
   unique_on projects_key (projects d) /\
   unique_on user_roles_key (user_roles d)) /\
  (would_violate s d ->
   (exists c, exec s d = Err (unique_violation c)) /\ after s d = d).
Proof.
  intros Hr. split.
  - destruct (reachable_unique_keys d Hr). now repeat split.
  - intros Hv. destruct (would_violate_fails s d Hv) as [c Hc].
    split; [now exists c|]. unfold after. now rewrite Hc.
Qed.

Lemma reachable_unique_and_violations_rejected_witness :
  let d := after (InsertIssue first_issue) empty_db in
  issues d = [first_issue] /\
  unique_on issues_key (issues d) /\
  exec (InsertIssue clashing_issue) d
    = Err (unique_violation "issues_project_id_issue_key_key") /\
  after (InsertIssue clashing_issue) d = d.
Proof.
  intros d.
  assert (Hr : reachable d) by (apply reachable_step; apply reachable_empty).
  destruct (reachable_unique_and_violations_rejected d (InsertIssue clashing_issue) Hr)
    as [[Hu _] Hv].
  split; [reflexivity|]. split; [exact Hu|]. split; [reflexivity|].
  apply Hv. exists first_issue. split; [now left | reflexivity].
Defined.

End EngineFacts.

Module IssueKeyFacts.
Import Text Pg Functions CreateIssueDialog Samples MoreSamples.

Example int4in_examples :
  int4in "42" = OK 42 /\ int4in " -7 " = OK (-7) /\ int4in "+08" = OK 8
  /\ int4in "" = Err invalid_text_representation
  /\ int4in "1x" = Err invalid_text_representation
  /\ int4in "2147483647" = OK 2147483647
  /\ int4in "2147483648" = Err numeric_value_out_of_range
  /\ int4in "-2147483648" = OK (-2147483648).
Proof. repeat split. Qed.

Example generate_issue_key_examples :
  generate_issue_key two_orgs_db 100 = OK "FIZ-2"
  /\ generate_issue_key two_orgs_db 7 = Err (raise_exception "Project not found").
Proof. split; reflexivity. Qed.

(** An issue key without digits behind the prefix makes the cast, and with
    it the function, fail. *)
Example generate_issue_key_bad_suffix :
  generate_issue_key
    (Engine.set_issues two_orgs_db [Issue.mk 2000 100 "FIZ-one" "First" 2 []])
    100
  = Err invalid_text_representation.
Proof. reflexivity. Qed.

(** *** The integer input routine stays in range *)

Lemma digit_value_nonneg c : is_digit c = true -> 0 <= digit_value c.
Proof.
  unfold is_digit, between, digit_value. intros H.
  apply andb_prop in H as [H _]. apply N.leb_le in H. lia.
Qed.

Lemma read_digits_nonneg s : forall acc, 0 <= acc -> 0 <= fst (read_digits acc s).
Proof.
  induction s as [|c r IH]; intros acc Ha; cbn [read_digits]; [exact Ha|].
  destruct (is_digit c) eqn:E; [|exact Ha].
  apply IH. pose proof (digit_value_nonneg c E). lia.
Qed.

Lemma digits_to_end_range neg s n :
  digits_to_end neg s = OK n -> int4_min <= n <= int4_max.
Proof.
  unfold digits_to_end. destruct s as [|c r]; [discriminate|].
  destruct (is_digit c); [|discriminate].
  pose proof (read_digits_nonneg (String c r) 0 (Z.le_refl 0)) as Hn.
  destruct (read_digits 0 (String c r)) as [k rest]. simpl in Hn.
  destruct (- int4_min <? k) eqn:Eh; [discriminate|].
  apply Z.ltb_ge in Eh.
  destruct (skip_spaces rest); [|discriminate].
  unfold int4_min, int4_max in *.
  destruct neg.
  - intros [= <-]. lia.
  - destruct (k =? _) eqn:Ek; [discriminate|]. apply Z.eqb_neq in Ek.
    intros [= <-]. lia.
Qed.

Lemma int4in_range s n : int4in s = OK n -> int4_min <= n <= int4_max.
Proof.
  unfold int4in. destruct (skip_spaces s) as [|c r]; [discriminate|].
  destruct c as [[] [] [] [] [] [] [] []]; apply digits_to_end_range.
Qed.

(** *** Keys written by the generators read back as their number *)

Ltac digit_arith :=
  match goal with
  | |- context [digit_value ?c] =>
      let v := eval cbv in (digit_value c) in
      change (digit_value c) with v; lia
  end.

Lemma read_digits_uint_acc d : forall acc : positive,
  read_digits (Z.pos acc) (NilEmpty.string_of_uint d)
  = (Z.pos (Pos.of_uint_acc d acc), EmptyString).
Proof.
  induction d as [|d IH|d IH|d IH|d IH|d IH|d IH|d IH|d IH|d IH|d IH]; intros acc;
    [reflexivity|..];
    cbn [NilEmpty.string_of_uint read_digits Pos.of_uint_acc];
    match goal with
    | |- context [is_digit ?c] => change (is_digit c) with true; cbv iota
    end;
    match goal with
    | |- read_digits ?a _ = (Z.pos (Pos.of_uint_acc _ ?b), _) =>
        replace a with (Z.pos b) by digit_arith
    end;
    apply IH.
Qed.

Lemma read_digits_uint d :
  read_digits 0 (NilEmpty.string_of_uint d) = (Z.of_N (Pos.of_uint d), EmptyString).
Proof.
  induction d as [|d IH|d IH|d IH|d IH|d IH|d IH|d IH|d IH|d IH|d IH];
    [reflexivity | exact IH | ..];
    cbn [NilEmpty.string_of_uint read_digits Pos.of_uint];
    match goal with
    | |- context [is_digit ?c] => change (is_digit c) with true; cbv iota
    end;
    match goal with
    | |- read_digits ?a _ = (Z.of_N (N.pos (Pos.of_uint_acc _ ?b)), _) =>
        replace a with (Z.pos b) by digit_arith
    end;
    apply read_digits_uint_acc.
Qed.

Lemma int4in_digit c r : is_digit c = true -> int4in (String c r) = digits_to_end false (String c r).
Proof.
  intros H. destruct c as [[] [] [] [] [] [] [] []]; cbv in H; try discriminate H;
    reflexivity.
Qed.

(** The decimal text of a number that is not negative: digits only, the
    first of them there, and the number as their value. *)
Lemma decimal_digits z :
  0 <= z ->
  exists c r, decimal z = String c r /\ is_digit c = true
              /\ read_digits 0 (String c r) = (z, EmptyString).
Proof.
  intros Hz. unfold decimal. destruct z as [|p|p]; [| |lia].
  - exists "0"%char, EmptyString. repeat split.
  - pose proof (DecimalZ.of_to (Z.pos p)) as Hv. simpl in Hv |- *.
    unfold Z.of_uint in Hv.
    pose proof (read_digits_uint (Pos.to_uint p)) as Hr. rewrite Hv in Hr.
    unfold NilZero.string_of_uint.
    destruct (Pos.to_uint p) as [|d|d|d|d|d|d|d|d|d|d] eqn:Ed;
      [discriminate Hv | ..]; cbn [NilEmpty.string_of_uint] in Hr |- *;
      do 2 eexists; (split; [reflexivity | split; [reflexivity | exact Hr]]).
Qed.

Lemma int4in_decimal z : 0 <= z <= int4_max -> int4in (decimal z) = OK z.
Proof.
  intros [Hlo Hhi]. destruct (decimal_digits z Hlo) as [c [r [-> [Hc Hr]]]].
  rewrite (int4in_digit c r Hc). unfold digits_to_end. rewrite Hc, Hr.
  unfold int4_max, int4_min in *.
  destruct (_ <? z) eqn:E1; [apply Z.ltb_lt in E1; lia|].
  cbn [skip_spaces].
  destruct (z =? _) eqn:E2; [apply Z.eqb_eq in E2; lia | reflexivity].
Qed.

Lemma drop_prefix a : forall c s, drop (String.length a + 1) (a ++ String c s)%string = s.
Proof. induction a as [|x a IH]; intros c s; simpl; [reflexivity | apply IH]. Qed.

Lemma numeric_suffix_generated key z :
  0 <= z <= int4_max -> numeric_suffix key (key ++ "-" ++ decimal z)%string = OK z.
Proof.
  intros Hz. unfold numeric_suffix, substring_from.
  replace (String.length key + 2 - 1)%nat with (String.length key + 1)%nat by lia.
  change ("-" ++ decimal z)%string with (String "-" (decimal z)).
  rewrite drop_prefix. now apply int4in_decimal.
Qed.

(** *** The MAX aggregate *)

Lemma fold_max_Some ns : forall a,
  fold_left max_step ns (Some a) = Some (fold_left Z.max ns a).
Proof. induction ns as [|n l IH]; intros a; simpl; [reflexivity | apply IH]. Qed.

Lemma fold_max_greatest ns : forall a,
  In (fold_left Z.max ns a) (a :: ns)
  /\ Forall (fun n => n <= fold_left Z.max ns a) (a :: ns).
Proof.
  induction ns as [|n l IH]; intros a; simpl.
  - split; [now left | repeat constructor; lia].
  - destruct (IH (Z.max a n)) as [Hin Hall].
    apply Forall_cons_iff in Hall as [Hm Hl]. split.
    + destruct Hin as [E | Hin]; [|now right; right].
      rewrite <- E. destruct (Z.max_spec a n) as [[_ ->] | [_ ->]]; auto.
    + repeat constructor; trivial; lia.
Qed.

Lemma greatest_or_zero_unique ns m m' :
  greatest_or_zero ns m -> greatest_or_zero ns m' -> m = m'.
Proof.
  intros [[-> ->] | [Hi Ha]] [[E ->] | [Hi' Ha']]; trivial; try discriminate;
    try (subst; contradiction).
  rewrite Forall_forall in Ha, Ha'.
  specialize (Ha _ Hi'). specialize (Ha' _ Hi). lia.
Qed.

Lemma coalesce_sql_max ns : greatest_or_zero ns (coalesce (sql_max ns) 0).
Proof.
  unfold sql_max. destruct ns as [|n l]; [now left|].
  simpl. rewrite fold_max_Some. right. apply fold_max_greatest.
Qed.

(** *** The scan over the project's issues *)

Lemma suffixes_Forall2 key rows ns :
  Forall2 (fun i n => numeric_suffix key (Issue.issue_key i) = OK n) rows ns ->
  suffixes key rows = OK ns.
Proof.
  induction 1 as [|i n rows ns Hi _ IH]; simpl; [reflexivity|].
  now rewrite Hi, IH.
Qed.

Lemma Forall2_in_right {A B} (R : A -> B -> Prop) l l' b :
  Forall2 R l l' -> In b l' -> exists a, In a l /\ R a b.
Proof.
  induction 1 as [|x y l l' Hxy _ IH]; simpl; [contradiction|].
  intros [<- | Hin].
  - exists x. auto.
  - destruct (IH Hin) as [a [Ha Hr]]. exists a. auto.
Qed.

Lemma find_by_id p rows x :
  Engine.unique_on Project.id rows -> In p rows -> Project.id p = x ->
  find (fun q => (Project.id q =? x)%N) rows = Some p.
Proof.
  intros Hu Hin <-. induction rows as [|a l IH]; simpl; [contradiction|].
  destruct (Project.id a =? Project.id p)%N eqn:E.
  - apply N.eqb_eq in E. f_equal.
    apply (PolicyFacts.unique_on_inj Project.id (a :: l) a p Hu); simpl; auto.
  - destruct Hin as [-> | Hin]; [now rewrite N.eqb_refl in E|].
    apply IH; trivial. unfold Engine.unique_on in *. simpl in Hu.
    now apply NoDup_cons_iff in Hu.
Qed.

Lemma find_absent rows x :
  (forall p : Project.row, In p rows -> Project.id p <> x) ->
  find (fun q => (Project.id q =? x)%N) rows = None.
Proof.
  intros H. destruct (find _ rows) as [p|] eqn:E; [|reflexivity].
  apply find_some in E as [Hin Ex]. apply N.eqb_eq in Ex.
  now destruct (H p Hin).
Qed.

(** The result of the function once the project and the suffixes of its
    issue keys are known. *)
Lemma generate_issue_key_found d x p ns m :
  find (fun q => (Project.id q =? x)%N) (projects d) = Some p ->
  Forall2 (fun i n => numeric_suffix (Project.key p) (Issue.issue_key i) = OK n)
          (issues_of d x) ns ->
  greatest_or_zero ns m -> m < int4_max ->
  generate_issue_key d x = OK (Project.key p ++ "-" ++ decimal (m + 1))%string.
Proof.
  intros Hf Hs Hm Hlt. unfold generate_issue_key. rewrite Hf.
  rewrite (suffixes_Forall2 _ _ _ Hs).
  rewrite (greatest_or_zero_unique _ _ _ (coalesce_sql_max ns) Hm).
  assert (Hlo : int4_min <= m).
  { destruct Hm as [[_ ->] | [Hin _]]; [unfold int4_min; lia|].
    destruct (Forall2_in_right _ _ _ _ Hs Hin) as [i [_ Hi]].
    unfold numeric_suffix in Hi. now apply int4in_range in Hi. }
  unfold int4pl.
  assert (Hr : (int4_min <=? m + 1) && (m + 1 <=? int4_max) = true).
  { apply andb_true_intro. split; apply Z.leb_le; lia. }
  now rewrite Hr.
Qed.

Lemma issues_of_In d x i :
  In i (issues_of d x) <-> In i (issues d) /\ Issue.project_id i = x.
Proof.
  unfold issues_of. rewrite filter_In. now rewrite N.eqb_eq.
Qed.

Lemma Forall2_map_right {A B} (R : A -> B -> Prop) (f : A -> B) l :
  (forall a, In a l -> R a (f a)) -> Forall2 R l (map f l).
Proof.
  induction l as [|a l IH]; intros H; simpl; constructor.
  - apply H. now left.
  - apply IH. intros b Hb. apply H. now right.
Qed.

Lemma max_suffix_greatest d x num m :
  max_suffix d x num m -> greatest_or_zero (map num (issues_of d x)) m.
Proof.
  intros [[Hnone ->] | [[i [Hin [Hx Hm]]] Hall]].
  - left. split; [|reflexivity].
    destruct (issues_of d x) as [|i l] eqn:E; [reflexivity|].
    assert (Hi : In i (issues_of d x)) by (rewrite E; now left).
    apply issues_of_In in Hi as [Hi Hx]. now destruct (Hnone i Hi).
  - right. split.
    + rewrite <- Hm. apply in_map. now apply issues_of_In.
    + apply Forall_forall. intros n Hn. apply in_map_iff in Hn as [j [<- Hj]].
      apply issues_of_In in Hj as [Hj Hjx]. now apply Hall.
Qed.

(** The two ways in which the function fails for a project that exists. *)
Example generate_issue_key_failures :
  generate_issue_key bad_key_db 100 = Err invalid_text_representation
  /\ generate_issue_key last_key_db 100 = Err numeric_value_out_of_range.
Proof. split; reflexivity. Qed.

(** C1, as stated, fails: the project exists, and the function returns
    no key.  In [bad_key_db] the one issue of project 100 carries the key
    FIZ-one, and the cast of [one] ends the call; in [last_key_db] the
    greatest suffix is 2147483647, and adding one to it is out of the
    range of [integer]. *)
Lemma generate_issue_key_returns_no_key :
  (exists p, In p (projects bad_key_db) /\ Project.id p = 100%N)
  /\ ~ (exists k, generate_issue_key bad_key_db 100 = OK k)
  /\ ~ (exists k, generate_issue_key last_key_db 100 = OK k).
Proof.
  split; [exists (Project.mk 100 10 "Fizz" "FIZ"); simpl; auto|].
  split; intros [k H]; discriminate H.
Qed.

(** C1, amended.  When no project row has the given id,
    [generate_issue_key] raises 'Project not found'.  When the project
    exists, with key [k], and the text of every issue key of that project
    behind the first [length k + 1] characters reads as an integer, the
    function returns [k], a hyphen and one plus the greatest of the
    integers of that project's issues (one plus zero when the project has
    no issue), as long as that number is still an [integer]. *)
Theorem generate_issue_key_spec (d : db) (p_project_id : uuid)
  (Hpk : Engine.unique_on Project.id (projects d)) :
  ((forall p, In p (projects d) -> Project.id p <> p_project_id) ->
   generate_issue_key d p_project_id = Err (raise_exception "Project not found")) /\
  (forall p (num : Issue.row -> Z) m,
     In p (projects d) -> Project.id p = p_project_id ->
     (forall i, In i (issues d) -> Issue.project_id i = p_project_id ->
                numeric_suffix (Project.key p) (Issue.issue_key i) = OK (num i)) ->
     max_suffix d p_project_id num m -> m < int4_max ->
     generate_issue_key d p_project_id
     = OK (Project.key p ++ "-" ++ decimal (m + 1))%string).
Proof.
  split.
  - intros H. unfold generate_issue_key. now rewrite (find_absent _ _ H).
  - intros p num m Hin Hid Hs Hm Hlt.
    apply (generate_issue_key_found d p_project_id p
             (map num (issues_of d p_project_id)) m); trivial.
    + now apply find_by_id.
    + apply Forall2_map_right. intros i Hi.
      apply issues_of_In in Hi as [Hi Hx]. now apply Hs.
    + now apply max_suffix_greatest.
Qed.

Lemma generate_issue_key_spec_witness :
  generate_issue_key gap_db 7 = Err (raise_exception "Project not found")
  /\ generate_issue_key gap_db 100 = OK "FIZ-4".
Proof.
  assert (Hpk : Engine.unique_on Project.id (projects gap_db)).
  { unfold Engine.unique_on. simpl. repeat constructor. intros []. }
  destruct (generate_issue_key_spec gap_db 7 Hpk) as [Hnone _].
  destruct (generate_issue_key_spec gap_db 100 Hpk) as [_ Hsome].
  split.
  - apply Hnone. simpl. intros p [<- | []]. discriminate.
  - apply (Hsome (Project.mk 100 10 "Fizz" "FIZ") sample_number 3).
    + simpl. auto.
    + reflexivity.
    + simpl. intros i [<- | [<- | []]] _; reflexivity.
    + right. split.
      * exists (Issue.mk 2002 100 "FIZ-3" "Third" 1 []). simpl. auto.
      * simpl. intros i [<- | [<- | []]] _; vm_compute; discriminate.
    + reflexivity.
Defined.

(** *** The client-side generator against the stored function *)

Example generateIssueKey_gap :
  generateIssueKey (projects gap_db) (Some 2) 100 = Some "FIZ-3"%string
  /\ generateIssueKey (projects gap_db) None 100 = Some "FIZ-1"%string
  /\ generateIssueKey [] (Some 2) 100 = None.
Proof. repeat split. Qed.

(** What the dialog holds in a session: the query of [loadProjects] ends
    in the recursion of the policies, the list stays empty and no key is
    generated. *)
Lemma loaded_projects_empty d uid : loaded_projects d uid = [].
Proof.
  unfold loaded_projects, Api.select_projects.
  now rewrite PolicyFacts.from_projects_recursion.
Qed.

Lemma count_issues_null d uid x : Api.count_issues d uid x = None.
Proof.
  unfold Api.count_issues. now rewrite PolicyFacts.from_issues_recursion.
Qed.

(** C2, as stated, fails on [gap_db], where project 100 holds FIZ-1 and
    FIZ-3: with the project in its list and the count 2 of the project's
    issues the client proposes FIZ-3, a key that is taken, while the stored
    function reads the greatest suffix and returns FIZ-4; and with what a
    session is given to read, an empty list, the client produces no key at
    all. *)
Lemma keys_disagree_after_gap :
  ~ keys_agree (projects gap_db) (Some 2) gap_db 100
  /\ ~ keys_agree (loaded_projects gap_db 1) (Api.count_issues gap_db 1 100) gap_db 100.
Proof.
  split; intros [k [Hc Hs]]; vm_compute in Hc, Hs.
  - injection Hc as <-. discriminate Hs.
  - discriminate Hc.
Qed.

(** C2, amended.  When the dialog's project list holds the project under
    its key, the count that the dialog is answered is the number of the
    project's issues, and the greatest numeric suffix among the project's
    issue keys equals that number (as it does when the keys are KEY-1 to
    KEY-n), the client-side generator and [generate_issue_key] produce the
    same key. *)
Theorem keys_agree_when_max_is_count
  (st : list Project.row) (count : option Z) (d : db) (x : uuid)
  (p c : Project.row) (num : Issue.row -> Z) (n : nat) :
  Engine.unique_on Project.id (projects d) ->
  In p (projects d) -> Project.id p = x ->
  find (fun q => (Project.id q =? x)%N) st = Some c -> Project.key c = Project.key p ->
  n = List.length (filter (fun i => (Issue.project_id i =? x)%N) (issues d)) ->
  count = Some (Z.of_nat n) ->
  (forall i, In i (issues d) -> Issue.project_id i = x ->
             numeric_suffix (Project.key p) (Issue.issue_key i) = OK (num i)) ->
  max_suffix d x num (Z.of_nat n) ->
  Z.of_nat n < int4_max ->
  keys_agree st count d x.
Proof.
  intros Hpk Hin Hid Hst Hkey Hn Hcount Hs Hmax Hlt.
  exists (Project.key p ++ "-" ++ decimal (Z.of_nat n + 1))%string.
  split.
  - unfold generateIssueKey. now rewrite Hst, Hkey, Hcount.
  - apply (generate_issue_key_found d x p (map num (issues_of d x))); trivial.
    + now apply find_by_id.
    + apply Forall2_map_right. intros i Hi.
      apply issues_of_In in Hi as [Hi Hx]. now apply Hs.
    + now apply max_suffix_greatest.
Qed.

Lemma sequential_keys_suffixes key n rows :
  map Issue.issue_key rows = sequential_keys key n ->
  Z.of_nat n <= int4_max ->
  Forall2 (fun i m => numeric_suffix key (Issue.issue_key i) = OK m)
          rows (map Z.of_nat (seq 1 n)).
Proof.
  unfold sequential_keys. intros Hk Hn.
  assert (Hb : forall i, In i (seq 1 n) -> 0 <= Z.of_nat i <= int4_max).
  { intros i Hi. apply in_seq in Hi. lia. }
  revert rows Hk Hb. generalize (seq 1 n) as l.
  induction l as [|i l IH]; intros [|r rows] Hk Hb; try discriminate Hk; constructor.
  - injection Hk as -> _. apply numeric_suffix_generated. apply Hb. now left.
  - injection Hk as _ Hk. apply IH; trivial. intros j Hj. apply Hb. now right.
Qed.

Lemma greatest_of_seq n :
  greatest_or_zero (map Z.of_nat (seq 1 n)) (Z.of_nat n).
Proof.
  destruct n as [|n]; [now left|]. right. split.
  - apply in_map. apply in_seq. lia.
  - apply Forall_forall. intros z Hz. apply in_map_iff in Hz as [i [<- Hi]].
    apply in_seq in Hi. lia.
Qed.

(** In a project whose issues carry the keys KEY-1 to KEY-n in the order
    of their creation, both generators give KEY-(n+1) when the dialog
    lists the project and is answered the count [n]. *)
Lemma keys_agree_sequential
  (st : list Project.row) (d : db) (x : uuid) (p c : Project.row) (n : nat) :
  Engine.unique_on Project.id (projects d) ->
  In p (projects d) -> Project.id p = x ->
  find (fun q => (Project.id q =? x)%N) st = Some c -> Project.key c = Project.key p ->
  map Issue.issue_key (issues_of d x) = sequential_keys (Project.key p) n ->
  Z.of_nat n < int4_max ->
  generateIssueKey st (Some (Z.of_nat n)) x
  = Some (Project.key p ++ "-" ++ decimal (Z.of_nat (S n)))%string
  /\ generate_issue_key d x
     = OK (Project.key p ++ "-" ++ decimal (Z.of_nat (S n)))%string.
Proof.
  intros Hpk Hin Hid Hst Hkey Hseq Hlt.
  assert (Hs := sequential_keys_suffixes _ _ _ Hseq (Z.lt_le_incl _ _ Hlt)).
  replace (Z.of_nat (S n)) with (Z.of_nat n + 1) by lia. split.
  - unfold generateIssueKey. now rewrite Hst, Hkey.
  - apply (generate_issue_key_found d x p _ _ (find_by_id p _ x Hpk Hin Hid) Hs);
      [apply greatest_of_seq | exact Hlt].
Qed.

Lemma keys_agree_when_max_is_count_witness :
  keys_agree (projects two_orgs_db) (Some 1) two_orgs_db 100.
Proof.
  apply (keys_agree_when_max_is_count _ _ _ _
           (Project.mk 100 10 "Fizz" "FIZ") (Project.mk 100 10 "Fizz" "FIZ")
           sample_number 1).
  - unfold Engine.unique_on. simpl. repeat constructor. intros [].
  - simpl. auto.
  - reflexivity.
  - reflexivity.
  - reflexivity.
  - reflexivity.
  - reflexivity.
  - simpl. intros i [<- | []] _. reflexivity.
  - right. split.
    + exists (Issue.mk 2000 100 "FIZ-1" "First" 2 []). simpl. auto.
    + simpl. intros i [<- | []] _. vm_compute. discriminate.
  - reflexivity.
Defined.

End IssueKeyFacts.

(** ** Invitations: single use and expiry *)

Module InviteFacts.
Import Text AcceptInvite Samples.

Lemma filter_none {A} (p : A -> bool) (l : list A) :
  (forall a, In a l -> p a = false) -> filter p l = [].
Proof.
  induction l as [|x l IH]; simpl; [trivial|].
  intros H. rewrite (H x (or_introl eq_refl)). apply IH. intros a Ha. apply H. now right.
Qed.

(** A filter whose hits all carry the key of one stored row returns that
    row alone. *)
Lemma filter_single {A K} (key : A -> K) (p : A -> bool) (rows : list A) (a : A) :
  Engine.unique_on key rows -> In a rows -> p a = true ->
  (forall r, In r rows -> p r = true -> key r = key a) ->
  filter p rows = [a].
Proof.
  induction rows as [|x l IH]; [contradiction|].
  intros Hu Hin Hp Hkey.
  assert (Hu' := Hu). unfold Engine.unique_on in Hu'. simpl in Hu'.
  apply NoDup_cons_iff in Hu' as [Hx Hl].
  simpl. destruct (p x) eqn:Epx.
  - assert (x = a) as ->.
    { apply (PolicyFacts.unique_on_inj key (x :: l) x a Hu);
        [now left | exact Hin | apply Hkey; [now left | exact Epx]]. }
    f_equal. apply filter_none. intros r Hr.
    destruct (p r) eqn:Epr; [|reflexivity].
    exfalso. apply Hx. rewrite <- (Hkey r (or_intror Hr) Epr). now apply in_map.
  - destruct Hin as [-> | Hin]; [congruence|].
    apply IH; trivial. intros r Hr. apply Hkey. now right.
Qed.

Lemma is_empty_false s : s <> ""%string -> is_empty s = false.
Proof. destruct s; [congruence | reflexivity]. Qed.

(** The rows that a session is shown are rows of the table. *)
Lemma from_invites_stored d uid active rows :
  Session.from_invites d uid active = OK rows ->
  forall r, In r rows -> In r (invites d).
Proof.
  unfold Session.from_invites.
  destruct (Session.expanding _ _); [intros H; discriminate H|].
  destruct (Session.from_user_roles _ _ _ _) as [roles|];
    [|intros H; discriminate H].
  intros [= <-] r Hr. now apply filter_In in Hr.
Qed.

(** Whatever the lookup returns, an invite it returns is stored, pending
    and carries the token asked for. *)
Lemma select_pending_invite_OK d uid tok inv org :
  Api.select_pending_invite d uid tok = OK (inv, org) ->
  In inv (invites d) /\ Invite.token inv = tok /\ Invite.accepted_at inv = None.
Proof.
  unfold Api.select_pending_invite.
  destruct (Session.from_invites d uid []) as [rows|] eqn:Er;
    [|intros H; discriminate H].
  destruct (Session.from_organizations d uid []) as [orgs|];
    [|intros H; discriminate H].
  destruct (filter _ rows) as [|x [|y l]] eqn:Ef;
    [intros H; discriminate H | | intros H; discriminate H].
  intros [= -> _].
  assert (Hin : In inv [inv]) by now left.
  rewrite <- Ef in Hin. apply filter_In in Hin as [Hin E].
  apply andb_prop in E as [Et Hn]. apply String.eqb_eq in Et.
  split; [exact (from_invites_stored _ _ _ _ Er inv Hin)|].
  split; [exact Et|]. now destruct (Invite.accepted_at inv).
Qed.

(** The lookup of [acceptInvite] reads [invites], whose SELECT policy
    selects from [user_roles]: in a session it ends in the recursion of
    the [user_roles] policy, whatever the token. *)
Lemma select_pending_invite_recursion d uid tok :
  Api.select_pending_invite d uid tok = Err invalid_object_definition.
Proof.
  unfold Api.select_pending_invite.
  now rewrite PolicyFacts.from_invites_recursion.
Qed.

Lemma invites_db_tokens : Engine.unique_on Invite.token (invites invites_db).
Proof.
  unfold Engine.unique_on. simpl. repeat constructor; simpl; intuition discriminate.
Qed.

(** C5. For every stored invite whose [accepted_at] is set, [acceptInvite]
    run with that invite's token by a signed-in user ends in the error
    'Invitation not found or already accepted' and returns the database it
    was given: no profile, [user_roles] row or invite has changed.  The
    token is [UNIQUE] in [invites] and, coming from a link, not empty. *)
Theorem acceptInvite_accepted_invite_rejected
  (backend : Api.mutations) (d : db) (u : auth_user) (inv : Invite.row)
  (now later : timestamptz) :
  Engine.unique_on Invite.token (invites d) ->
  In inv (invites d) ->
  Invite.accepted_at inv <> None ->
  Invite.token inv <> ""%string ->
  acceptInvite backend d (Some u) (Some (Invite.token inv)) now later
  = (d, mk_view error (text "Invitation not found or already accepted") "").
Proof.
  intros Hu Hin Hacc Htok. unfold acceptInvite.
  rewrite (is_empty_false _ Htok).
  destruct (Api.select_pending_invite d (id u) (Invite.token inv))
    as [[inv' org]|e] eqn:Es; [|reflexivity].
  exfalso. apply select_pending_invite_OK in Es as [Hin' [Etok Hpending]].
  assert (inv' = inv) as ->
      by exact (PolicyFacts.unique_on_inj _ _ inv' inv Hu Hin' Hin Etok).
  now apply Hacc.
Qed.

Lemma acceptInvite_accepted_invite_rejected_witness :
  acceptInvite (Api.policy_mutations 3) invites_db
    (Some (mk_user 3 (Some "carl@acme.io"%string))) (Some "tok-a"%string) 950 951
  = (invites_db, mk_view error (text "Invitation not found or already accepted") "").
Proof.
  apply (acceptInvite_accepted_invite_rejected
           (Api.policy_mutations 3) invites_db
           (mk_user 3 (Some "carl@acme.io"%string)) accepted_invite 950 951).
  - exact invites_db_tokens.
  - simpl. auto.
  - discriminate.
  - discriminate.
Defined.

(** C6. For a stored, pending invite whose [expires_at] lies before the
    current time, [acceptInvite] does not report the invitation as
    expired: the lookup of the invite ends in the recursion of the
    policies for every session, so the page shows the state 'error' with
    'Invitation not found or already accepted'.  It returns the database it
    was given: [accepted_at] is still null, no [user_roles] row was
    inserted and the profile's [org_id] is what it was. *)
Theorem acceptInvite_expired_invite_not_found
  (backend : Api.mutations) (d : db) (u : auth_user) (inv : Invite.row)
  (now later : timestamptz) :
  In inv (invites d) ->
  Invite.accepted_at inv = None ->
  Invite.token inv <> ""%string ->
  Invite.expires_at inv < now ->
  acceptInvite backend d (Some u) (Some (Invite.token inv)) now later
  = (d, mk_view error (text "Invitation not found or already accepted") "").
Proof.
  intros _ _ Htok _. unfold acceptInvite.
  rewrite (is_empty_false _ Htok).
  now rewrite select_pending_invite_recursion.
Qed.

Lemma acceptInvite_expired_invite_not_found_witness :
  acceptInvite (Api.policy_mutations 1) invites_db
    (Some (mk_user 1 (Some "ann@acme.io"%string))) (Some "tok-b"%string) 2000 2001
  = (invites_db, mk_view error (text "Invitation not found or already accepted") "").
Proof.
  apply (acceptInvite_expired_invite_not_found
           (Api.policy_mutations 1) invites_db
           (mk_user 1 (Some "ann@acme.io"%string)) expired_invite 2000 2001).
  - simpl. auto.
  - reflexivity.
  - discriminate.
  - reflexivity.
Defined.

(** Whoever asks, and whatever the session can read, an expired invite is
    never written: the database comes back as it was. *)
Lemma acceptInvite_expired_no_write
  (backend : Api.mutations) (d : db) (user : option auth_user) (inv : Invite.row)
  (now later : timestamptz) :
  Engine.unique_on Invite.token (invites d) ->
  In inv (invites d) ->
  Invite.expires_at inv < now ->
  fst (acceptInvite backend d user (Some (Invite.token inv)) now later) = d.
Proof.
  intros Hu Hin Hexp. unfold acceptInvite.
  destruct user as [u|]; [|reflexivity].
  destruct (is_empty (Invite.token inv)); [reflexivity|].
  destruct (Api.select_pending_invite d (id u) (Invite.token inv))
    as [[inv' org]|e] eqn:Es; [|reflexivity].
  apply select_pending_invite_OK in Es as [Hin' [Etok _]].
  assert (inv' = inv) as -> by exact (PolicyFacts.unique_on_inj _ _ inv' inv Hu Hin' Hin Etok).
  apply Z.ltb_lt in Hexp. now rewrite Hexp.
Qed.

(** The same for the invited user 3, who is not yet a member. *)
Example acceptInvite_expired_unseen :
  acceptInvite (Api.policy_mutations 3) invites_db
    (Some (mk_user 3 (Some "carl@acme.io"%string))) (Some "tok-b"%string) 2000 2001
  = (invites_db, mk_view error (text "Invitation not found or already accepted") "").
Proof. reflexivity. Qed.

End InviteFacts.

(** ** Invitations created by the dialog *)

Module CreateInviteFacts.
Import Text CreateInviteDialog Samples.

Example seven_days_ms : seven_days = 604800000.
Proof. reflexivity. Qed.

Lemma rows_from_In readings orgId role user_id emails : forall i n,
  In n (rows_from i readings orgId role user_id emails) ->
  exists j e, In e emails
    /\ n = Api.mk_new_invite orgId (toLowerCase (trim e)) (to_app_role role)
            (randomUUID (readings j)) (now (readings j) + seven_days) user_id.
Proof.
  induction emails as [|e l IH]; intros i n; simpl; [contradiction|].
  intros [<- | Hin].
  - exists i, e. auto.
  - destruct (IH _ _ Hin) as [j [e' [He' ->]]]. exists j, e'. auto.
Qed.

(** A successful insert adds stored versions of the given rows, and
    nothing else. *)
Lemma insert_invites_In uid rows : forall d d',
  Api.insert_invites d uid rows = OK d' ->
  forall iv, In iv (invites d') ->
    In iv (invites d) \/ exists id n, In n rows /\ iv = Api.stored id n.
Proof.
  induction rows as [|n rest IH]; intros d d'; simpl.
  - intros [= <-] iv Hin. now left.
  - destruct (negb _); [discriminate|].
    destruct (existsb _ _); [discriminate|].
    intros H iv Hin. destruct (IH _ _ H iv Hin) as [Hold | [id [m [Hm ->]]]].
    + simpl in Hold. apply in_app_or in Hold as [Hold | [<- | []]]; [now left|].
      right. eexists. exists n. auto.
    + right. exists id, m. auto.
Qed.

Lemma to_app_role_choice r :
  In (to_app_role r) [admin; manager; contributor; viewer] /\ to_app_role r <> owner.
Proof. destruct r; simpl; split; auto; discriminate. Qed.

(** C9. Every row that [handleSubmit] of CreateInviteDialog adds to
    [invites] has a role among admin, manager, contributor and viewer (so
    not owner), the trimmed and lower-cased form of one of the submitted
    addresses as its email, and an [expires_at] exactly seven days (in
    milliseconds) after the clock reading taken when the row was built,
    in the same call that drew its token. *)
Theorem created_invites_shape
  (d : db) (session : option uuid) (orgId : uuid) (emails : list string)
  (role : role_choice) (readings : nat -> reading) (iv : Invite.row) :
  In iv (invites (fst (handleSubmit d session orgId emails role readings))) ->
  ~ In iv (invites d) ->
  In (Invite.role iv) [admin; manager; contributor; viewer]
  /\ Invite.role iv <> owner
  /\ (exists e, In e emails /\ Invite.email iv = toLowerCase (trim e))
  /\ (exists j, Invite.token iv = randomUUID (readings j)
                /\ Invite.expires_at iv = now (readings j) + 7 * 24 * 60 * 60 * 1000).
Proof.
  unfold handleSubmit.
  destruct (filter is_valid emails) as [|e0 l] eqn:Ef; [simpl; contradiction|].
  destruct session as [user_id|]; [|simpl; contradiction].
  cbn [fst].
  destruct (Api.insert_invites d user_id _) as [d'|err] eqn:Ei; [|contradiction].
  intros Hin Hnew.
  destruct (insert_invites_In _ _ _ _ Ei iv Hin) as [Hold | [id [n [Hn ->]]]];
    [contradiction|].
  apply rows_from_In in Hn as [j [e [He ->]]]. simpl.
  destruct (to_app_role_choice role) as [Hr Hno].
  repeat split; trivial.
  - exists e. split; [|reflexivity].
    assert (Hv : In e (filter is_valid emails)) by (rewrite Ef; exact He).
    now apply filter_In in Hv.
  - now exists j.
Qed.

Example handleSubmit_two_invites :
  let '(d', fx) :=
    handleSubmit invites_db (Some 1%N) 10
      ["  Dana@Acme.IO "; "eve@acme.io"; "nobody"] choose_manager two_readings in
  skipn 2 (invites d')
  = [Invite.mk 702 10 "dana@acme.io" manager "0b5c1b0e" 605800000 1 None None;
     Invite.mk 703 10 "eve@acme.io" manager "7d2f9a44" 605800002 1 None None]
  /\ fx = [set_loading true;
           toast "Success" (text "Sent 2 invitations") false;
           reset_form; close_dialog; callback "onSuccess";
           set_loading false].
Proof. split; reflexivity. Qed.

Lemma created_invites_shape_witness :
  let iv := Invite.mk 702 10 "dana@acme.io" manager "0b5c1b0e" 605800000 1 None None in
  In (Invite.role iv) [admin; manager; contributor; viewer]
  /\ Invite.role iv <> owner
  /\ (exists e, In e ["  Dana@Acme.IO "; "eve@acme.io"; "nobody"]%string
                /\ Invite.email iv = toLowerCase (trim e))
  /\ (exists j, Invite.token iv = randomUUID (two_readings j)
                /\ Invite.expires_at iv = now (two_readings j) + 7 * 24 * 60 * 60 * 1000).
Proof.
  apply (created_invites_shape invites_db (Some 1%N) 10
           ["  Dana@Acme.IO "; "eve@acme.io"; "nobody"]%string choose_manager two_readings).
  - vm_compute. auto.
  - simpl. intros [H | [H | []]]; discriminate H.
Defined.

End CreateInviteFacts.

(** ** Where backend errors end up *)

Module ErrorFacts.
Import CallSites.

Example loadIssues_failure :
  BoardPage.loadIssues true (Some network_failure)
  = [console_error "Error loading issues:" network_failure; set_loading false].
Proof. reflexivity. Qed.

Example loadStats_failure :
  Dashboard.loadStats true (Some network_failure) None None = [set_state "stats"].
Proof. reflexivity. Qed.

(** C8, as stated, fails: a failed query of [loadIssues] on the Board
    page is written to the console and nothing is shown. *)
Lemma loadIssues_error_not_toasted :
  effects_on_error Board_loadIssues network_failure
  = [console_error "Error loading issues:" network_failure; set_loading false]
  /\ ~ (forall c e, surfaced_as_toast c e = true).
Proof.
  split; [reflexivity|].
  intros H. specialize (H Board_loadIssues network_failure). discriminate H.
Qed.

(** The entries of [acceptInvite_failure] are what [acceptInvite] does. *)
Lemma acceptInvite_select_failure backend d u tok now later e :
  Text.is_empty tok = false ->
  Api.select_pending_invite d (AcceptInvite.id u) tok = Err e ->
  AcceptInvite.acceptInvite backend d (Some u) (Some tok) now later
  = (d, AcceptInvite.mk_view AcceptInvite.error
          (acceptInvite_failure AcceptInvite_select e) "").
Proof. intros Ht Hs. unfold AcceptInvite.acceptInvite. now rewrite Ht, Hs. Qed.

Lemma acceptInvite_write_failure backend d u tok now later inv org :
  Text.is_empty tok = false ->
  Api.select_pending_invite d (AcceptInvite.id u) tok = OK (inv, org) ->
  (Invite.expires_at inv <? now) = false ->
  AcceptInvite.email_differs (Invite.email inv) (AcceptInvite.email u) = false ->
  forall e,
    (Api.update_profile_org backend (AcceptInvite.id u) (Invite.org_id inv) d = Err e ->
     snd (AcceptInvite.acceptInvite backend d (Some u) (Some tok) now later)
     = AcceptInvite.mk_view AcceptInvite.error
         (acceptInvite_failure AcceptInvite_update_profile e) "") /\
    (forall d1,
       Api.update_profile_org backend (AcceptInvite.id u) (Invite.org_id inv) d = OK d1 ->
       Api.insert_user_role backend (AcceptInvite.id u) (Invite.org_id inv)
         (Invite.role inv) d1 = Err e ->
       snd (AcceptInvite.acceptInvite backend d (Some u) (Some tok) now later)
       = AcceptInvite.mk_view AcceptInvite.error
           (acceptInvite_failure AcceptInvite_insert_role e) "") /\
    (forall d1 d2,
       Api.update_profile_org backend (AcceptInvite.id u) (Invite.org_id inv) d = OK d1 ->
       Api.insert_user_role backend (AcceptInvite.id u) (Invite.org_id inv)
         (Invite.role inv) d1 = OK d2 ->
       Api.mark_invite_accepted backend (Invite.id inv) later (AcceptInvite.id u) d2
       = Err e ->
       snd (AcceptInvite.acceptInvite backend d (Some u) (Some tok) now later)
       = AcceptInvite.mk_view AcceptInvite.error
           (acceptInvite_failure AcceptInvite_mark_accepted e) "").
Proof.
  intros Ht Hs Hexp Hmail e. unfold AcceptInvite.acceptInvite.
  rewrite Ht, Hs, Hexp, Hmail. repeat split.
  - now intros ->.
  - intros d1 -> Hr. now rewrite Hr.
  - intros d1 d2 -> Hr Hm. now rewrite Hr, Hm.
Qed.

Example backlog_failures :
  Backlog.loadProjects true true None (Some network_failure) true false = []
  /\ Backlog.loadProfiles true true None (Some network_failure) = []
  /\ Backlog.loadIssues (Some network_failure) = [].
Proof. repeat split. Qed.

(** C8, amended.  A failed call is answered with a destructive toast
    exactly at these call sites: the insert and the profile update of
    CreateOrgDialog, the inserts of CreateProjectDialog, CreateSprintDialog,
    CreateIssueDialog and CreateInviteDialog, [getUser] of
    CreateInviteDialog, and the load and the update of IssueDetailSheet.
    At every other call site no toast is shown for it: [loadIssues] of the
    Board page writes it to the console, the four calls of [acceptInvite]
    put a message in the page, and the read queries of Dashboard,
    SmartDashboard, Backlog and the dialogs' loaders, and the issue count
    of [generateIssueKey], show nothing. *)
Theorem errors_toasted_at_submit_sites (c : call_site) (e : pg_error) :
  surfaced_as_toast c e = toasts_errors c
  /\ reaction_to c e = answers c.
Proof. destruct c; split; reflexivity. Qed.

End ErrorFacts.

(* ===================================================================== *)
(** * Part III: further properties of the code                            *)
(* ===================================================================== *)

(** ** Keys returned by [generate_issue_key] *)

Module GeneratedKeyFacts.
Import Text Pg Functions Samples IssueKeyFacts.

Lemma int4in_decimal_neg p :
  int4_min <= Z.neg p -> int4in (decimal (Z.neg p)) = OK (Z.neg p).
Proof.
  intros Hlo.
  destruct (decimal_digits (Z.pos p) (Pos2Z.is_nonneg p)) as [c [r [Hd [Hc Hr]]]].
  change (decimal (Z.neg p)) with (String "-" (decimal (Z.pos p))). rewrite Hd.
  change (int4in (String "-" (String c r))) with (digits_to_end true (String c r)).
  unfold digits_to_end. rewrite Hc, Hr. unfold int4_min in *.
  destruct (_ <? Z.pos p) eqn:E; [apply Z.ltb_lt in E; lia|].
  reflexivity.
Qed.

(** The text of an [integer] casts back to it. *)
Lemma int4in_decimal_any z :
  int4_min <= z <= int4_max -> int4in (decimal z) = OK z.
Proof.
  intros [Hlo Hhi]. destruct z as [|p|p].
  - reflexivity.
  - apply int4in_decimal. split; [apply Pos2Z.is_nonneg | exact Hhi].
  - now apply int4in_decimal_neg.
Qed.

Lemma numeric_suffix_written key z :
  int4_min <= z <= int4_max ->
  numeric_suffix key (key ++ "-" ++ decimal z)%string = OK z.
Proof.
  intros Hz. unfold numeric_suffix, substring_from.
  replace (String.length key + 2 - 1)%nat with (String.length key + 1)%nat by lia.
  change ("-" ++ decimal z)%string with (String "-" (decimal z)).
  rewrite drop_prefix. now apply int4in_decimal_any.
Qed.

Lemma suffixes_OK key rows : forall ns,
  suffixes key rows = OK ns ->
  Forall2 (fun i n => numeric_suffix key (Issue.issue_key i) = OK n) rows ns.
Proof.
  induction rows as [|i rows IH]; simpl; intros ns.
  - intros [= <-]. constructor.
  - destruct (numeric_suffix key (Issue.issue_key i)) as [n|] eqn:En; [|discriminate].
    destruct (suffixes key rows) as [l|]; [|discriminate].
    intros [= <-]. constructor; [exact En | now apply IH].
Qed.

Lemma Forall2_in_left {A B} (R : A -> B -> Prop) l l' a :
  Forall2 R l l' -> In a l -> exists b, In b l' /\ R a b.
Proof.
  induction 1 as [|x y l l' Hxy _ IH]; simpl; [contradiction|].
  intros [<- | Hin].
  - exists y. auto.
  - destruct (IH Hin) as [b [Hb Hr]]. exists b. auto.
Qed.

Lemma int4pl_OK a b v : int4pl a b = OK v -> v = a + b /\ int4_min <= v <= int4_max.
Proof.
  unfold int4pl. destruct (_ && _) eqn:E; [|discriminate].
  apply andb_prop in E as [E1 E2]. apply Z.leb_le in E1, E2.
  intros [= <-]. auto.
Qed.

(** What a successful call has computed. *)
Lemma generate_issue_key_OK d x k :
  generate_issue_key d x = OK k ->
  exists p ns m,
    find (fun q => (Project.id q =? x)%N) (projects d) = Some p
    /\ Forall2 (fun i n => numeric_suffix (Project.key p) (Issue.issue_key i) = OK n)
               (issues_of d x) ns
    /\ greatest_or_zero ns m
    /\ int4_min <= m + 1 <= int4_max
    /\ k = (Project.key p ++ "-" ++ decimal (m + 1))%string.
Proof.
  unfold generate_issue_key.
  destruct (find _ (projects d)) as [p|]; [|discriminate].
  destruct (suffixes _ _) as [ns|] eqn:Es; [|discriminate].
  destruct (int4pl _ 1) as [v|] eqn:Ev; [|discriminate].
  intros [= <-]. apply int4pl_OK in Ev as [-> Hr].
  exists p, ns, (coalesce (sql_max ns) 0). repeat split; trivial.
  - now apply suffixes_OK.
  - apply coalesce_sql_max.
  - apply Hr.
  - apply Hr.
Qed.

Lemma generated_key_unused d x k :
  generate_issue_key d x = OK k ->
  forall i, In i (issues d) -> Issue.project_id i = x -> Issue.issue_key i <> k.
Proof.
  intros Hg i Hin Hx Hk.
  destruct (generate_issue_key_OK d x k Hg) as [p [ns [m [_ [Hs [Hm [Hr ->]]]]]]].
  assert (Hi : In i (issues_of d x)) by now apply issues_of_In.
  destruct (Forall2_in_left _ _ _ _ Hs Hi) as [n [Hn En]].
  rewrite Hk, (numeric_suffix_written _ _ Hr) in En. injection En as <-.
  destruct Hm as [[-> _] | [_ Hall]]; [contradiction|].
  rewrite Forall_forall in Hall. specialize (Hall _ Hn). lia.
Qed.

Lemma insert_unused_key d i :
  ~ In (Issue.id i) (map Issue.id (issues d)) ->
  (forall j, In j (issues d) -> Issue.project_id j = Issue.project_id i ->
             Issue.issue_key j <> Issue.issue_key i) ->
  Engine.insert_issue d i = OK (Engine.set_issues d (issues d ++ [i])).
Proof.
  intros Hid Hkey. unfold Engine.insert_issue, Engine.insert_row.
  destruct (Engine.pk_taken Issue.id (issues d) i) eqn:Ep.
  - exfalso. apply Hid. now apply (EngineFacts.pk_taken_In Issue.id).
  - destruct (Engine.ukey_taken _ _ (issues d) i) eqn:Eu; [|reflexivity].
    exfalso. apply (EngineFacts.ukey_taken_In Engine.issues_key _
                      EngineFacts.uuid_text_eqb_eq) in Eu.
    apply in_map_iff in Eu as [j [Ej Hj]]. unfold Engine.issues_key in Ej.
    injection Ej as Ejx Ejk. now apply (Hkey j Hj).
Qed.

(** X1. A key returned by [generate_issue_key] is carried by no issue of
    the project, so an insert of an issue with that key and an unused id
    passes the PRIMARY KEY and [UNIQUE(project_id, issue_key)] checks. *)
Theorem generate_issue_key_fresh (d : db) (x : uuid) (k : string) (i : Issue.row) :
  generate_issue_key d x = OK k ->
  Issue.project_id i = x -> Issue.issue_key i = k ->
  ~ In (Issue.id i) (map Issue.id (issues d)) ->
  (forall j, In j (issues d) -> Issue.project_id j = x -> Issue.issue_key j <> k)
  /\ Engine.insert_issue d i = OK (Engine.set_issues d (issues d ++ [i])).
Proof.
  intros Hg Hx Hk Hid. split; [now apply generated_key_unused|].
  apply insert_unused_key; [exact Hid|].
  intros j Hj Ejx. rewrite Hk. apply (generated_key_unused d x k Hg j Hj). congruence.
Qed.

Lemma generate_issue_key_fresh_witness :
  Engine.insert_issue gap_db (Issue.mk 2003 100 "FIZ-4" "Fourth" 1 [])
  = OK (Engine.set_issues gap_db
          (issues gap_db ++ [Issue.mk 2003 100 "FIZ-4" "Fourth" 1 []])).
Proof.
  apply (generate_issue_key_fresh gap_db 100 "FIZ-4"
           (Issue.mk 2003 100 "FIZ-4" "Fourth" 1 [])); try reflexivity.
  simpl. intros [H | [H | []]]; discriminate H.
Defined.

Lemma issues_of_snoc d x i :
  Issue.project_id i = x ->
  issues_of (Engine.set_issues d (issues d ++ [i])) x = issues_of d x ++ [i].
Proof.
  intros Hx. unfold issues_of. simpl. rewrite filter_app. simpl.
  now rewrite (proj2 (N.eqb_eq _ _) Hx).
Qed.

Lemma Forall2_snoc {A B} (R : A -> B -> Prop) l l' a b :
  Forall2 R l l' -> R a b -> Forall2 R (l ++ [a]) (l' ++ [b]).
Proof. intros H Hab. apply Forall2_app; [exact H | now constructor]. Qed.

Lemma greatest_snoc ns m :
  greatest_or_zero ns m -> greatest_or_zero (ns ++ [m + 1]) (m + 1).
Proof.
  intros Hm. right. split; [apply in_or_app; right; now left|].
  apply Forall_app. split; [|repeat constructor; lia].
  destruct Hm as [[-> _] | [_ Hall]]; [constructor|].
  apply Forall_forall. intros n Hn. rewrite Forall_forall in Hall.
  specialize (Hall _ Hn). lia.
Qed.

Lemma insert_issue_OK d i d' :
  Engine.insert_issue d i = OK d' -> d' = Engine.set_issues d (issues d ++ [i]).
Proof.
  unfold Engine.insert_issue, Engine.insert_row, Engine.on_table.
  destruct (Engine.pk_taken _ _ _); [discriminate|].
  destruct (Engine.ukey_taken _ _ _ _); [discriminate|].
  now intros [= <-].
Qed.

(** X2. After an issue with the returned key has been inserted, the next
    call of [generate_issue_key] for the project returns the same project
    key with the number one higher, as long as that number is still an
    [integer]. *)
Theorem generate_issue_key_next
  (d d' : db) (x : uuid) (p : Project.row) (v : Z) (i : Issue.row) :
  find (fun q => (Project.id q =? x)%N) (projects d) = Some p ->
  generate_issue_key d x = OK (Project.key p ++ "-" ++ decimal v)%string ->
  int4_min <= v < int4_max ->
  Issue.project_id i = x ->
  Issue.issue_key i = (Project.key p ++ "-" ++ decimal v)%string ->
  Engine.insert_issue d i = OK d' ->
  generate_issue_key d' x = OK (Project.key p ++ "-" ++ decimal (v + 1))%string.
Proof.
  intros Hf Hg Hv Hx Hk Hins.
  destruct (generate_issue_key_OK _ _ _ Hg) as [p' [ns [m [Hf' [Hs [Hm [Hr Ek]]]]]]].
  rewrite Hf in Hf'. injection Hf' as <-.
  assert (Hv' : int4_min <= v <= int4_max) by (unfold int4_min, int4_max in *; lia).
  assert (Evm : v = m + 1).
  { pose proof (numeric_suffix_written (Project.key p) v Hv') as E1.
    rewrite Ek, (numeric_suffix_written (Project.key p) (m + 1) Hr) in E1.
    now injection E1. }
  subst v. apply insert_issue_OK in Hins. subst d'.
  apply (generate_issue_key_found _ x p (ns ++ [m + 1]) (m + 1)).
  - exact Hf.
  - rewrite (issues_of_snoc d x i Hx). apply Forall2_snoc; [exact Hs|].
    rewrite Hk. now apply numeric_suffix_written.
  - now apply greatest_snoc.
  - lia.
Qed.

Lemma generate_issue_key_next_witness :
  generate_issue_key
    (Engine.set_issues gap_db
       (issues gap_db ++ [Issue.mk 2003 100 "FIZ-4" "Fourth" 1 []])) 100
  = OK "FIZ-5"%string.
Proof.
  apply (generate_issue_key_next gap_db _ 100 (Project.mk 100 10 "Fizz" "FIZ") 4
           (Issue.mk 2003 100 "FIZ-4" "Fourth" 1 [])); try reflexivity.
  unfold int4_min, int4_max. lia.
Defined.

End GeneratedKeyFacts.

(** ** Issues created through the dialog *)

Module CreateIssueFacts.
Import Text Pg Functions Samples IssueKeyFacts.
Import CreateIssueDialog CreateIssueSubmit.

(** The insert of the dialog is held to "Contributors can create issues",
    whose sub-select reads [projects] and [user_roles] as the session. *)
Lemma insert_issue_recursion d uid r :
  insert_issue d uid r = Err invalid_object_definition.
Proof.
  unfold insert_issue, Session.issues_insert_check.
  now rewrite PolicyFacts.from_projects_recursion.
Qed.

Example handleSubmit_by_a_member :
  handleSubmit (loaded_projects two_orgs_db 1) two_orgs_db (Some 1%N) (Some 100%N)
               "Second"
  = (two_orgs_db,
     [set_loading true; toast "Error" (text "Failed to generate issue key") true;
      set_loading false]).
Proof. reflexivity. Qed.

(** X3. Under the policies of the migrations a submission of the
    create-issue dialog stores nothing, whoever submits and whatever the
    tables hold.  The query of [loadProjects] ends in the recursion of the
    [user_roles] policy and leaves the list empty, so the project is not
    found in it, no key is generated, and the toast says 'Failed to
    generate issue key'; and whatever list the state held, the insert
    itself would be refused for the same reason. *)
Theorem handleSubmit_stores_nothing
  (st : list Project.row) (d : db) (uid pid : uuid) (title : string) :
  fst (handleSubmit st d (Some uid) (Some pid) title) = d
  /\ handleSubmit (loaded_projects d uid) d (Some uid) (Some pid) title
     = (d, [set_loading true;
            toast "Error" (text "Failed to generate issue key") true;
            set_loading false]).
Proof.
  split.
  - unfold handleSubmit.
    destruct (generateIssueKey st _ pid) as [k|]; [|reflexivity].
    now rewrite insert_issue_recursion.
  - unfold handleSubmit. rewrite loaded_projects_empty. reflexivity.
Qed.

End CreateIssueFacts.

(** ** How the policies fit together *)

Module PolicyRelations.
Import Policies Samples MoreSamples PolicyFacts.

Lemma has_role_member d u o r : has_role d u o r = true -> member d u o.
Proof.
  unfold has_role. rewrite existsb_exists. intros [ur [Hin E]].
  apply andb_prop in E as [E _]. apply andb_prop in E as [Eu Eo].
  apply N.eqb_eq in Eu, Eo. now exists ur.
Qed.

Lemma any_role_member d u o (roles : list app_role) :
  existsb (has_role d u o) roles = true -> member d u o.
Proof.
  rewrite existsb_exists. intros [r [_ H]]. now apply has_role_member in H.
Qed.

Lemma get_user_role_has_role d u o r :
  get_user_role d u o = Some r -> has_role d u o r = true.
Proof.
  unfold get_user_role, has_role.
  destruct (filter _ (user_roles d)) as [|x l] eqn:Ef; [discriminate|].
  intros [= <-]. apply existsb_exists. exists x.
  assert (Hx : In x (x :: l)) by now left.
  rewrite <- Ef in Hx. apply filter_In in Hx as [Hx E].
  split; [exact Hx|]. rewrite E. destruct (UserRole.role x); reflexivity.
Qed.

(** X7. Under [UNIQUE(user_id, org_id)] the two role functions agree:
    [has_role] holds for a role exactly when [get_user_role] returns it;
    so a user has at most one role in an organization. *)
Theorem has_role_iff_get_user_role (d : db) (u o : uuid) (r : app_role) :
  Engine.unique_on Engine.user_roles_key (user_roles d) ->
  (has_role d u o r = true <-> get_user_role d u o = Some r)
  /\ (forall r', has_role d u o r = true -> has_role d u o r' = true -> r = r').
Proof.
  intros Hu.
  assert (Hone : forall a, has_role d u o a = true -> get_user_role d u o = Some a).
  { intros a H. unfold has_role in H. apply existsb_exists in H as [ur [Hin E]].
    apply andb_prop in E as [E Er]. apply andb_prop in E as [Eu Eo].
    apply N.eqb_eq in Eu, Eo. apply app_role_eqb_eq in Er.
    unfold get_user_role.
    destruct (filter _ (user_roles d)) as [|x l] eqn:Ef.
    - exfalso. assert (Hx : In ur []); [|exact Hx].
      rewrite <- Ef. apply filter_In. split; [exact Hin|].
      now rewrite (proj2 (N.eqb_eq _ _) Eu), (proj2 (N.eqb_eq _ _) Eo).
    - assert (Hx : In x (x :: l)) by now left.
      rewrite <- Ef in Hx. apply filter_In in Hx as [Hx Ex].
      apply andb_prop in Ex as [Exu Exo]. apply N.eqb_eq in Exu, Exo.
      assert (x = ur) as ->.
      { apply (unique_on_inj _ _ x ur Hu Hx Hin). unfold Engine.user_roles_key.
        congruence. }
      now rewrite Er. }
  split; [split; [apply Hone | apply get_user_role_has_role]|].
  intros r' H H'. apply Hone in H, H'. congruence.
Qed.

Lemma has_role_iff_get_user_role_witness :
  has_role two_orgs_db 1 10 contributor = true
  <-> get_user_role two_orgs_db 1 10 = Some contributor.
Proof.
  apply (has_role_iff_get_user_role two_orgs_db 1 10 contributor).
  unfold Engine.unique_on. simpl. repeat constructor; simpl; intuition discriminate.
Defined.

(** Nobody passes the INSERT policy of [user_roles] for a row of their
    own without holding a row for that organization already, and that row
    makes the insert break [UNIQUE(user_id, org_id)]. *)
Lemma own_role_insert_fails d uid org role :
  exists e, Api.insert_user_role (Api.policy_mutations uid) uid org role d = Err e.
Proof.
  cbn [Api.insert_user_role Api.policy_mutations].
  destruct (user_roles_insert d uid _) eqn:Ep; [|now eexists].
  assert (Hm : member d uid org).
  { unfold user_roles_insert in Ep. cbn [UserRole.org_id] in Ep.
    apply orb_prop in Ep as [H | H]; now apply has_role_member in H. }
  destruct Hm as [ur [Hin [Eu Eo]]].
  unfold Engine.insert_user_role, Engine.insert_row.
  destruct (Engine.pk_taken _ _ _); [now eexists|].
  assert (Et : Engine.ukey_taken Engine.user_roles_key (pair_eqb N.eqb N.eqb)
                 (user_roles d)
                 (UserRole.mk (fresh_id (map UserRole.id (user_roles d))) uid org role)
               = true).
  { apply (EngineFacts.ukey_taken_In Engine.user_roles_key _ EngineFacts.uuid_pair_eqb_eq).
    apply in_map_iff. exists ur. split; [|exact Hin].
    unfold Engine.user_roles_key. simpl. now rewrite Eu, Eo. }
  rewrite Et. now eexists.
Qed.

(** X8. With the INSERT policy of [user_roles] ("Owners and admins can
    insert roles") and [UNIQUE(user_id, org_id)] in force, the insert of a
    [user_roles] row for the signed-in user always fails; so [acceptInvite]
    never ends in the state 'success', whatever the token, the invite and
    the other two writes. *)
Theorem acceptInvite_never_succeeds
  (backend : Api.mutations) (d : db) (u : AcceptInvite.auth_user)
  (token : option string) (now later : timestamptz) :
  Api.insert_user_role backend
  = Api.insert_user_role (Api.policy_mutations (AcceptInvite.id u)) ->
  AcceptInvite.shown (snd (AcceptInvite.acceptInvite backend d (Some u) token now later))
  <> AcceptInvite.success.
Proof.
  intros Hb. unfold AcceptInvite.acceptInvite.
  destruct token as [tok|]; [|discriminate].
  destruct (Text.is_empty tok); [discriminate|].
  destruct (Api.select_pending_invite _ _ _) as [[inv org]|]; [|discriminate].
  destruct (_ <? now); [discriminate|].
  destruct (AcceptInvite.email_differs _ _); [discriminate|].
  destruct (Api.update_profile_org _ _ _ _) as [d1|]; [|discriminate].
  rewrite Hb.
  destruct (own_role_insert_fails d1 (AcceptInvite.id u) (Invite.org_id inv)
              (Invite.role inv)) as [e ->].
  discriminate.
Qed.

Lemma acceptInvite_never_succeeds_witness :
  AcceptInvite.shown
    (snd (AcceptInvite.acceptInvite (Api.policy_mutations 1) open_invites_db
            (Some (AcceptInvite.mk_user 1 (Some "Ann@Acme.io"%string)))
            (Some "tok-c"%string) 2000 2001))
  <> AcceptInvite.success.
Proof.
  apply (acceptInvite_never_succeeds (Api.policy_mutations 1) open_invites_db
           (AcceptInvite.mk_user 1 (Some "Ann@Acme.io"%string))).
  reflexivity.
Defined.

(** A pending, unexpired invite for the address of the user who opens
    the link. *)
Example acceptInvite_valid_invite_fails :
  AcceptInvite.acceptInvite (Api.policy_mutations 1) open_invites_db
    (Some (AcceptInvite.mk_user 1 (Some "Ann@Acme.io"%string)))
    (Some "tok-c"%string) 2000 2001
  = (open_invites_db,
     AcceptInvite.mk_view AcceptInvite.error
       (text "Invitation not found or already accepted") "").
Proof. reflexivity. Qed.

End PolicyRelations.

(** ** Step 7 of the migration: memberships from profiles *)

Module MigrationFacts.
Import Engine Samples MoreSamples Membership.

Lemma migrate_extends ps : forall rows,
  exists extra, migrate_profile_roles rows ps = rows ++ extra.
Proof.
  induction ps as [|p rest IH]; intros rows; simpl.
  - exists []. now rewrite app_nil_r.
  - destruct (Profile.org_id p) as [o|]; [|apply IH].
    destruct (ukey_taken _ _ rows _); [apply IH|].
    destruct (IH (rows ++ [UserRole.mk (fresh_id (map UserRole.id rows))
                             (Profile.id p) o (Profile.role p)])) as [extra ->].
    eexists. now rewrite <- app_assoc.
Qed.

Lemma migrate_keeps ps rows ur : In ur rows -> In ur (migrate_profile_roles rows ps).
Proof.
  intros H. destruct (migrate_extends ps rows) as [extra ->].
  apply in_or_app. now left.
Qed.

Lemma taken_has_pair rows id u o role :
  ukey_taken user_roles_key (pair_eqb N.eqb N.eqb) rows (UserRole.mk id u o role) = true
  <-> has_pair rows u o.
Proof.
  rewrite (EngineFacts.ukey_taken_In user_roles_key _ EngineFacts.uuid_pair_eqb_eq).
  rewrite in_map_iff. unfold user_roles_key, has_pair. simpl.
  split; intros [ur H]; exists ur.
  - destruct H as [E Hin]. injection E as Eu Eo. auto.
  - destruct H as [Hin [Eu Eo]]. split; [congruence | exact Hin].
Qed.

Lemma migrate_covers ps : forall rows p o,
  In p ps -> Profile.org_id p = Some o ->
  has_pair (migrate_profile_roles rows ps) (Profile.id p) o.
Proof.
  induction ps as [|q rest IH]; intros rows p o Hin Ho; [contradiction|].
  simpl. destruct Hin as [-> | Hin].
  - rewrite Ho. destruct (ukey_taken _ _ rows _) eqn:Et.
    + apply taken_has_pair in Et as [ur [Hur E]].
      exists ur. split; [now apply migrate_keeps | exact E].
    + eexists. split; [apply migrate_keeps; apply in_or_app; right; now left|].
      split; reflexivity.
  - destruct (Profile.org_id q) as [o'|]; [|now apply IH].
    destruct (ukey_taken _ _ rows _); now apply IH.
Qed.

Lemma migrate_own_role ps : forall rows p o,
  unique_on Profile.id ps -> In p ps -> Profile.org_id p = Some o ->
  ~ has_pair rows (Profile.id p) o ->
  exists ur, In ur (migrate_profile_roles rows ps)
             /\ UserRole.user_id ur = Profile.id p /\ UserRole.org_id ur = o
             /\ UserRole.role ur = Profile.role p.
Proof.
  induction ps as [|q rest IH]; intros rows p o Hu Hin Ho Hfree; [contradiction|].
  unfold unique_on in Hu. simpl in Hu. apply NoDup_cons_iff in Hu as [Hq Hrest].
  simpl. destruct Hin as [-> | Hin].
  - rewrite Ho. destruct (ukey_taken _ _ rows _) eqn:Et.
    + apply taken_has_pair in Et. contradiction.
    + eexists. split; [apply migrate_keeps; apply in_or_app; right; now left|].
      repeat split.
  - assert (Hne : Profile.id q <> Profile.id p).
    { intros E. apply Hq. rewrite E. now apply in_map. }
    destruct (Profile.org_id q) as [o'|]; [|now apply IH].
    destruct (ukey_taken _ _ rows _); [now apply IH|].
    apply IH; trivial. intros [ur [Hur [Eu Eo]]].
    apply in_app_or in Hur as [Hur | [<- | []]].
    + apply Hfree. now exists ur.
    + simpl in Eu. contradiction.
Qed.

(** X9. After step 7 every profile that names an organization has a
    [user_roles] row for it; where none was there before, the row carries
    the role of the profile.  Rows that were there stay as they are. *)
Theorem migration_gives_every_profile_a_role
  (rows : list UserRole.row) (ps : list Profile.row) (p : Profile.row) (o : uuid) :
  unique_on Profile.id ps ->
  In p ps -> Profile.org_id p = Some o ->
  has_pair (migrate_profile_roles rows ps) (Profile.id p) o
  /\ (~ has_pair rows (Profile.id p) o ->
      exists ur, In ur (migrate_profile_roles rows ps)
                 /\ UserRole.user_id ur = Profile.id p /\ UserRole.org_id ur = o
                 /\ UserRole.role ur = Profile.role p)
  /\ (forall ur, In ur rows -> In ur (migrate_profile_roles rows ps)).
Proof.
  intros Hu Hin Ho. split; [now apply migrate_covers|]. split.
  - now apply migrate_own_role.
  - intros ur. apply migrate_keeps.
Qed.

Lemma migration_gives_every_profile_a_role_witness :
  has_pair (migrate_profile_roles legacy_roles legacy_profiles) 1 10
  /\ exists ur, In ur (migrate_profile_roles legacy_roles legacy_profiles)
                /\ UserRole.user_id ur = 1%N /\ UserRole.org_id ur = 10%N
                /\ UserRole.role ur = owner.
Proof.
  destruct (migration_gives_every_profile_a_role legacy_roles legacy_profiles
              (Profile.mk 1 (Some 10%N) "ann@acme.io" owner) 10) as [H1 [H2 _]].
  - unfold unique_on. simpl. repeat constructor; simpl; intuition discriminate.
  - simpl. auto.
  - reflexivity.
  - split; [exact H1|]. apply H2.
    intros [ur [[<- | []] [Eu _]]]. discriminate Eu.
Defined.

Example migration_keeps_existing_role :
  map (fun ur => (UserRole.user_id ur, UserRole.role ur))
      (migrate_profile_roles legacy_roles legacy_profiles)
  = [(2%N, admin); (1%N, owner)].
Proof. reflexivity. Qed.

Lemma migrate_nothing_to_do ps : forall rows,
  (forall p o, In p ps -> Profile.org_id p = Some o -> has_pair rows (Profile.id p) o) ->
  migrate_profile_roles rows ps = rows.
Proof.
  induction ps as [|q rest IH]; intros rows H; simpl; [reflexivity|].
  assert (Hrest : forall p o, In p rest -> Profile.org_id p = Some o ->
                              has_pair rows (Profile.id p) o).
  { intros p o Hp. apply H. now right. }
  destruct (Profile.org_id q) as [o|] eqn:Eo; [|now apply IH].
  assert (Et : ukey_taken user_roles_key (pair_eqb N.eqb N.eqb) rows
                 (UserRole.mk (fresh_id (map UserRole.id rows)) (Profile.id q) o
                              (Profile.role q)) = true).
  { apply taken_has_pair. apply H; [now left | exact Eo]. }
  rewrite Et. now apply IH.
Qed.

(** X10. Step 7 can be run again without effect: a second run adds no row
    and changes none. *)
Theorem migration_idempotent (d : db) :
  after MigrateProfileRoles (after MigrateProfileRoles d)
  = after MigrateProfileRoles d.
Proof.
  unfold after. cbn [exec]. unfold set_user_roles. cbn [user_roles profiles
    organizations projects sprints issues boards invites deployments].
  f_equal. apply migrate_nothing_to_do. intros p o Hp Ho.
  now apply migrate_covers.
Qed.

End MigrationFacts.

(** ** More on invitations *)

Module InviteMoreFacts.
Import Text Samples MoreSamples AcceptInvite CreateInviteDialog.

(** *** What the dialog stores *)

Lemma insert_invites_frame uid rows : forall d d',
  Api.insert_invites d uid rows = OK d' ->
  List.length (invites d') = (List.length (invites d) + List.length rows)%nat
  /\ user_roles d' = user_roles d /\ profiles d' = profiles d
  /\ organizations d' = organizations d.
Proof.
  induction rows as [|n rest IH]; intros d d'; simpl.
  - intros [= <-]. repeat split. lia.
  - destruct (negb _); [discriminate|].
    destruct (existsb _ _); [discriminate|].
    intros H. apply IH in H as [Hl [Hr [Hp Ho]]]. simpl in Hl, Hr, Hp, Ho.
    rewrite length_app in Hl. simpl in Hl. repeat split; trivial. lia.
Qed.

Lemma token_taken_In (l : list Invite.row) tok :
  existsb (fun iv => String.eqb (Invite.token iv) tok) l = true
  <-> In tok (map Invite.token l).
Proof.
  rewrite existsb_exists, in_map_iff. split; intros [iv [H1 H2]]; exists iv.
  - apply String.eqb_eq in H2. auto.
  - split; [exact H2 | now apply String.eqb_eq].
Qed.

Lemma insert_invites_unique uid rows : forall d d',
  Api.insert_invites d uid rows = OK d' ->
  Engine.unique_on Invite.token (invites d) -> Engine.unique_on Invite.id (invites d) ->
  Engine.unique_on Invite.token (invites d') /\ Engine.unique_on Invite.id (invites d').
Proof.
  induction rows as [|n rest IH]; intros d d'; simpl.
  - intros [= <-]. auto.
  - destruct (negb _); [discriminate|].
    destruct (existsb _ _) eqn:Et; [discriminate|].
    intros H Ht Hi. apply (IH _ _ H); simpl.
    + apply (EngineFacts.unique_on_snoc (row:=Invite.row)); [exact Ht|].
      intros Hin. apply token_taken_In in Hin. simpl in Hin. congruence.
    + apply (EngineFacts.unique_on_snoc (row:=Invite.row)); [exact Hi|].
      simpl. apply EngineFacts.fresh_id_not_in.
Qed.

Lemma insert_invites_new uid rows : forall d d',
  Api.insert_invites d uid rows = OK d' ->
  forall iv, In iv (invites d') ->
    In iv (invites d) \/ exists id n, In n rows /\ iv = Api.stored id n.
Proof.
  induction rows as [|n rest IH]; intros d d'; simpl.
  - intros [= <-] iv Hin. now left.
  - destruct (negb _); [discriminate|].
    destruct (existsb _ _); [discriminate|].
    intros H iv Hin. destruct (IH _ _ H iv Hin) as [Hold | [id [m [Hm ->]]]].
    + simpl in Hold. apply in_app_or in Hold as [Hold | [<- | []]]; [now left|].
      right. eexists. exists n. auto.
    + right. exists id, m. auto.
Qed.

Lemma rows_from_length readings orgId role user_id emails : forall i,
  List.length (rows_from i readings orgId role user_id emails) = List.length emails.
Proof. induction emails as [|e l IH]; intros i; simpl; [reflexivity | now rewrite IH]. Qed.

Lemma rows_from_fields readings orgId role user_id emails : forall i n,
  In n (rows_from i readings orgId role user_id emails) ->
  Api.org_id n = orgId /\ Api.created_by n = user_id
  /\ exists e, In e emails /\ Api.email n = toLowerCase (trim e).
Proof.
  induction emails as [|e l IH]; intros i n; simpl; [contradiction|].
  intros [<- | Hin]; simpl.
  - repeat split. exists e. auto.
  - destruct (IH _ _ Hin) as [Ho [Hc [e' [He' Ee]]]]. repeat split; trivial.
    exists e'. auto.
Qed.

(** What a submission with a user leads to. *)
Lemma handleSubmit_cases d uid orgId emails role readings :
  let d' := fst (handleSubmit d (Some uid) orgId emails role readings) in
  d' = d \/
  Api.insert_invites d uid
    (rows_from 0 readings orgId role uid (filter is_valid emails)) = OK d'.
Proof.
  unfold handleSubmit.
  destruct (filter is_valid emails) as [|e l] eqn:Ef; [now left|].
  cbn [fst]. destruct (Api.insert_invites d uid _) as [d'|] eqn:Ei; [now right | now left].
Qed.

(** X11. A submission of the invite dialog either leaves the database as
    it was or adds exactly one invite per valid address; the added invites
    are pending, belong to the organization of the dialog and name the
    signed-in user as creator; the tokens and ids of [invites] stay free of
    repetitions, and no other table changes. *)
Theorem handleSubmit_adds_pending_invites
  (d : db) (uid orgId : uuid) (emails : list string) (role : role_choice)
  (readings : nat -> reading) :
  Engine.unique_on Invite.token (invites d) ->
  Engine.unique_on Invite.id (invites d) ->
  let d' := fst (handleSubmit d (Some uid) orgId emails role readings) in
  (d' = d \/ List.length (invites d')
             = (List.length (invites d) + List.length (filter is_valid emails))%nat)
  /\ Engine.unique_on Invite.token (invites d')
  /\ Engine.unique_on Invite.id (invites d')
  /\ user_roles d' = user_roles d /\ profiles d' = profiles d
  /\ (forall iv, In iv (invites d') -> ~ In iv (invites d) ->
        Invite.accepted_at iv = None /\ Invite.accepted_by iv = None
        /\ Invite.org_id iv = orgId /\ Invite.created_by iv = uid).
Proof.
  intros Ht Hi d'.
  destruct (handleSubmit_cases d uid orgId emails role readings) as [E | E];
    fold d' in E.
  - rewrite E. split; [now left|]. do 4 (split; [trivial|]).
    intros iv Hin Hn. contradiction.
  - destruct (insert_invites_frame _ _ _ _ E) as [Hl [Hr [Hp _]]].
    destruct (insert_invites_unique _ _ _ _ E Ht Hi) as [Ht' Hi'].
    rewrite rows_from_length in Hl.
    split; [now right|]. do 4 (split; [trivial|]).
    intros iv Hin Hnew.
    destruct (insert_invites_new _ _ _ _ E iv Hin) as [Hold | [id [n [Hn ->]]]];
      [contradiction|].
    apply rows_from_fields in Hn as [Ho [Hc _]]. simpl. auto.
Qed.

Lemma handleSubmit_adds_pending_invites_witness :
  let d' := fst (handleSubmit invites_db (Some 1%N) 10
                   ["  Dana@Acme.IO "; "eve@acme.io"; "nobody"]%string
                   choose_manager two_readings) in
  List.length (invites d') = 4%nat
  /\ Engine.unique_on Invite.token (invites d').
Proof.
  destruct (handleSubmit_adds_pending_invites invites_db 1 10
              ["  Dana@Acme.IO "; "eve@acme.io"; "nobody"]%string
              choose_manager two_readings) as [_ [Ht _]].
  - exact InviteFacts.invites_db_tokens.
  - unfold Engine.unique_on. simpl. repeat constructor; simpl; intuition discriminate.
  - split; [reflexivity | exact Ht].
Defined.

(** X12. A signed-in user who is neither owner, admin nor manager of the
    organization cannot invite: with at least one valid address the
    submission stores nothing and shows the policy violation as an error
    toast. *)
Theorem handleSubmit_without_role
  (d : db) (uid orgId : uuid) (emails : list string) (role : role_choice)
  (readings : nat -> reading) :
  filter is_valid emails <> [] ->
  Policies.has_role d uid orgId owner = false ->
  Policies.has_role d uid orgId admin = false ->
  Policies.has_role d uid orgId manager = false ->
  handleSubmit d (Some uid) orgId emails role readings
  = (d, [set_loading true;
         toast "Error" (message_or (rls_violation "invites")
                                   "Failed to send invitations") true;
         set_loading false]).
Proof.
  intros Hv Ho Ha Hm. unfold handleSubmit.
  destruct (filter is_valid emails) as [|e l]; [congruence|].
  cbn [rows_from Api.insert_invites]. unfold Policies.invites_insert.
  cbn [Api.stored Invite.org_id Api.org_id]. rewrite Ho, Ha, Hm. reflexivity.
Qed.

Lemma handleSubmit_without_role_witness :
  handleSubmit invites_db (Some 3%N) 10 ["dana@acme.io"%string] choose_viewer two_readings
  = (invites_db,
     [set_loading true;
      toast "Error" (message_or (rls_violation "invites")
                                "Failed to send invitations") true;
      set_loading false]).
Proof.
  apply (handleSubmit_without_role invites_db 3 10 ["dana@acme.io"%string]
           choose_viewer two_readings); try reflexivity.
  discriminate.
Defined.

(** *** Addresses *)

Ltac by_char c := destruct c as [[] [] [] [] [] [] [] []]; cbv; congruence.

Lemma at_not_space c : Ascii.eqb c "@" = true -> js_space c = false.
Proof. by_char c. Qed.

Lemma at_lower c : Ascii.eqb c "@" = true -> Ascii.eqb (lower_char c) "@" = true.
Proof. by_char c. Qed.

Lemma lower_char_twice c : lower_char (lower_char c) = lower_char c.
Proof. by_char c. Qed.

Lemma includes_at_trimStart s :
  includes_char "@" s = true -> includes_char "@" (trimStart s) = true.
Proof.
  induction s as [|c r IH]; simpl; [trivial|].
  intros H. destruct (js_space c) eqn:Es; [|exact H].
  apply IH. destruct (Ascii.eqb c "@") eqn:E; [|exact H].
  apply at_not_space in E. congruence.
Qed.

Lemma includes_at_trimEnd s :
  includes_char "@" s = true -> includes_char "@" (trimEnd s) = true.
Proof.
  induction s as [|c r IH]; [trivial|].
  cbn [includes_char trimEnd]. intros H.
  destruct (Ascii.eqb c "@") eqn:E.
  - destruct (trimEnd r); [|cbn [includes_char]; now rewrite E].
    rewrite (at_not_space c E). cbn [includes_char]. now rewrite E.
  - simpl in H. specialize (IH H).
    destruct (trimEnd r) as [|x y]; [discriminate IH|].
    cbn [includes_char]. rewrite E. exact IH.
Qed.

Lemma includes_at_toLowerCase s :
  includes_char "@" s = true -> includes_char "@" (toLowerCase s) = true.
Proof.
  induction s as [|c r IH]; simpl; [trivial|].
  intros H. apply orb_prop in H as [H | H].
  - now rewrite (at_lower c H).
  - rewrite (IH H). apply orb_true_r.
Qed.

Lemma toLowerCase_twice s : toLowerCase (toLowerCase s) = toLowerCase s.
Proof.
  induction s as [|c r IH]; simpl; [reflexivity|].
  now rewrite lower_char_twice, IH.
Qed.

(** X13. The address stored with an invite created by the dialog still
    contains an [@], so it is never empty. *)
Theorem created_invite_email_has_at
  (d : db) (uid orgId : uuid) (emails : list string) (role : role_choice)
  (readings : nat -> reading) (iv : Invite.row) :
  In iv (invites (fst (handleSubmit d (Some uid) orgId emails role readings))) ->
  ~ In iv (invites d) ->
  includes_char "@" (Invite.email iv) = true /\ Invite.email iv <> ""%string.
Proof.
  intros Hin Hnew.
  destruct (handleSubmit_cases d uid orgId emails role readings) as [E | E].
  - rewrite E in Hin. contradiction.
  - destruct (insert_invites_new _ _ _ _ E iv Hin) as [Hold | [id [n [Hn ->]]]];
      [contradiction|].
    apply rows_from_fields in Hn as [_ [_ [e [He Ee]]]]. simpl. rewrite Ee.
    apply filter_In in He as [_ Hv]. unfold is_valid in Hv.
    apply andb_prop in Hv as [_ Hat].
    assert (H : includes_char "@" (toLowerCase (trim e)) = true).
    { apply includes_at_toLowerCase. unfold trim.
      now apply includes_at_trimEnd, includes_at_trimStart. }
    split; [exact H|]. intros E0. rewrite E0 in H. discriminate H.
Qed.

Lemma created_invite_email_has_at_witness :
  includes_char "@" "dana@acme.io" = true /\ "dana@acme.io"%string <> ""%string.
Proof.
  apply (created_invite_email_has_at invites_db 1 10
           ["  Dana@Acme.IO "; "eve@acme.io"; "nobody"]%string choose_manager two_readings
           (Invite.mk 702 10 "dana@acme.io" manager "0b5c1b0e" 605800000 1 None None)).
  - vm_compute. auto.
  - simpl. intros [H | [H | []]]; discriminate H.
Defined.

(** X14. The email check of [acceptInvite] lets an invite through exactly
    when the signed-in user's address, lower-cased, is the address stored
    by the invite dialog; in particular for the submitted address itself,
    trimmed, in any letter case. *)
Theorem stored_address_matches (e : string) :
  (forall e', email_differs (toLowerCase (trim e)) (Some e') = false
              <-> toLowerCase e' = toLowerCase (trim e))
  /\ email_differs (toLowerCase (trim e)) (Some (trim e)) = false
  /\ email_differs (toLowerCase (trim e)) None = true.
Proof.
  assert (H : forall e', email_differs (toLowerCase (trim e)) (Some e') = false
                         <-> toLowerCase e' = toLowerCase (trim e)).
  { intros e'. unfold email_differs. rewrite toLowerCase_twice.
    rewrite negb_false_iff, String.eqb_eq. split; congruence. }
  repeat split; try apply H; trivial.
Qed.

(** X15. No invitation can be accepted through the page: for every
    database, signed-in user and token of a link, also for a pending,
    unexpired invite sent to the address of that user, [acceptInvite]
    answers 'Invitation not found or already accepted' and writes nothing.
    The lookup is a SELECT on [invites], whose policy selects from
    [user_roles], and ends in the recursion of the [user_roles] policy. *)
Theorem acceptInvite_finds_no_invite
  (backend : Api.mutations) (d : db) (u : auth_user) (tok : string)
  (now later : timestamptz) :
  tok <> ""%string ->
  acceptInvite backend d (Some u) (Some tok) now later
  = (d, mk_view error (text "Invitation not found or already accepted") "").
Proof.
  intros Htok. unfold acceptInvite.
  rewrite (InviteFacts.is_empty_false _ Htok).
  now rewrite InviteFacts.select_pending_invite_recursion.
Qed.

Lemma acceptInvite_finds_no_invite_witness :
  In (Invite.mk 702 10 "ann@acme.io" viewer "tok-c" 9000 1 None None)
     (invites open_invites_db)
  /\ email_differs "ann@acme.io" (Some "Ann@Acme.io"%string) = false
  /\ acceptInvite (Api.policy_mutations 1) open_invites_db
       (Some (mk_user 1 (Some "Ann@Acme.io"%string))) (Some "tok-c"%string) 2000 2001
     = (open_invites_db,
        mk_view error (text "Invitation not found or already accepted") "").
Proof.
  split; [simpl; auto|]. split; [reflexivity|].
  apply (acceptInvite_finds_no_invite (Api.policy_mutations 1) open_invites_db
           (mk_user 1 (Some "Ann@Acme.io"%string)) "tok-c" 2000 2001).
  discriminate.
Defined.

End InviteMoreFacts.

(** ** Project keys *)

Module ProjectKeyFacts.
Import Text CreateProjectKey.

Example generateKey_examples :
  generateKey "Website Redesign" = "WEBSI"%string
  /\ generateKey "q3" = "Q3"%string
  /\ generateKey "--" = ""%string.
Proof. repeat split. Qed.

Local Abbreviation kept s := (filter is_upper_alnum (toUpperCase s)).

Lemma upper_alnum_bounds u :
  is_upper_alnum u = true -> (48 <= u <= 57 \/ 65 <= u <= 90)%N.
Proof.
  unfold is_upper_alnum. intros H. apply orb_prop in H as [H | H];
    apply andb_prop in H as [H1 H2]; apply N.leb_le in H1, H2; lia.
Qed.

Lemma code_of_unit u : (u < 256)%N -> code (ascii_of_N u) = u.
Proof. apply N_ascii_embedding. Qed.

Lemma upper_alnum_char u :
  is_upper_alnum u = true ->
  is_upper (ascii_of_N u) || is_digit (ascii_of_N u) = true.
Proof.
  intros H. pose proof (upper_alnum_bounds u H) as Hb.
  unfold is_upper, is_digit, between. rewrite code_of_unit by lia.
  destruct Hb as [[H1 H2] | [H1 H2]]; apply N.leb_le in H1, H2; rewrite H1, H2;
    [apply orb_true_r | reflexivity].
Qed.

Lemma upper_units_fixed u :
  is_upper_alnum u = true -> upper_units (ascii_of_N u) = [u].
Proof.
  intros H. pose proof (upper_alnum_bounds u H) as Hb.
  unfold upper_units, is_lower, between. rewrite code_of_unit by lia.
  replace (97 <=? u)%N with false by (symmetry; apply N.leb_gt; lia).
  replace (u =? 223)%N with false by (symmetry; apply N.eqb_neq; lia).
  replace (u =? 181)%N with false by (symmetry; apply N.eqb_neq; lia).
  replace (u =? 255)%N with false by (symmetry; apply N.eqb_neq; lia).
  replace (224 <=? u)%N with false by (symmetry; apply N.leb_gt; lia).
  reflexivity.
Qed.

Lemma toUpperCase_text_of l :
  Forall (fun u => is_upper_alnum u = true) l -> toUpperCase (text_of l) = l.
Proof.
  induction 1 as [|u l Hu _ IH]; simpl; [reflexivity|].
  now rewrite (upper_units_fixed u Hu), IH.
Qed.

Lemma filter_all {A} (p : A -> bool) l :
  Forall (fun a => p a = true) l -> filter p l = l.
Proof.
  induction 1 as [|a l Ha _ IH]; simpl; [reflexivity|]. now rewrite Ha, IH.
Qed.

Lemma kept_all s : Forall (fun u => is_upper_alnum u = true) (kept s).
Proof. apply Forall_forall. intros u Hu. now apply filter_In in Hu. Qed.

Lemma Forall_firstn {A} (P : A -> Prop) n l : Forall P l -> Forall P (firstn n l).
Proof.
  intros H. revert n. induction H as [|a l Ha _ IH]; intros [|n]; simpl;
    constructor; auto.
Qed.

Lemma text_of_length l : String.length (text_of l) = List.length l.
Proof. induction l as [|u l IH]; simpl; [reflexivity | now rewrite IH]. Qed.

Lemma text_of_chars l :
  Forall (fun u => is_upper_alnum u = true) l ->
  CreateOrgDialog.all_chars (fun c => is_upper c || is_digit c) (text_of l) = true.
Proof.
  induction 1 as [|u l Hu _ IH]; simpl; [reflexivity|].
  now rewrite (upper_alnum_char u Hu), IH.
Qed.

(** X16. [generateKey] returns at most five characters, all of them
    capital letters or digits, and returns its own output unchanged; the
    upper-casing that [handleSubmit] applies to the key leaves such a key
    as it is. *)
Theorem generateKey_shape (name : string) :
  (String.length (generateKey name) <= 5)%nat
  /\ CreateOrgDialog.all_chars (fun c => is_upper c || is_digit c) (generateKey name) = true
  /\ generateKey (generateKey name) = generateKey name
  /\ text_of (toUpperCase (generateKey name)) = generateKey name.
Proof.
  unfold generateKey.
  assert (Hall : Forall (fun u => is_upper_alnum u = true) (firstn 5 (kept name))).
  { apply Forall_firstn, kept_all. }
  assert (Hlen : (List.length (firstn 5 (kept name)) <= 5)%nat) by apply firstn_le_length.
  repeat split.
  - now rewrite text_of_length.
  - now apply text_of_chars.
  - rewrite (toUpperCase_text_of _ Hall), (filter_all _ _ Hall).
    now rewrite firstn_all2.
  - now rewrite (toUpperCase_text_of _ Hall).
Qed.

(** *** Typing a name *)

Lemma toUpperCase_app a b : toUpperCase (a ++ b) = toUpperCase a ++ toUpperCase b.
Proof.
  induction a as [|c a IH]; simpl; [reflexivity|]. now rewrite IH, app_assoc.
Qed.

Lemma kept_app a b : kept (a ++ b) = kept a ++ kept b.
Proof. now rewrite toUpperCase_app, filter_app. Qed.

Lemma upper_units_short c : (List.length (upper_units c) <= 2)%nat.
Proof.
  unfold upper_units.
  repeat match goal with |- context [if ?b then _ else _] => destruct b end;
    simpl; lia.
Qed.

Lemma kept_char c : (List.length (kept (String c EmptyString)) <= 2)%nat.
Proof.
  simpl. rewrite app_nil_r.
  pose proof (filter_length_le is_upper_alnum (upper_units c)).
  pose proof (upper_units_short c). lia.
Qed.

Lemma generateKey_empty s : generateKey s = ""%string -> kept s = [].
Proof.
  unfold generateKey. destruct (kept s) as [|u l]; [trivial|].
  discriminate.
Qed.

Lemma is_empty_true s : is_empty s = true -> s = ""%string.
Proof. destruct s; [trivial | discriminate]. Qed.

Lemma string_app_assoc (a b c : string) : ((a ++ b) ++ c = a ++ (b ++ c))%string.
Proof. induction a as [|x a IH]; simpl; [reflexivity | now rewrite IH]. Qed.

Lemma kept_empty_key s : kept s = [] -> generateKey s = ""%string.
Proof. unfold generateKey. now intros ->. Qed.

Lemma typing_key r : forall pre f,
  typed_so_far f pre ->
  typed_so_far (fold_left handleNameChange (map (String.append pre) (prefixes r)) f)
               (pre ++ r)%string.
Proof.
  induction r as [|c r IH]; intros pre f Hinv.
  - cbn [prefixes map fold_left].
    assert (E : (pre ++ "")%string = pre) by (clear; induction pre; simpl; congruence).
    now rewrite E.
  - cbn [prefixes map fold_left]. rewrite map_map.
    rewrite (map_ext _ (String.append (pre ++ String c EmptyString)))
      by (intros a; now rewrite string_app_assoc).
    replace (pre ++ String c r)%string with ((pre ++ String c "") ++ r)%string
      by now rewrite string_app_assoc.
    apply IH. unfold typed_so_far, handleNameChange. cbn [key].
    destruct Hinv as [[Hk Hpre] | [Hk [p [c0 [rest [Epre [Hp Ek]]]]]]].
    + rewrite Hk. cbn [is_empty].
      destruct (generateKey (pre ++ String c "")) as [|k0 k] eqn:Eg.
      * left. split; reflexivity.
      * right. split; [discriminate|].
        exists pre, c, ""%string. split; [reflexivity|].
        split; [exact Hpre | now rewrite Eg].
    + right. assert (Ee : is_empty (key f) = false).
      { destruct (key f) eqn:E; [now destruct Hk | reflexivity]. }
      rewrite Ee. split; [exact Hk|].
      exists p, c0, (rest ++ String c "")%string. split; [|now split].
      rewrite Epre. now rewrite string_app_assoc.
Qed.

Lemma handleNameChange_keeps_key values : forall f,
  key f <> ""%string -> key (fold_left handleNameChange values f) = key f.
Proof.
  induction values as [|v l IH]; intros f Hk; [reflexivity|].
  cbn [fold_left].
  assert (E : key (handleNameChange f v) = key f).
  { unfold handleNameChange. cbn [key]. destruct (key f); [congruence | reflexivity]. }
  rewrite IH; [exact E | now rewrite E].
Qed.

(** X17. [handleNameChange] of the project dialog never replaces a key
    that is not empty; so when a name is typed one character after the
    other into the empty form, the key is not the key of the name: it is
    the key of the shortest prefix of the name that has one, and it is
    empty exactly when the name has no key. *)
Theorem typed_project_key (name : string) :
  (forall f values, key f <> ""%string ->
                    key (fold_left handleNameChange values f) = key f)
  /\ let typed := key (fold_left handleNameChange (prefixes name) (mk_form "" "")) in
     (typed = ""%string <-> generateKey name = ""%string)
     /\ (typed <> ""%string ->
         exists pre c rest, name = (pre ++ String c rest)%string
                            /\ generateKey pre = ""%string
                            /\ typed = generateKey (pre ++ String c "")).
Proof.
  split; [intros f values; apply handleNameChange_keeps_key|].
  intros typed.
  assert (H : typed_so_far
                (fold_left handleNameChange (prefixes name) (mk_form "" "")) name).
  { pose proof (typing_key name "" (mk_form "" "")) as H.
    rewrite (map_ext _ (fun a => a)) in H by reflexivity. rewrite map_id in H.
    apply H. left. split; reflexivity. }
  unfold typed_so_far in H. fold typed in H. split; [split|].
  - intros Et. destruct H as [[_ Hk] | [Hn _]]; [exact Hk | contradiction].
  - intros Eg. destruct H as [[Hk _] | [Hn [p [c [rest [En [_ Et]]]]]]]; [exact Hk|].
    exfalso. apply Hn. rewrite Et. apply kept_empty_key.
    apply generateKey_empty in Eg. rewrite En in Eg.
    replace (p ++ String c rest)%string with ((p ++ String c "") ++ rest)%string in Eg
      by now rewrite string_app_assoc.
    rewrite kept_app in Eg. now apply app_eq_nil in Eg as [Eg _].
  - intros Hn. destruct H as [[Hk _] | [_ H]]; [contradiction | exact H].
Qed.

Example typed_project_key_fizz :
  fold_left handleNameChange (prefixes "Fizz Tracker") (mk_form "" "")
  = mk_form "Fizz Tracker" "F"
  /\ handleNameChange (mk_form "" "") "Fizz Tracker" = mk_form "Fizz Tracker" "FIZZT".
Proof. split; reflexivity. Qed.

End ProjectKeyFacts.

(** ** Organization slugs while typing *)

Module OrgNameFacts.
Import Text CreateOrgDialog CreateOrgName SlugFacts.

Local Abbreviation no_alnum s := (all_chars (fun c => negb (is_lower_alnum c)) s).

Lemma toLowerCase_app a b :
  toLowerCase (a ++ b) = (toLowerCase a ++ toLowerCase b)%string.
Proof. induction a as [|c a IH]; simpl; [reflexivity | now rewrite IH]. Qed.

Lemma no_alnum_app a b : no_alnum (a ++ b) = no_alnum a && no_alnum b.
Proof.
  induction a as [|c a IH]; simpl; [reflexivity|]. now rewrite IH, andb_assoc.
Qed.

Lemma no_alnum_replace_runs t : forall b, no_alnum (replace_runs b t) = no_alnum t.
Proof.
  induction t as [|c t IH]; intros b; [reflexivity|].
  cbn [replace_runs all_chars]. destruct (is_lower_alnum c) eqn:Ec.
  - cbn [all_chars]. now rewrite Ec.
  - destruct b; cbn [all_chars negb andb]; [apply IH|].
    rewrite IH. reflexivity.
Qed.

Lemma no_alnum_drop_last_hyphen s : no_alnum (drop_last_hyphen s) = no_alnum s.
Proof.
  induction s as [|c s IH]; [reflexivity|].
  destruct s as [|c' s'].
  - cbn [drop_last_hyphen all_chars]. destruct (is_hyphen c) eqn:Eh.
    + now rewrite (hyphen_not_alnum c Eh).
    + reflexivity.
  - change (drop_last_hyphen (String c (String c' s')))
      with (String c (drop_last_hyphen (String c' s'))).
    cbn [all_chars]. cbn [all_chars] in IH. now rewrite IH.
Qed.

Lemma no_alnum_strip s : no_alnum (strip_edge_hyphens s) = no_alnum s.
Proof.
  destruct s as [|c r]; [reflexivity|]. unfold strip_edge_hyphens.
  destruct (is_hyphen c) eqn:Eh; rewrite no_alnum_drop_last_hyphen; [|reflexivity].
  cbn [all_chars]. now rewrite (hyphen_not_alnum c Eh).
Qed.

Lemma generateSlug_empty s :
  generateSlug s = ""%string -> no_alnum (toLowerCase s) = true.
Proof.
  unfold generateSlug. intros E.
  rewrite <- (no_alnum_replace_runs _ false), <- no_alnum_strip, E. reflexivity.
Qed.

Lemma replace_runs_no_alnum t :
  no_alnum t = true ->
  replace_runs true t = ""%string
  /\ (replace_runs false t = ""%string \/ replace_runs false t = "-"%string).
Proof.
  induction t as [|c t IH]; [now split; [|left]|].
  cbn [all_chars replace_runs]. intros H. apply andb_prop in H as [Hc Ht].
  apply negb_true_iff in Hc. rewrite Hc. destruct (IH Ht) as [E _].
  rewrite E. split; [reflexivity | now right].
Qed.

Lemma no_alnum_slug s : no_alnum (toLowerCase s) = true -> generateSlug s = ""%string.
Proof.
  unfold generateSlug. intros H.
  destruct (replace_runs_no_alnum _ H) as [_ [E | E]]; rewrite E; reflexivity.
Qed.

Lemma alnum_not_hyphen c : is_lower_alnum c = true -> is_hyphen c = false.
Proof.
  intros H. destruct (is_hyphen c) eqn:Eh; [|reflexivity].
  rewrite (hyphen_not_alnum c Eh) in H. discriminate.
Qed.

Lemma replace_runs_first_alnum t c :
  no_alnum t = true -> is_lower_alnum c = true ->
  replace_runs true (t ++ String c "") = String c ""
  /\ (replace_runs false (t ++ String c "") = String c ""
      \/ replace_runs false (t ++ String c "") = String "-" (String c "")).
Proof.
  intros Ht Hc. induction t as [|x t IH].
  - simpl. rewrite Hc. now split; [|left].
  - cbn [all_chars] in Ht. apply andb_prop in Ht as [Hx Ht].
    apply negb_true_iff in Hx. destruct (IH Ht) as [E _].
    cbn [String.append replace_runs]. rewrite Hx, E. now split; [|right].
Qed.

Lemma first_alnum_slug pre c :
  no_alnum (toLowerCase pre) = true ->
  (String.length (generateSlug (pre ++ String c "")) <= 1)%nat.
Proof.
  intros Hpre. unfold generateSlug. rewrite toLowerCase_app.
  cbn [toLowerCase]. destruct (is_lower_alnum (lower_char c)) eqn:Ec.
  - pose proof (alnum_not_hyphen _ Ec) as Eh.
    destruct (replace_runs_first_alnum _ _ Hpre Ec) as [_ [E | E]]; rewrite E;
      unfold strip_edge_hyphens; cbn [is_hyphen drop_last_hyphen];
      rewrite ?Eh; simpl; try rewrite Eh; simpl; lia.
  - assert (H : no_alnum (toLowerCase pre ++ String (lower_char c) "") = true).
    { rewrite no_alnum_app, Hpre. cbn [all_chars]. now rewrite Ec. }
    destruct (replace_runs_no_alnum _ H) as [_ [E | E]]; rewrite E; simpl; lia.
Qed.

Lemma typing_slug r : forall pre f,
  name f = pre ->
  (slug f = ""%string <-> no_alnum (toLowerCase pre) = true) ->
  (String.length (slug f) <= 1)%nat ->
  let f' := fold_left handleNameChange
              (map (String.append pre) (CreateProjectKey.prefixes r)) f in
  name f' = (pre ++ r)%string
  /\ (slug f' = ""%string <-> no_alnum (toLowerCase (name f')) = true)
  /\ (String.length (slug f') <= 1)%nat.
Proof.
  induction r as [|c r IH]; intros pre f Hname Hinv Hlen.
  - cbn [CreateProjectKey.prefixes map fold_left].
    assert (E : (pre ++ "")%string = pre) by (clear; induction pre; simpl; congruence).
    rewrite E, Hname. auto.
  - cbn [CreateProjectKey.prefixes map fold_left]. rewrite map_map.
    rewrite (map_ext _ (String.append (pre ++ String c EmptyString)))
      by (intros a; now rewrite ProjectKeyFacts.string_app_assoc).
    replace (pre ++ String c r)%string with ((pre ++ String c "") ++ r)%string
      by now rewrite ProjectKeyFacts.string_app_assoc.
    apply IH; unfold handleNameChange; cbn [name slug];
      [reflexivity | |]; destruct (is_empty (slug f)) eqn:Ee.
    + split; [apply generateSlug_empty | apply no_alnum_slug].
    + assert (Hs : slug f <> ""%string) by (intros E; rewrite E in Ee; discriminate Ee).
      rewrite toLowerCase_app, no_alnum_app.
      destruct (no_alnum (toLowerCase pre)) eqn:Ep.
      * exfalso. apply Hs, Hinv. reflexivity.
      * split; [intros E; contradiction | discriminate].
    + apply ProjectKeyFacts.is_empty_true in Ee. now apply first_alnum_slug, Hinv.
    + exact Hlen.
Qed.

Lemma handleNameChange_keeps_slug values : forall f,
  slug f <> ""%string -> slug (fold_left handleNameChange values f) = slug f.
Proof.
  induction values as [|v l IH]; intros f Hk; [reflexivity|].
  cbn [fold_left].
  assert (E : slug (handleNameChange f v) = slug f).
  { unfold handleNameChange. cbn [slug]. destruct (slug f); [congruence | reflexivity]. }
  rewrite IH; [exact E | now rewrite E].
Qed.

(** X18. [handleNameChange] of the organization dialog never replaces a
    slug that is not empty; so when a name is typed one character after the
    other into the empty form and the slug field is left alone, the slug
    that [handleSubmit] sends ([slug || generateSlug(name)]) has at most
    one character, and it is empty exactly when the slug of the whole name
    is. *)
Theorem typed_org_slug (n : string) :
  (forall f values, slug f <> ""%string ->
                    slug (fold_left handleNameChange values f) = slug f)
  /\ let f := fold_left handleNameChange (CreateProjectKey.prefixes n) (mk_form "" "") in
     name f = n
     /\ (String.length (submitted_slug f) <= 1)%nat
     /\ (submitted_slug f = ""%string <-> generateSlug n = ""%string).
Proof.
  split; [intros f values; apply handleNameChange_keeps_slug|].
  intros f.
  assert (H0 : slug (mk_form "" "") = ""%string <-> no_alnum (toLowerCase "") = true)
    by (split; reflexivity).
  destruct (typing_slug n "" (mk_form "" "") eq_refl H0) as (Hname & Hinv & Hlen);
    [simpl; lia|].
  rewrite map_ext with (g := fun a => a) in Hname, Hinv, Hlen by reflexivity.
  rewrite map_id in Hname, Hinv, Hlen. cbn [String.append] in Hname.
  fold f in Hname, Hinv, Hlen. rewrite Hname in Hinv.
  split; [exact Hname|]. unfold submitted_slug. rewrite Hname.
  destruct (is_empty (slug f)) eqn:Ee.
  - apply ProjectKeyFacts.is_empty_true in Ee. apply Hinv in Ee.
    rewrite (no_alnum_slug _ Ee). simpl. split; [lia | tauto].
  - split; [exact Hlen|].
    assert (Hs : slug f <> ""%string) by (intros E; rewrite E in Ee; discriminate Ee).
    split; [intros E; contradiction|].
    intros E. exfalso. apply Hs, Hinv. now apply generateSlug_empty.
Qed.

Example typed_org_slug_acme :
  fold_left handleNameChange (CreateProjectKey.prefixes "Acme Inc") (mk_form "" "")
  = mk_form "Acme Inc" "a"
  /\ handleNameChange (mk_form "" "") "Acme Inc" = mk_form "Acme Inc" "acme-inc".
Proof. split; reflexivity. Qed.

End OrgNameFacts.

(** ** The board and the dashboard numbers *)

Module BoardFacts.
Import BoardColumns.

Lemma status_eqb_eq a b : status_eqb a b = true <-> a = b.
Proof. destruct a, b; simpl; split; congruence. Qed.

Lemma cards_length issues :
  (List.length (List.concat (cards issues))
   + List.length (getIssuesByStatus issues blocked) = List.length issues)%nat.
Proof.
  unfold cards, statusColumns, getIssuesByStatus. cbn [map List.concat].
  rewrite !length_app. cbn [List.length].
  induction issues as [|i l IH]; [reflexivity|].
  cbn [filter]. destruct (status i); cbn [status_eqb List.length]; lia.
Qed.

Lemma cards_In issues i :
  In i (List.concat (cards issues)) <-> In i issues /\ status i <> blocked.
Proof.
  unfold cards, statusColumns, getIssuesByStatus. cbn [map List.concat].
  rewrite !in_app_iff, !filter_In, !status_eqb_eq. cbn [In].
  destruct (status i); intuition congruence.
Qed.

(** X19. The board shows every loaded issue whose status is not
    [blocked], in the one column of its status, and no blocked issue at all:
    the cards and the blocked issues together are the loaded issues. *)
Theorem board_leaves_out_blocked (issues : list Issue) :
  (forall i, In i (List.concat (cards issues)) <-> In i issues /\ status i <> blocked)
  /\ (List.length (List.concat (cards issues))
      + List.length (getIssuesByStatus issues blocked) = List.length issues)%nat
  /\ (forall c1 c2 i, In i (getIssuesByStatus issues c1) ->
                      In i (getIssuesByStatus issues c2) -> c1 = c2).
Proof.
  split; [intros i; apply cards_In|]. split; [apply cards_length|].
  unfold getIssuesByStatus. intros c1 c2 i H1 H2.
  apply filter_In in H1 as [_ H1], H2 as [_ H2].
  apply status_eqb_eq in H1, H2. congruence.
Qed.

Example board_blocked_issue :
  let i := mk_issue 1 "FIZ-1" "Fix login" "bug" "high" blocked [] in
  cards [i] = [[]; []; []; []; []]
  /\ DashboardStats.loadStats 1 [i] = DashboardStats.mk_stats 1 1 0.
Proof. split; reflexivity. Qed.

(** X20. The two issue numbers of the dashboard add up to the number of
    issues the session can read; an issue that is [blocked] counts as
    active, so the numbers exceed the cards of the board over the same
    issues by the number of blocked ones. *)
Theorem loadStats_counts_every_issue (readable_projects : nat) (readable : list Issue) :
  let s := DashboardStats.loadStats readable_projects readable in
  DashboardStats.activeIssues s + DashboardStats.completedIssues s
  = Z.of_nat (List.length readable)
  /\ DashboardStats.activeIssues s + DashboardStats.completedIssues s
     = Z.of_nat (List.length (List.concat (cards readable)))
       + Z.of_nat (List.length (getIssuesByStatus readable blocked))
  /\ Z.of_nat (List.length (getIssuesByStatus readable blocked))
     <= DashboardStats.activeIssues s.
Proof.
  cbn zeta.
  unfold DashboardStats.loadStats, DashboardStats.setStats, DashboardStats.count_active,
    DashboardStats.count_done, DashboardStats.or_zero.
  cbn [DashboardStats.activeIssues DashboardStats.completedIssues].
  pose proof (cards_length readable) as Hc.
  assert (Hsum : (List.length (filter (fun i => negb (status_eqb (status i) done)) readable)
                  + List.length (filter (fun i => status_eqb (status i) done) readable)
                  = List.length readable)%nat).
  { induction readable as [|i l IH]; [reflexivity|].
    cbn [filter]. destruct (status_eqb (status i) done); cbn [negb List.length];
      specialize (IH (cards_length l)); lia. }
  assert (Hb : (List.length (getIssuesByStatus readable blocked)
                <= List.length (filter (fun i => negb (status_eqb (status i) done)) readable))%nat).
  { clear. unfold getIssuesByStatus. induction readable as [|i l IH]; [reflexivity|].
    cbn [filter]. destruct (status i); cbn [status_eqb negb List.length]; lia. }
  lia.
Qed.

End BoardFacts.

(** ** The checklist of the smart dashboard *)

Module ChecklistFacts.
Import SmartChecklist.

(** X21. In the checklist that [loadDashboard] builds, a later step is
    done only when the steps it depends on are; [nextAction] is the first
    step that is not done, whatever the counts; and there is no next action
    exactly when the progress is 100, the progress being 25 for each step
    done. *)
Theorem checklist_next_action (org_id : option uuid)
  (projectCount issueCount inviteCount : option Z) :
  let l := items org_id projectCount issueCount inviteCount in
  nextAction l = find (fun item => negb (done item)) l
  /\ (nextAction l = None <-> progress l = 100)
  /\ progress l = 25 * Z.of_nat (List.length (filter done l))
  /\ (forall a b c d, map done l = [a; b; c; d] ->
        (c = true -> b = true) /\ (b = true -> a = true) /\ (d = true -> a = true)).
Proof.
  cbn zeta. unfold items, nextAction, progress.
  destruct org_id as [o|]; cbn [Api.is_null negb andb];
    destruct (some_rows projectCount); cbn [andb];
    destruct (some_rows issueCount); destruct (some_rows inviteCount);
    (split; [reflexivity|]); (split; [split; [reflexivity || discriminate | reflexivity || discriminate]|]);
    (split; [reflexivity|]); intros a b c d E; injection E as <- <- <- <-;
    intuition congruence.
Qed.

Example checklist_new_user :
  nextAction (items None None None None) = Some (mk_item create_org false true)
  /\ nextAction (items (Some 10%N) (Some 2) (Some 0) (Some 1))
     = Some (mk_item create_issue false true).
Proof. split; reflexivity. Qed.

End ChecklistFacts.

(** ** When the stored procedure fails *)

Module IssueKeyErrors.
Import Text Pg Functions Samples MoreSamples.

Local Abbreviation no_digit s :=
  (CreateOrgDialog.all_chars (fun c => negb (is_digit c)) s = true).

Lemma suffixes_Err key rows i e :
  In i rows -> numeric_suffix key (Issue.issue_key i) = Err e ->
  exists e', suffixes key rows = Err e'.
Proof.
  intros Hin He. induction rows as [|j rows IH]; [contradiction|].
  cbn [suffixes]. destruct Hin as [-> | Hin].
  - rewrite He. now exists e.
  - destruct (numeric_suffix key (Issue.issue_key j)) as [n|e1]; [|now exists e1].
    destruct (IH Hin) as [e' ->]. now exists e'.
Qed.

Lemma no_digit_skip_spaces s : no_digit s -> no_digit (skip_spaces s).
Proof.
  induction s as [|c r IH]; [trivial|]. intros H. cbn [skip_spaces].
  destruct (isspace c); [|exact H].
  apply IH. cbn [CreateOrgDialog.all_chars] in H. now apply andb_prop in H.
Qed.

Lemma digits_to_end_no_digit neg s :
  no_digit s -> digits_to_end neg s = Err invalid_text_representation.
Proof.
  destruct s as [|c r]; [reflexivity|]. intros H.
  cbn [CreateOrgDialog.all_chars] in H. apply andb_prop in H as [Hc _].
  apply negb_true_iff in Hc. unfold digits_to_end. now rewrite Hc.
Qed.

(** A text without a digit is no [integer]. *)
Lemma int4in_no_digit s : no_digit s -> int4in s = Err invalid_text_representation.
Proof.
  intros H. apply no_digit_skip_spaces in H. unfold int4in.
  destruct (skip_spaces s) as [|c r]; [reflexivity|].
  assert (Hr : no_digit r).
  { cbn [CreateOrgDialog.all_chars] in H. now apply andb_prop in H. }
  destruct c as [[] [] [] [] [] [] [] []];
    apply digits_to_end_no_digit; assumption.
Qed.

(** X22. For a project that exists, one issue of the project whose key
    has no digit behind the prefix makes [generate_issue_key] fail,
    whatever the other issues are; and when the keys of the project all
    read as integers and the greatest is the last [integer], the function
    fails with 'numeric value out of range' instead of wrapping around. *)
Theorem generate_issue_key_fails (d : db) (x : uuid) (p : Project.row) :
  find (fun q => (Project.id q =? x)%N) (projects d) = Some p ->
  (forall i, In i (issues d) -> Issue.project_id i = x ->
             no_digit (substring_from (String.length (Project.key p) + 2)
                                      (Issue.issue_key i)) ->
             exists e', generate_issue_key d x = Err e')
  /\ (forall num : Issue.row -> Z,
        (forall i, In i (issues d) -> Issue.project_id i = x ->
                   numeric_suffix (Project.key p) (Issue.issue_key i) = OK (num i)) ->
        max_suffix d x num int4_max ->
        generate_issue_key d x = Err numeric_value_out_of_range).
Proof.
  intros Hp. unfold generate_issue_key. rewrite Hp. split.
  - intros i Hin Hx Hno.
    assert (Hi : In i (issues_of d x)) by now apply IssueKeyFacts.issues_of_In.
    assert (He : numeric_suffix (Project.key p) (Issue.issue_key i)
                 = Err invalid_text_representation)
      by now apply int4in_no_digit.
    destruct (suffixes_Err _ _ _ _ Hi He) as [e' ->]. now exists e'.
  - intros num Hs Hm.
    assert (Hs' : Forall2 (fun i n => numeric_suffix (Project.key p) (Issue.issue_key i)
                                      = OK n)
                          (issues_of d x) (map num (issues_of d x))).
    { apply IssueKeyFacts.Forall2_map_right. intros i Hi.
      apply IssueKeyFacts.issues_of_In in Hi as [Hi Hx]. now apply Hs. }
    rewrite (IssueKeyFacts.suffixes_Forall2 _ _ _ Hs').
    cbv beta iota.
    rewrite (IssueKeyFacts.greatest_or_zero_unique _ _ _
               (IssueKeyFacts.coalesce_sql_max _)
               (IssueKeyFacts.max_suffix_greatest _ _ _ _ Hm)).
    reflexivity.
Qed.

Lemma generate_issue_key_fails_witness :
  (exists e', generate_issue_key bad_key_db 100 = Err e')
  /\ generate_issue_key last_key_db 100 = Err numeric_value_out_of_range.
Proof.
  split.
  - destruct (generate_issue_key_fails bad_key_db 100 (Project.mk 100 10 "Fizz" "FIZ"))
      as [H _]; [reflexivity|].
    apply (H (Issue.mk 2000 100 "FIZ-one" "First" 2 []));
      [simpl; auto | reflexivity | reflexivity].
  - destruct (generate_issue_key_fails last_key_db 100 (Project.mk 100 10 "Fizz" "FIZ"))
      as [_ H]; [reflexivity|].
    apply (H sample_number).
    + simpl. intros i [<- | []] _. reflexivity.
    + right. split.
      * exists (Issue.mk 2000 100 "FIZ-2147483647" "Last" 2 []). simpl. auto.
      * simpl. intros i [<- | []] _. vm_compute. discriminate.
Defined.

End IssueKeyErrors.
